(** * md-pdf-md: the Markdown-to-PDF layout pipeline

    A shallow embedding of the pure core of the converter:
    - [generateId], [validateMarkdown] and the heading renderer of
      [parseMarkdown]                                   (src/parser.ts);
    - [wrapContentSections], [generateCoverPage], [generateToc] and
      [escapeHtml]                                      (template.ts);
    - [decodeHtml]                                      (highlighter.ts);
    - [getTheme]                                        (src/themes.ts);
    - the control flow of [convertMarkdownToPdf]        (src/converter.ts).

    JavaScript strings are sequences of UTF-16 code units; a code unit is
    a number [N] and a string a [list N].  Regular expressions without the
    [u] flag work on code units, so the character classes below are
    predicates on [N]. *)

From Stdlib Require Import String Ascii DecimalString.
From Stdlib Require Import List NArith ZArith Bool Lia.
Import ListNotations.

(** ** Strings *)

Definition jsstring := list N.

(** An ASCII literal as a JavaScript string. *)
Definition lit (s : string) : jsstring :=
  map N_of_ascii (list_ascii_of_string s).

(** The double-quote character. *)
Definition dq : N := 34%N.

Definition jsstring_eqb (a b : jsstring) : bool :=
  if list_eq_dec N.eq_dec a b then true else false.

(** [s.startsWith(p)]. *)
Fixpoint starts_with (p s : jsstring) : bool :=
  match p, s with
  | [], _ => true
  | _ :: _, [] => false
  | a :: p', b :: s' => (a =? b)%N && starts_with p' s'
  end.

(** [s.indexOf(p)] for a non-empty [p]: the position of the first
    occurrence, [-1] when there is none. *)
Fixpoint indexOf (p s : jsstring) : Z :=
  if starts_with p s then 0%Z
  else match s with
       | [] => (-1)%Z
       | _ :: s' => let i := indexOf p s' in
                    if (i <? 0)%Z then (-1)%Z else (i + 1)%Z
       end.

(** [s.includes(p)]. *)
Definition includes (p s : jsstring) : bool := (0 <=? indexOf p s)%Z.

(** [s.substring(0, i)] and [s.substring(i)] for [0 <= i]. *)
Definition substring_to (i : Z) (s : jsstring) : jsstring := firstn (Z.to_nat i) s.
Definition substring_from (i : Z) (s : jsstring) : jsstring := skipn (Z.to_nat i) s.

(** ** Character classes of the regular expressions *)

Definition is_upper (c : N) : bool := (65 <=? c)%N && (c <=? 90)%N.
Definition is_lower (c : N) : bool := (97 <=? c)%N && (c <=? 122)%N.
Definition is_digit (c : N) : bool := (48 <=? c)%N && (c <=? 57)%N.
Definition underscore : N := 95%N.
Definition hyphen : N := 45%N.
Definition is_hyphen (c : N) : bool := (c =? hyphen)%N.

(** [\w] is [A-Za-z0-9_]. *)
Definition is_word (c : N) : bool :=
  is_upper c || is_lower c || is_digit c || (c =? underscore)%N.

(** Line terminators: LF, CR, LS, PS.  The dot of a regular expression
    without the [s] flag matches everything else. *)
Definition is_line_terminator (c : N) : bool :=
  (c =? 10)%N || (c =? 13)%N || (c =? 8232)%N || (c =? 8233)%N.

(** [\s], which is also the set [String.prototype.trim] removes: white
    space (TAB, VT, FF, SP, NBSP, U+1680, U+2000..U+200A, U+202F, U+205F,
    U+3000, BOM) and the line terminators. *)
Definition is_space (c : N) : bool :=
  (c =? 9)%N || (c =? 11)%N || (c =? 12)%N || (c =? 32)%N || (c =? 160)%N
  || (c =? 5760)%N || ((8192 <=? c)%N && (c <=? 8202)%N)
  || (c =? 8239)%N || (c =? 8287)%N || (c =? 12288)%N || (c =? 65279)%N
  || is_line_terminator c.

Fixpoint drop_while (p : N -> bool) (s : jsstring) : jsstring :=
  match s with
  | [] => []
  | c :: s' => if p c then drop_while p s' else s
  end.

Fixpoint take_while (p : N -> bool) (s : jsstring) : jsstring :=
  match s with
  | [] => []
  | c :: s' => if p c then c :: take_while p s' else []
  end.

(** [s.trim()]. *)
Definition trim (s : jsstring) : jsstring :=
  rev (drop_while is_space (rev (drop_while is_space s))).

(** ** [String.prototype.replace] with a global regular expression

    [exec s] is the match of the expression anchored at the start of [s]:
    the matched text and what follows it.  The engine tries each position
    from left to right; after a match it resumes behind it, and where
    there is none it copies one code unit.  None of the expressions of the
    program matches the empty string, so every step consumes input and
    [length s] steps (plus one for the end) are enough. *)

Section GlobalReplace.
Variable exec : jsstring -> option (jsstring * jsstring).
Variable subst : jsstring -> jsstring.

Fixpoint replace_from (fuel : nat) (s : jsstring) : jsstring :=
  match fuel with
  | O => s
  | S fuel' =>
      match exec s with
      | Some (m, rest) => subst m ++ replace_from fuel' rest
      | None =>
          match s with
          | [] => []
          | c :: s' => c :: replace_from fuel' s'
          end
      end
  end.

Definition replaceAll (s : jsstring) : jsstring :=
  replace_from (S (length s)) s.
End GlobalReplace.

Arguments replaceAll : simpl never.

(** A match is a non-empty prefix of the input. *)
Definition exec_sound (exec : jsstring -> option (jsstring * jsstring)) : Prop :=
  forall s m rest, exec s = Some (m, rest) -> s = m ++ rest /\ m <> [].

(** A single character of a class: [/[...]/]. *)
Definition exec_class (p : N -> bool) (s : jsstring) : option (jsstring * jsstring) :=
  match s with
  | c :: rest => if p c then Some ([c], rest) else None
  | [] => None
  end.

(** A greedy non-empty run of a class: [/[...]+/]. *)
Definition exec_plus (p : N -> bool) (s : jsstring) : option (jsstring * jsstring) :=
  match s with
  | c :: rest => if p c then Some (c :: take_while p rest, drop_while p rest) else None
  | [] => None
  end.

(** A literal: [/abc/]. *)
Definition exec_lit (p : jsstring) (s : jsstring) : option (jsstring * jsstring) :=
  if starts_with p s then Some (p, skipn (length p) s) else None.

(** ** src/parser.ts: [generateId]

    [String.prototype.toLowerCase] follows the Unicode case tables and is
    taken as a parameter; [asciiLower] is what it does on ASCII text. *)

Definition asciiLower (s : jsstring) : jsstring :=
  map (fun c => if is_upper c then (c + 32)%N else c) s.

Section GenerateId.
Variable toLowerCase : jsstring -> jsstring.

(** [/[^\w\s-]/g] *)
Definition not_word_space_hyphen (c : N) : bool :=
  negb (is_word c || is_space c || is_hyphen c).

Definition generateId (text : jsstring) : jsstring :=
  trim
    (replaceAll (exec_plus is_hyphen) (fun _ => [hyphen])
       (replaceAll (exec_plus is_space) (fun _ => [hyphen])
          (replaceAll (exec_class not_word_space_hyphen) (fun _ => [])
             (toLowerCase text)))).
End GenerateId.

(** ** src/parser.ts: [validateMarkdown] *)

Record Validation := { valid : bool; error : option jsstring }.

Definition MAX_LENGTH : Z := 10 * 1024 * 1024.

Definition validateMarkdown (content : jsstring) : Validation :=
  if jsstring_eqb content [] || (length (trim content) =? 0)%nat then
    {| valid := false; error := Some (lit "Markdown content is empty") |}
  else if (Z.of_nat (length content) >? MAX_LENGTH)%Z then
    {| valid := false; error := Some (lit "Markdown file is too large (max 10MB)") |}
  else {| valid := true; error := None |}.

(** ** types.ts *)

(** A date of the front matter is a string, or a timestamp the YAML
    reader has turned into a [Date] (its time value in milliseconds). *)
Inductive DateField :=
| DateString (s : jsstring)
| DateObject (time : Z).

Record FrontMatter := {
  fm_title : option jsstring;
  fm_subtitle : option jsstring;
  fm_author : option jsstring;
  fm_date : option DateField
}.

Record TocItem := {
  toc_id : jsstring;
  toc_title : jsstring;
  toc_level : nat
}.

Record ParsedMarkdown := {
  pm_content : jsstring;
  pm_frontMatter : FrontMatter;
  pm_toc : list TocItem;
  pm_html : jsstring
}.

(** ** src/parser.ts: [parseMarkdown]

    The front-matter reader and the Markdown lexer are collaborators.  The
    lexer's result is taken as the sequence of render events of the
    document, in document order: a call of [renderer.heading] for each
    heading, whatever block it is nested in, and the markup the other
    renderers produce around and between them. *)

Inductive Token :=
| Heading (text : jsstring) (depth : nat) (raw : jsstring)
| Markup (html : jsstring).

Section ParseMarkdown.
Variable toLowerCase : jsstring -> jsstring.
Variable matter : jsstring -> FrontMatter * jsstring.
Variable lexer : jsstring -> list Token.
(** [renderer.heading] of a fresh [marked.Renderer]. *)
Variable originalHeading : jsstring -> nat -> jsstring -> jsstring.

(** The replacement heading renderer; the array [toc] it closes over is
    threaded through. *)
Definition heading (text : jsstring) (level : nat) (raw : jsstring)
    (toc : list TocItem) : jsstring * list TocItem :=
  let id := generateId toLowerCase raw in
  let toc' :=
    if (level <=? 3)%nat
    then toc ++ [ {| toc_id := id; toc_title := raw; toc_level := level |} ]
    else toc in
  (originalHeading text level raw, toc').

(** [marked.parse] with that renderer installed. *)
Fixpoint render (tokens : list Token) (toc : list TocItem)
    : jsstring * list TocItem :=
  match tokens with
  | [] => ([], toc)
  | Heading text depth raw :: rest =>
      let (h, toc1) := heading text depth raw toc in
      let (out, toc2) := render rest toc1 in
      (h ++ out, toc2)
  | Markup html :: rest =>
      let (out, toc1) := render rest toc in
      (html ++ out, toc1)
  end.

Definition parseMarkdown (content : jsstring) : ParsedMarkdown :=
  let (frontMatter, markdownContent) := matter content in
  let (html, toc) := render (lexer markdownContent) [] in
  {| pm_content := markdownContent;
     pm_frontMatter := frontMatter;
     pm_toc := toc;
     pm_html := html |}.
End ParseMarkdown.

(** A non-negative integer in a template literal. *)
Definition decimal (n : nat) : jsstring :=
  lit (NilZero.string_of_uint (Nat.to_uint n)).

(** [Renderer.prototype.heading] of marked when header ids are off, which
    is how [gfmHeadingId] configures it: the element without attributes. *)
Definition stockHeading (text : jsstring) (level : nat) (raw : jsstring) : jsstring :=
  lit "<h" ++ decimal level ++ lit ">" ++ text ++ lit "</h" ++ decimal level
    ++ lit ">" ++ [10%N].

(** ** src/themes.ts *)

Record Theme := { theme_name : jsstring; theme_css : jsstring }.

(** What reading a key of an object literal gives when it is there: an
    own property, or a member inherited from [Object.prototype]. *)
Inductive Lookup (A : Type) :=
| Found (a : A)
| Inherited (member : jsstring).
Arguments Found {A} a.
Arguments Inherited {A} member.

(** The names every object literal inherits. *)
Definition object_prototype_members : list jsstring :=
  Eval cbv in
    map lit [ "constructor"; "hasOwnProperty"; "isPrototypeOf";
              "propertyIsEnumerable"; "toLocaleString"; "toString";
              "valueOf"; "__proto__"; "__defineGetter__";
              "__defineSetter__"; "__lookupGetter__"; "__lookupSetter__" ]%string.

Definition getAvailableThemes : list jsstring :=
  Eval cbv in map lit [ "github"; "github-dark"; "academic"; "minimal" ]%string.

(** [object[key]] for a literal with the own properties [own]: own
    properties first, then the prototype; [None] is [undefined]. *)
Definition object_get {A : Type} (own : jsstring -> option A) (key : jsstring)
    : option (Lookup A) :=
  match own key with
  | Some a => Some (Found a)
  | None =>
      if existsb (jsstring_eqb key) object_prototype_members
      then Some (Inherited key)
      else None
  end.

Section Themes.
(** The style sheets are long literals; their text is a parameter. *)
Variable baseStyles : jsstring.
Variables darkStyles academicStyles minimalStyles : jsstring.

Definition githubTheme : Theme :=
  {| theme_name := lit "github"; theme_css := baseStyles |}.
Definition githubDarkTheme : Theme :=
  {| theme_name := lit "github-dark"; theme_css := baseStyles ++ darkStyles |}.
Definition academicTheme : Theme :=
  {| theme_name := lit "academic"; theme_css := baseStyles ++ academicStyles |}.
Definition minimalTheme : Theme :=
  {| theme_name := lit "minimal"; theme_css := baseStyles ++ minimalStyles |}.

(** The own properties of the literal [themes]. *)
Definition themes_own (key : jsstring) : option Theme :=
  if jsstring_eqb key (lit "github") then Some githubTheme
  else if jsstring_eqb key (lit "github-dark") then Some githubDarkTheme
  else if jsstring_eqb key (lit "academic") then Some academicTheme
  else if jsstring_eqb key (lit "minimal") then Some minimalTheme
  else None.

(** [themes[key]]. *)
Definition themes_get (key : jsstring) : option (Lookup Theme) :=
  object_get themes_own key.

(** [getTheme(themeName = 'github')]; themes and inherited members are
    all truthy. *)
Definition getTheme (themeName : option jsstring) : Lookup Theme :=
  let themeName := match themeName with Some n => n | None => lit "github" end in
  match themes_get themeName with
  | Some v => v
  | None => Found githubTheme
  end.

(** [theme.css]; [None] is [undefined]. *)
Definition css (r : Lookup Theme) : option jsstring :=
  match r with
  | Found t => Some (theme_css t)
  | Inherited _ => None
  end.
End Themes.

(** ** template.ts *)

Definition nl : N := 10%N.

(** A quoted attribute value. *)
Definition q (s : string) : jsstring := dq :: lit s ++ [dq].

(** [parts.join(sep)]. *)
Fixpoint join (sep : jsstring) (parts : list jsstring) : jsstring :=
  match parts with
  | [] => []
  | [p] => p
  | p :: rest => p ++ sep ++ join sep rest
  end.

(** The class of [escapeHtml]'s expression: ampersand, angle brackets,
    double quote and apostrophe. *)
Definition is_reserved (c : N) : bool :=
  (c =? 38)%N || (c =? 60)%N || (c =? 62)%N || (c =? 34)%N || (c =? 39)%N.

(** The table [map] of [escapeHtml], applied to the matched character; a
    key it does not hold reads [undefined]. *)
Definition escape_map (char : jsstring) : jsstring :=
  match char with
  | [c] =>
      if (c =? 38)%N then lit "&amp;"
      else if (c =? 60)%N then lit "&lt;"
      else if (c =? 62)%N then lit "&gt;"
      else if (c =? 34)%N then lit "&quot;"
      else if (c =? 39)%N then lit "&#39;"
      else lit "undefined"
  | _ => lit "undefined"
  end.

Definition escapeHtml (text : jsstring) : jsstring :=
  replaceAll (exec_class is_reserved) escape_map text.

(** *** [wrapContentSections] *)

Definition H2 : jsstring := Eval cbv in lit "<h2".
Definition H2_END : jsstring := Eval cbv in lit "</h2>".
Definition SECTION_OPEN : jsstring :=
  Eval cbv in lit "<div class=" ++ q "section" ++ lit ">".
Definition SECTION_CLOSE : jsstring := Eval cbv in lit "</div>".

(** [[^>]*>]: the greedy class stops at the first [>], which must be
    there; a shorter run ends before another character, so backtracking
    finds no other match. *)
Fixpoint exec_attrs (s : jsstring) : option (jsstring * jsstring) :=
  match s with
  | [] => None
  | c :: s' =>
      if (c =? 62)%N then Some ([c], s')
      else match exec_attrs s' with
           | Some (m, rest) => Some (c :: m, rest)
           | None => None
           end
  end.

(** [.*?</h2>]: the lazy dot stops at the first closing tag and passes no
    line terminator. *)
Fixpoint exec_lazy_to (close : jsstring) (s : jsstring) {struct s}
    : option (jsstring * jsstring) :=
  if starts_with close s then Some (close, skipn (length close) s)
  else match s with
       | [] => None
       | c :: s' =>
           if is_line_terminator c then None
           else match exec_lazy_to close s' with
                | Some (m, rest) => Some (c :: m, rest)
                | None => None
                end
       end.

(** [(?:(?!<h2)[\s\S])*]: everything up to the next [<h2] or the end. *)
Fixpoint exec_until (stop : jsstring) (s : jsstring) {struct s}
    : jsstring * jsstring :=
  if starts_with stop s then ([], s)
  else match s with
       | [] => ([], [])
       | c :: s' => let (m, rest) := exec_until stop s' in (c :: m, rest)
       end.

(** The whole expression: group 1 is [<h2[^>]*>.*?<\/h2>], group 2 is
    [(?:(?!<h2)[\s\S])*].  The result is the two groups and the remainder. *)
Definition exec_h2_groups (s : jsstring) : option (jsstring * jsstring * jsstring) :=
  if starts_with H2 s then
    match exec_attrs (skipn (length H2) s) with
    | Some (attrs, r1) =>
        match exec_lazy_to H2_END r1 with
        | Some (body, r2) =>
            let (g2, r3) := exec_until H2 r2 in
            Some (H2 ++ attrs ++ body, g2, r3)
        | None => None
        end
    | None => None
    end
  else None.

Definition exec_h2_section (s : jsstring) : option (jsstring * jsstring) :=
  match exec_h2_groups s with
  | Some (g1, g2, rest) => Some (g1 ++ g2, rest)
  | None => None
  end.

(** The replacement [<div class="section">$1$2</div>]; the match is
    [$1$2]. *)
Definition section_of (m : jsstring) : jsstring :=
  SECTION_OPEN ++ m ++ SECTION_CLOSE.

Definition wrapContentSections (html : jsstring) : jsstring :=
  let wrapped := replaceAll exec_h2_section section_of html in
  let firstH2Index := indexOf H2 wrapped in
  if (0 <? firstH2Index)%Z then
    let beforeFirstH2 := substring_to firstH2Index wrapped in
    let afterFirstH2 := substring_from firstH2Index wrapped in
    if negb (jsstring_eqb (trim beforeFirstH2) []) then
      SECTION_OPEN ++ beforeFirstH2 ++ SECTION_CLOSE ++ afterFirstH2
    else wrapped
  else wrapped.

(** *** [getAdditionalStyles] *)

Definition getAdditionalStyles : jsstring :=
  Eval cbv in
    nl :: join [nl] (map lit
      [ "    /* Section wrapper for better page breaks */";
        "    .section {";
        "      page-break-inside: auto;";
        "      break-inside: auto;";
        "    }";
        "";
        "    /* Ensure all major containers respect margins */";
        "    .content,";
        "    .cover-page,";
        "    .toc {";
        "      width: 100%;";
        "      max-width: 100%;";
        "      box-sizing: border-box;";
        "    }";
        "  " ]%string).

(** *** [generateCoverPage] *)

(** Truthiness of an optional string: defined and not empty. *)
Definition truthy (o : option jsstring) : bool :=
  match o with
  | Some (_ :: _) => true
  | _ => false
  end.

(** Truthiness of the date: a non-empty string, or any [Date]. *)
Definition date_truthy (o : option DateField) : bool :=
  match o with
  | Some (DateString (_ :: _)) => true
  | Some (DateObject _) => true
  | _ => false
  end.

Definition str (o : option jsstring) : jsstring :=
  match o with
  | Some s => s
  | None => []
  end.

Definition COVER_OPEN : jsstring :=
  Eval cbv in lit "<div class=" ++ q "cover-page" ++ lit ">".
Definition COVER_TITLE_OPEN : jsstring :=
  Eval cbv in lit "<h1 class=" ++ q "cover-title" ++ lit ">".
Definition COVER_SUBTITLE_OPEN : jsstring :=
  Eval cbv in lit "<p class=" ++ q "cover-subtitle" ++ lit ">".
Definition COVER_META_OPEN : jsstring :=
  Eval cbv in lit "<div class=" ++ q "cover-meta" ++ lit ">".
Definition AUTHOR_LABEL : jsstring :=
  Eval cbv in lit "<p><strong>Author:</strong> ".
Definition DATE_LABEL : jsstring :=
  Eval cbv in lit "<p><strong>Date:</strong> ".

Section CoverPage.
(** [new Date(d).toLocaleDateString()] depends on the locale. *)
Variable toLocaleDateString : Z -> jsstring.

Definition cover_title (frontMatter : FrontMatter) : jsstring :=
  if truthy (fm_title frontMatter)
  then COVER_TITLE_OPEN ++ escapeHtml (str (fm_title frontMatter)) ++ lit "</h1>"
  else [].

Definition cover_subtitle (frontMatter : FrontMatter) : jsstring :=
  if truthy (fm_subtitle frontMatter)
  then COVER_SUBTITLE_OPEN ++ escapeHtml (str (fm_subtitle frontMatter)) ++ lit "</p>"
  else [].

Definition date_text (d : option DateField) : jsstring :=
  match d with
  | Some (DateString s) => s
  | Some (DateObject t) => toLocaleDateString t
  | None => []
  end.

Definition metaParts (frontMatter : FrontMatter) : list jsstring :=
  (if truthy (fm_author frontMatter)
   then [AUTHOR_LABEL ++ escapeHtml (str (fm_author frontMatter)) ++ lit "</p>"]
   else [])
  ++
  (if date_truthy (fm_date frontMatter)
   then [DATE_LABEL ++ escapeHtml (date_text (fm_date frontMatter)) ++ lit "</p>"]
   else []).

Definition cover_meta (frontMatter : FrontMatter) : jsstring :=
  if (0 <? length (metaParts frontMatter))%nat
  then COVER_META_OPEN ++ join [nl] (metaParts frontMatter) ++ lit "</div>"
  else [].

Definition generateCoverPage (frontMatter : FrontMatter) : jsstring :=
  if negb (truthy (fm_title frontMatter))
     && negb (truthy (fm_author frontMatter))
     && negb (date_truthy (fm_date frontMatter))
  then []
  else
    COVER_OPEN ++ nl :: lit "  " ++ cover_title frontMatter
      ++ nl :: lit "  " ++ cover_subtitle frontMatter
      ++ nl :: lit "  " ++ cover_meta frontMatter
      ++ nl :: lit "</div>".
End CoverPage.

(** *** [generateToc] *)

Definition toc_entry (item : TocItem) : jsstring :=
  lit "<li class=" ++ dq :: lit "toc-item toc-level-" ++ decimal (toc_level item)
    ++ dq :: lit ">" ++ nl
    :: lit "  <a href=" ++ dq :: lit "#" ++ toc_id item ++ dq :: lit ">"
    ++ escapeHtml (toc_title item) ++ lit "</a>" ++ nl
    :: lit "  <span class=" ++ q "toc-item-page" ++ lit "></span>" ++ nl
    :: lit "</li>".

Definition generateToc (toc : list TocItem) : jsstring :=
  if (length toc =? 0)%nat then []
  else
    let tocItems := join [nl] (map toc_entry toc) in
    lit "<div class=" ++ q "toc" ++ lit ">" ++ nl
      :: lit "  <h1 class=" ++ q "toc-title" ++ lit ">Table of Contents</h1>" ++ nl
      :: lit "  <ul class=" ++ q "toc-list" ++ lit ">" ++ nl
      :: lit "    " ++ tocItems ++ nl
      :: lit "  </ul>" ++ nl
      :: lit "</div>".

(** *** [generateHtml] *)

Record PdfOptions := {
  opt_input : jsstring;
  opt_output : option jsstring;
  opt_theme : option jsstring;
  opt_toc : bool;
  opt_css : option jsstring
}.

Section GenerateHtml.
Variable toLocaleDateString : Z -> jsstring.
Variable baseStyles : jsstring.
Variables darkStyles academicStyles minimalStyles : jsstring.

(** [${theme.css}]; [undefined] prints as its name. *)
Definition css_text (r : Lookup Theme) : jsstring :=
  match css r with
  | Some c => c
  | None => lit "undefined"
  end.

Definition generateHtml (parsed : ParsedMarkdown) (options : PdfOptions) : jsstring :=
  let theme := getTheme baseStyles darkStyles academicStyles minimalStyles
                 (opt_theme options) in
  let frontMatter := pm_frontMatter parsed in
  let coverPage := generateCoverPage toLocaleDateString frontMatter in
  let tocHtml := if opt_toc options then generateToc (pm_toc parsed) else [] in
  let wrappedContent := wrapContentSections (pm_html parsed) in
  lit "<!DOCTYPE html>" ++ nl
    :: lit "<html lang=" ++ q "en" ++ lit ">" ++ nl
    :: lit "<head>" ++ nl
    :: lit "  <meta charset=" ++ q "UTF-8" ++ lit ">" ++ nl
    :: lit "  <meta name=" ++ q "viewport" ++ lit " content="
         ++ q "width=device-width, initial-scale=1.0" ++ lit ">" ++ nl
    :: lit "  <title>"
         ++ escapeHtml (if truthy (fm_title frontMatter)
                        then str (fm_title frontMatter) else lit "Document")
         ++ lit "</title>" ++ nl
    :: lit "  <style>" ++ nl
    :: lit "    " ++ css_text theme ++ nl
    :: lit "    " ++ getAdditionalStyles ++ nl
    :: lit "    " ++ (if truthy (opt_css options)
                      then lit "/* Custom CSS */" ++ nl :: str (opt_css options)
                      else []) ++ nl
    :: lit "  </style>" ++ nl
    :: lit "</head>" ++ nl
    :: lit "<body>" ++ nl
    :: lit "  " ++ coverPage ++ nl
    :: lit "  " ++ tocHtml ++ nl
    :: lit "  <div class=" ++ q "content" ++ lit ">" ++ nl
    :: lit "    " ++ wrappedContent ++ nl
    :: lit "  </div>" ++ nl
    :: lit "</body>" ++ nl
    :: lit "</html>".
End GenerateHtml.

(** ** highlighter.ts: [decodeHtml] *)

Definition replaceLiteral (pattern replacement : jsstring) : jsstring -> jsstring :=
  replaceAll (exec_lit pattern) (fun _ => replacement).

Definition decodeHtml (html : jsstring) : jsstring :=
  replaceLiteral (lit "&#39;") [39%N]
    (replaceLiteral (lit "&quot;") [dq]
       (replaceLiteral (lit "&gt;") (lit ">")
          (replaceLiteral (lit "&lt;") (lit "<")
             (replaceLiteral (lit "&amp;") (lit "&") html)))).

(** ** src/converter.ts

    The file system, the parser, the highlighter, the renderer and the
    post-processor are collaborators.  A conversion runs in a small monad
    that logs each call of a collaborator and carries what is thrown. *)

Inductive Call :=
| CallStat | CallReadFile | CallParseMarkdown | CallProcessCodeBlocks
| CallMkdir | CallGeneratePdf | CallAddMetadata | CallGetPdfStats.

Inductive Thrown :=
| AnError (message : jsstring)
| NotAnError.

Inductive Outcome (A : Type) :=
| Return (a : A)
| Throw (e : Thrown).
Arguments Return {A} a.
Arguments Throw {A} e.

Definition Run (A : Type) : Type := list Call -> Outcome A * list Call.

Definition ret {A : Type} (a : A) : Run A := fun log => (Return a, log).

Definition throw {A : Type} (e : Thrown) : Run A := fun log => (Throw e, log).

Definition bind {A B : Type} (m : Run A) (k : A -> Run B) : Run B :=
  fun log =>
    match m log with
    | (Return a, log') => k a log'
    | (Throw e, log') => (Throw e, log')
    end.

(** A call of a collaborator with the given outcome. *)
Definition call {A : Type} (c : Call) (r : Outcome A) : Run A :=
  fun log => (r, log ++ [c]).

Definition try_catch {A : Type} (m : Run A) (handler : Thrown -> Run A) : Run A :=
  fun log =>
    match m log with
    | (Return a, log') => (Return a, log')
    | (Throw e, log') => handler e log'
    end.

Notation "x <- m ;; k" := (bind m (fun x => k))
  (at level 61, m at next level, right associativity).

Inductive StatOutcome :=
| IsFile
| NotFile
| NoEntry
| StatFailed (e : Thrown).

Record PdfStats := { pages : Z; size : Z }.

Record ConversionStats := { st_pages : Z; st_size : Z; st_duration : Z }.

Record ConversionResult := {
  success : bool;
  outputPath : jsstring;
  res_error : option jsstring;
  res_stats : option ConversionStats
}.

Definition highlight_own (key : jsstring) : option jsstring :=
  if jsstring_eqb key (lit "github") then Some (lit "github-light")
  else if jsstring_eqb key (lit "github-dark") then Some (lit "github-dark")
  else if jsstring_eqb key (lit "academic") then Some (lit "github-light")
  else if jsstring_eqb key (lit "minimal") then Some (lit "github-light")
  else None.

Definition mapThemeToHighlightTheme (theme : option jsstring) : Lookup jsstring :=
  let key := if truthy theme then str theme else lit "github" in
  match object_get highlight_own key with
  | Some v => v
  | None => Found (lit "github-dark")
  end.

Section Converter.
Variable stat : jsstring -> StatOutcome.
Variable readFile : jsstring -> Outcome jsstring.
Variable parseMarkdown_ : jsstring -> Outcome ParsedMarkdown.
Variable processCodeBlocks : jsstring -> Lookup jsstring -> Outcome jsstring.
Variable generateHtml_ : ParsedMarkdown -> PdfOptions -> jsstring.
Variable mkdir : jsstring -> Outcome unit.
Variable generatePdf : jsstring -> jsstring -> PdfOptions -> option jsstring -> Outcome unit.
Variable addMetadata : jsstring -> FrontMatter -> Outcome unit.
Variable getPdfStats : jsstring -> Outcome PdfStats.
Variables path_dirname path_dir path_name : jsstring -> jsstring.
Variable path_join : jsstring -> jsstring -> jsstring.
(** [Date.now()] at the start and at the end. *)
Variables startTime endTime : Z.

Definition validateInputFile (inputPath : jsstring) : Run unit :=
  fun log =>
    match stat inputPath with
    | IsFile => (Return tt, log ++ [CallStat])
    | NotFile =>
        (Throw (AnError (lit "Input path is not a file: " ++ inputPath)),
         log ++ [CallStat])
    | NoEntry =>
        (Throw (AnError (lit "Input file not found: " ++ inputPath)),
         log ++ [CallStat])
    | StatFailed e => (Throw e, log ++ [CallStat])
    end.

Definition getDefaultOutputPath (inputPath : jsstring) : jsstring :=
  path_join (path_dir inputPath) (path_name inputPath ++ lit ".pdf").

Definition failure (message : option jsstring) : ConversionResult :=
  {| success := false; outputPath := []; res_error := message; res_stats := None |}.

Definition convertMarkdownToPdf (options : PdfOptions) : Run ConversionResult :=
  try_catch
    (_ <- validateInputFile (opt_input options) ;;
     markdownContent <- call CallReadFile (readFile (opt_input options)) ;;
     let validation := validateMarkdown markdownContent in
     if negb (valid validation) then ret (failure (error validation))
     else
       parsed <- call CallParseMarkdown (parseMarkdown_ markdownContent) ;;
       let highlightTheme := mapThemeToHighlightTheme (opt_theme options) in
       highlightedHtml <-
         call CallProcessCodeBlocks (processCodeBlocks (pm_html parsed) highlightTheme) ;;
       let parsed :=
         {| pm_content := pm_content parsed;
            pm_frontMatter := pm_frontMatter parsed;
            pm_toc := pm_toc parsed;
            pm_html := highlightedHtml |} in
       customCss <-
         (if truthy (opt_css options)
          then try_catch (call CallReadFile (readFile (str (opt_css options))))
                         (fun _ => ret [])
          else ret []) ;;
       let html :=
         generateHtml_ parsed
           {| opt_input := opt_input options;
              opt_output := opt_output options;
              opt_theme := opt_theme options;
              opt_toc := opt_toc options;
              opt_css := Some customCss |} in
       let outputPath :=
         if truthy (opt_output options) then str (opt_output options)
         else getDefaultOutputPath (opt_input options) in
       _ <- call CallMkdir (mkdir (path_dirname outputPath)) ;;
       _ <- call CallGeneratePdf
              (generatePdf html outputPath options (fm_title (pm_frontMatter parsed))) ;;
       _ <- call CallAddMetadata (addMetadata outputPath (pm_frontMatter parsed)) ;;
       stats <- call CallGetPdfStats (getPdfStats outputPath) ;;
       ret {| success := true;
              outputPath := outputPath;
              res_error := None;
              res_stats := Some {| st_pages := pages stats;
                                   st_size := size stats;
                                   st_duration := endTime - startTime |} |})
    (fun e =>
       ret (failure (Some match e with
                          | AnError message => message
                          | NotAnError => lit "Unknown error occurred"
                          end))).
End Converter.

(** ** Predicates used in the statements *)

(** The characters an identifier is made of: [a-z0-9_-]. *)
Definition id_char (c : N) : bool :=
  is_lower c || is_digit c || (c =? underscore)%N || is_hyphen c.

(** The narrower alphabet [a-z0-9-]. *)
Definition slug_char (c : N) : bool :=
  is_lower c || is_digit c || is_hyphen c.

(** No two adjacent hyphens. *)
Fixpoint no_double_hyphen (s : jsstring) : bool :=
  match s with
  | a :: (b :: _) as rest => negb (is_hyphen a && is_hyphen b) && no_double_hyphen rest
  | _ => true
  end.

Definition no_edge_hyphen (s : jsstring) : bool :=
  negb (starts_with [hyphen] s) && negb (starts_with [hyphen] (rev s)).

(** An identifier over [a-z0-9-] without leading, trailing or doubled
    hyphens. *)
Definition slug_wellformed (s : jsstring) : bool :=
  forallb slug_char s && no_edge_hyphen s && no_double_hyphen s.

(** The headings of a document, in document order: text, depth, raw. *)
Fixpoint headings (tokens : list Token) : list (jsstring * nat * jsstring) :=
  match tokens with
  | [] => []
  | Heading text depth raw :: rest => (text, depth, raw) :: headings rest
  | Markup _ :: rest => headings rest
  end.

(** Levels 1, 2 and 3. *)
Definition is_toc_level (h : jsstring * nat * jsstring) : bool :=
  let '(_, depth, _) := h in (1 <=? depth)%nat && (depth <=? 3)%nat.

(** The lexer gives depths 1 to 6. *)
Definition depth_in_range (t : Token) : Prop :=
  match t with
  | Heading _ depth _ => (1 <= depth <= 6)%nat
  | Markup _ => True
  end.

(** The entry of a heading. *)
Definition entry_of (toLowerCase : jsstring -> jsstring)
    (h : jsstring * nat * jsstring) : TocItem :=
  let '(_, depth, raw) := h in
  {| toc_id := generateId toLowerCase raw; toc_title := raw; toc_level := depth |}.

(** The markup of one render event. *)
Definition markup_of (originalHeading : jsstring -> nat -> jsstring -> jsstring)
    (t : Token) : jsstring :=
  match t with
  | Heading text depth raw => originalHeading text depth raw
  | Markup html => html
  end.

Definition noFrontMatter : FrontMatter :=
  {| fm_title := None; fm_subtitle := None; fm_author := None; fm_date := None |}.

(** Marked-up output of the section wrapper: a code unit of the body, or
    a tag the wrapper has inserted. *)
Inductive Piece :=
| Unit (c : N)
| Open
| Close.

(** The string the pieces spell. *)
Definition flatten (ps : list Piece) : jsstring :=
  flat_map (fun p => match p with
                     | Unit c => [c]
                     | Open => SECTION_OPEN
                     | Close => SECTION_CLOSE
                     end) ps.

(** What is left when the inserted tags are deleted. *)
Definition erase (ps : list Piece) : jsstring :=
  flat_map (fun p => match p with
                     | Unit c => [c]
                     | Open | Close => []
                     end) ps.

(** Every inserted closing tag closes an inserted opening tag before it,
    and none stays open; [depth] counts the open ones. *)
Fixpoint balanced (depth : nat) (ps : list Piece) : bool :=
  match ps with
  | [] => (depth =? 0)%nat
  | Unit _ :: rest => balanced depth rest
  | Open :: rest => balanced (S depth) rest
  | Close :: rest =>
      match depth with
      | O => false
      | S d => balanced d rest
      end
  end.

(** What [escapeHtml] does to one character. *)
Definition escape_char (c : N) : jsstring :=
  if is_reserved c then escape_map [c] else [c].

(** The text between two steps of [decodeHtml]: the characters of [raw]
    are decoded already, the others are still escaped. *)
Definition escape_except (raw : N -> bool) (c : N) : jsstring :=
  if raw c then [c] else escape_char c.

(** The four entities whose text [decodeHtml] decodes twice when it
    follows a decoded ampersand. *)
Definition entity_free (text : jsstring) : bool :=
  negb (includes (lit "&lt;") text) && negb (includes (lit "&gt;") text)
  && negb (includes (lit "&quot;") text) && negb (includes (lit "&#39;") text).

(** A template literal seen as segments: literal text, and interpolated
    text that has gone through [escapeHtml]. *)
Inductive Segment :=
| Lit (text : jsstring)
| Esc (text : jsstring).

Definition segment_text (g : Segment) : jsstring :=
  match g with
  | Lit text => text
  | Esc text => escapeHtml text
  end.

Definition render_segments (gs : list Segment) : jsstring :=
  flat_map segment_text gs.

(** [p] and [l] differ at a position both have. *)
Fixpoint clash (p l : jsstring) : bool :=
  match p, l with
  | a :: p', b :: l' => negb (a =? b)%N || clash p' l'
  | _, _ => false
  end.

(** No occurrence of [p] can start inside [l], whatever follows [l]. *)
Fixpoint no_start (p l : jsstring) : bool :=
  match l with
  | [] => true
  | _ :: l' => clash p l && no_start p l'
  end.

(** Whether the tag [p] occurs in the segments, decided on the literal
    segments alone; [None] when that is not enough to tell. *)
Fixpoint scan (p : jsstring) (gs : list Segment) : option bool :=
  match gs with
  | [] => match p with [] => None | _ :: _ => Some false end
  | Lit l :: rest =>
      if includes p l then Some true
      else if no_start p l then scan p rest else None
  | Esc _ :: rest =>
      if starts_with [60%N] p then scan p rest else None
  end.

(** The cover page, when it is built, as segments. *)
Definition cover_segments (toLocaleDateString : Z -> jsstring)
    (frontMatter : FrontMatter) : list Segment :=
  [Lit (COVER_OPEN ++ nl :: lit "  ")]
  ++ (if truthy (fm_title frontMatter)
      then [Lit COVER_TITLE_OPEN; Esc (str (fm_title frontMatter)); Lit (lit "</h1>")]
      else [])
  ++ [Lit (nl :: lit "  ")]
  ++ (if truthy (fm_subtitle frontMatter)
      then [Lit COVER_SUBTITLE_OPEN; Esc (str (fm_subtitle frontMatter)); Lit (lit "</p>")]
      else [])
  ++ [Lit (nl :: lit "  ")]
  ++ (if truthy (fm_author frontMatter) || date_truthy (fm_date frontMatter)
      then [Lit COVER_META_OPEN] else [])
  ++ (if truthy (fm_author frontMatter)
      then [Lit AUTHOR_LABEL; Esc (str (fm_author frontMatter)); Lit (lit "</p>")]
      else [])
  ++ (if truthy (fm_author frontMatter) && date_truthy (fm_date frontMatter)
      then [Lit [nl]] else [])
  ++ (if date_truthy (fm_date frontMatter)
      then [Lit DATE_LABEL;
            Esc (date_text toLocaleDateString (fm_date frontMatter));
            Lit (lit "</p>")]
      else [])
  ++ (if truthy (fm_author frontMatter) || date_truthy (fm_date frontMatter)
      then [Lit (lit "</div>")] else [])
  ++ [Lit (nl :: lit "</div>")].

(** Title, author or date is there: the cover page is built. *)
Definition cover_built (frontMatter : FrontMatter) : bool :=
  truthy (fm_title frontMatter) || truthy (fm_author frontMatter)
  || date_truthy (fm_date frontMatter).

(** The block of each field of the cover page. *)
Definition title_block (frontMatter : FrontMatter) : jsstring :=
  COVER_TITLE_OPEN ++ escapeHtml (str (fm_title frontMatter)) ++ lit "</h1>".
Definition subtitle_block (frontMatter : FrontMatter) : jsstring :=
  COVER_SUBTITLE_OPEN ++ escapeHtml (str (fm_subtitle frontMatter)) ++ lit "</p>".
Definition author_block (frontMatter : FrontMatter) : jsstring :=
  AUTHOR_LABEL ++ escapeHtml (str (fm_author frontMatter)) ++ lit "</p>".
Definition date_block (toLocaleDateString : Z -> jsstring)
    (frontMatter : FrontMatter) : jsstring :=
  DATE_LABEL ++ escapeHtml (date_text toLocaleDateString (fm_date frontMatter))
    ++ lit "</p>".

(** * More of the code

    Further functions of the same files, their callees and callers:
    - [getHeaderTemplate] and [getFooterTemplate]       (template.ts);
    - [normalizeLang], [highlightCode] and
      [processCodeBlocks]                               (highlighter.ts);
    - the theme check of [handleMarkdownToPdf]          (cli.ts);
    - [combineMarkdownPages], [validatePdfFile] and
      [listVisionModels]                                (pdf-to-markdown.ts). *)

(** ** template.ts: the header and footer templates

    Both read [options.pageNumbers] only; the footer also takes the
    document title. *)

Definition EMPTY_SPAN : jsstring := Eval cbv in lit "<span></span>".

Definition getHeaderTemplate (pageNumbers : bool) : jsstring :=
  if negb pageNumbers then EMPTY_SPAN
  else
    nl :: lit "    <div style="
      ++ q "font-size: 9px; text-align: right; width: 100%; padding: 10mm 25mm 0 25mm;"
      ++ lit ">" ++ nl
      :: lit "      <span class=" ++ q "pageNumber" ++ lit "></span>" ++ nl
      :: lit "    </div>" ++ nl
      :: lit "  ".

Definition getFooterTemplate (pageNumbers : bool) (title : option jsstring) : jsstring :=
  if negb pageNumbers then EMPTY_SPAN
  else
    let docTitle := if truthy title then str title else [] in
    nl :: lit "    <div style="
      ++ q "font-size: 9px; width: 100%; padding: 0 25mm 10mm 25mm; display: flex; justify-content: space-between; box-sizing: border-box;"
      ++ lit ">" ++ nl
      :: lit "      <span style=" ++ q "flex: 1;" ++ lit ">" ++ escapeHtml docTitle
      ++ lit "</span>" ++ nl
      :: lit "      <span style=" ++ q "margin-left: auto;" ++ lit ">Page <span class="
      ++ q "pageNumber" ++ lit "></span> of <span class=" ++ q "totalPages"
      ++ lit "></span></span>" ++ nl
      :: lit "    </div>" ++ nl
      :: lit "  ".

(** ** Predicates of the further statements *)

(** The angle brackets of a text, in order: the tags it can open or
    close. *)
Definition is_angle (c : N) : bool := (c =? 60)%N || (c =? 62)%N.

Definition markup_skeleton (s : jsstring) : jsstring := filter is_angle s.

(** What follows the ampersand of one of the five entities. *)
Definition entity_tail (s : jsstring) : bool :=
  starts_with (lit "amp;") s || starts_with (lit "lt;") s
  || starts_with (lit "gt;") s || starts_with (lit "quot;") s
  || starts_with (lit "#39;") s.

(** No angle bracket, double quote or apostrophe. *)
Definition markup_free (c : N) : bool :=
  negb ((c =? 60)%N || (c =? 62)%N || (c =? 34)%N || (c =? 39)%N).

(** The angle brackets of the literal segments of a template. *)
Definition segments_skeleton (gs : list Segment) : jsstring :=
  flat_map (fun g => match g with
                     | Lit text => markup_skeleton text
                     | Esc _ => []
                     end) gs.

(** The footer with page numbers, as segments. *)
Definition footer_segments (title : option jsstring) : list Segment :=
  [ Lit (nl :: lit "    <div style="
           ++ q "font-size: 9px; width: 100%; padding: 0 25mm 10mm 25mm; display: flex; justify-content: space-between; box-sizing: border-box;"
           ++ lit ">" ++ nl
           :: lit "      <span style=" ++ q "flex: 1;" ++ lit ">");
    Esc (if truthy title then str title else []);
    Lit (lit "</span>" ++ nl
           :: lit "      <span style=" ++ q "margin-left: auto;"
           ++ lit ">Page <span class=" ++ q "pageNumber"
           ++ lit "></span> of <span class=" ++ q "totalPages"
           ++ lit "></span></span>" ++ nl
           :: lit "    </div>" ++ nl
           :: lit "  ") ].

(** [n] tags, each reduced to its angle brackets. *)
Definition tags (n : nat) : jsstring := concat (repeat (lit "<>") n).

(** ** The theme check of the command line

    [handleMarkdownToPdf] refuses a theme unless
    [availableThemes.includes(pdfOptions.theme || 'github')]. *)
Definition theme_accepted (theme : option jsstring) : bool :=
  existsb (jsstring_eqb (if truthy theme then str theme else lit "github"))
    getAvailableThemes.

(** ** The order of the collaborators in a conversion

    The calls of a conversion that runs to its end: the custom style
    sheet is read only when one is given. *)
Definition call_order (options : PdfOptions) : list Call :=
  [CallStat; CallReadFile; CallParseMarkdown; CallProcessCodeBlocks]
  ++ (if truthy (opt_css options) then [CallReadFile] else [])
  ++ [CallMkdir; CallGeneratePdf; CallAddMetadata; CallGetPdfStats].

(** ** pdf-to-markdown.ts *)

(** *** [combineMarkdownPages] *)

Definition PAGE_SEPARATOR : jsstring := nl :: nl :: lit "---" ++ [nl; nl].

(** The comment put before the page of the given index. *)
Definition pageMarker (index : nat) : jsstring :=
  lit "<!-- Page " ++ decimal (index + 1) ++ lit " -->" ++ [nl; nl].

(** [pages.map((page, index) => pageMarker + page)], from [index] on. *)
Fixpoint mark_pages (index : nat) (pages : list jsstring) : list jsstring :=
  match pages with
  | [] => []
  | page :: rest => (pageMarker index ++ page) :: mark_pages (S index) rest
  end.

Definition combineMarkdownPages (pages : list jsstring) : jsstring :=
  if (length pages =? 0)%nat then []
  else if (length pages =? 1)%nat then nth 0 pages []
  else join PAGE_SEPARATOR (mark_pages 0 pages).

(** *** [validatePdfFile] *)

(** [s.endsWith(suffix)]. *)
Definition endsWith (s suffix : jsstring) : bool :=
  (length suffix <=? length s)%nat
  && jsstring_eqb (skipn (length s - length suffix) s) suffix.

(** What [fs.stat] gives: the status of the path, with [isFile()] and
    [size]; no such path ([ENOENT]); or another failure. *)
Inductive PdfStatOutcome :=
| PdfStat (isFile : bool) (size : Z)
| PdfNoEntry
| PdfStatFailed (e : Thrown).

Definition MAX_PDF_SIZE : Z := 50 * 1024 * 1024.

Section ValidatePdfFile.
Variable toLowerCase : jsstring -> jsstring.
Variable stat : jsstring -> PdfStatOutcome.

Definition validatePdfFile (filePath : jsstring) : Outcome unit :=
  match stat filePath with
  | PdfStat isFile size =>
      if negb isFile then Throw (AnError (lit "Not a file: " ++ filePath))
      else if negb (endsWith (toLowerCase filePath) (lit ".pdf"))
      then Throw (AnError (lit "File must be a PDF"))
      else if (size >? MAX_PDF_SIZE)%Z
      then Throw (AnError (lit "PDF file too large (max 50MB)"))
      else Return tt
  | PdfNoEntry => Throw (AnError (lit "PDF file not found: " ++ filePath))
  | PdfStatFailed e => Throw e
  end.
End ValidatePdfFile.

(** ** highlighter.ts: [normalizeLang] and [highlightCode] *)

(** The own properties of the literal [langMap]. *)
Definition langMap_own (key : jsstring) : option jsstring :=
  if jsstring_eqb key (lit "js") then Some (lit "javascript")
  else if jsstring_eqb key (lit "ts") then Some (lit "typescript")
  else if jsstring_eqb key (lit "py") then Some (lit "python")
  else if jsstring_eqb key (lit "rb") then Some (lit "ruby")
  else if jsstring_eqb key (lit "sh") then Some (lit "bash")
  else if jsstring_eqb key (lit "yml") then Some (lit "yaml")
  else if jsstring_eqb key (lit "md") then Some (lit "markdown")
  else if jsstring_eqb key (lit "rs") then Some (lit "rust")
  else if jsstring_eqb key (lit "cs") then Some (lit "csharp")
  else if jsstring_eqb key (lit "c++") then Some (lit "cpp")
  else if jsstring_eqb key (lit "dockerfile") then Some (lit "dockerfile")
  else None.

(** ** highlighter.ts: [processCodeBlocks] *)

(** [[...html.matchAll(regex)]] with a global expression: the matches
    from left to right, each search resuming behind the match before.
    [exec s] is the match anchored at the start of [s], with what follows
    it; no expression of the program matches the empty string. *)
Section MatchAll.
Variable A : Type.
Variable exec : jsstring -> option (A * jsstring).

Fixpoint match_from (fuel : nat) (s : jsstring) : list A :=
  match fuel with
  | O => []
  | S fuel' =>
      match exec s with
      | Some (m, rest) => m :: match_from fuel' rest
      | None =>
          match s with
          | [] => []
          | _ :: s' => match_from fuel' s'
          end
      end
  end.

Definition matchAll (s : jsstring) : list A := match_from (S (length s)) s.
End MatchAll.

Arguments match_from {A} exec fuel s.
Arguments matchAll {A} exec s : simpl never.

Definition CODE_LANG_OPEN : jsstring :=
  Eval cbv in lit "<pre><code class=" ++ dq :: lit "language-".
Definition CODE_LANG_END : jsstring := Eval cbv in dq :: lit ">".
Definition CODE_OPEN : jsstring := Eval cbv in lit "<pre><code>".
Definition CODE_CLOSE : jsstring := Eval cbv in lit "</code></pre>".

(** [([\s\S]*?)] before a literal: the lazy run ends at the first
    occurrence of the literal.  The result is the run and what follows
    the literal. *)
Fixpoint exec_lazy_any_to (close : jsstring) (s : jsstring) {struct s}
    : option (jsstring * jsstring) :=
  if starts_with close s then Some ([], skipn (length close) s)
  else match s with
       | [] => None
       | c :: s' =>
           match exec_lazy_any_to close s' with
           | Some (m, rest) => Some (c :: m, rest)
           | None => None
           end
       end.

(** The expression for a block with a language: the class name, a
    greedy run of word characters (group 1) that the closing quote must
    follow, the code (group 2) and the closing tags.  A shorter run of
    word characters is followed by a word character, so backtracking finds
    nothing.  The match is [(fullMatch, lang, code)]. *)
Definition exec_code_lang (s : jsstring)
    : option (jsstring * jsstring * jsstring * jsstring) :=
  if starts_with CODE_LANG_OPEN s then
    let r0 := skipn (length CODE_LANG_OPEN) s in
    let lang := take_while is_word r0 in
    let r1 := drop_while is_word r0 in
    if (length lang =? 0)%nat then None
    else if starts_with CODE_LANG_END r1 then
      match exec_lazy_any_to CODE_CLOSE (skipn (length CODE_LANG_END) r1) with
      | Some (code, rest) =>
          Some (CODE_LANG_OPEN ++ lang ++ CODE_LANG_END ++ code ++ CODE_CLOSE,
                lang, code, rest)
      | None => None
      end
    else None
  else None.

(** The expression for a block without a language; the match is
    [(fullMatch, code)]. *)
Definition exec_code_plain (s : jsstring)
    : option (jsstring * jsstring * jsstring) :=
  if starts_with CODE_OPEN s then
    match exec_lazy_any_to CODE_CLOSE (skipn (length CODE_OPEN) s) with
    | Some (code, rest) => Some (CODE_OPEN ++ code ++ CODE_CLOSE, code, rest)
    | None => None
    end
  else None.

(** [String.prototype.replace] with a string pattern and a string
    replacement: the first occurrence is replaced, and in the replacement
    a dollar sign followed by a dollar sign, an ampersand, a backquote or
    an apostrophe stands for a dollar sign, the matched text, the text
    before it and the text behind it.  A pattern that is a string has no
    groups, so a dollar sign before a digit or a [<] stands for itself. *)
Fixpoint expand_replacement (matched before after replacement : jsstring)
    : jsstring :=
  match replacement with
  | [] => []
  | c :: r =>
      if (c =? 36)%N then
        match r with
        | [] => [c]
        | d :: r' =>
            if (d =? 36)%N then 36%N :: expand_replacement matched before after r'
            else if (d =? 38)%N then matched ++ expand_replacement matched before after r'
            else if (d =? 96)%N then before ++ expand_replacement matched before after r'
            else if (d =? 39)%N then after ++ expand_replacement matched before after r'
            else c :: expand_replacement matched before after r
        end
      else c :: expand_replacement matched before after r
  end.

Definition replaceFirst (pattern replacement s : jsstring) : jsstring :=
  let position := indexOf pattern s in
  if (position <? 0)%Z then s
  else
    let before := substring_to position s in
    let after := substring_from (position + Z.of_nat (length pattern)) s in
    before ++ expand_replacement pattern before after replacement ++ after.

(** What both expressions begin with. *)
Definition CODE_START : jsstring := Eval cbv in lit "<pre><code".

(** A match leaves less than it was given. *)
Definition exec_consumes {A : Type} (exec : jsstring -> option (A * jsstring))
    : Prop :=
  forall s a rest, exec s = Some (a, rest) -> (length rest < length s)%nat.

(** No proper suffix of [p] is a prefix of [p]: two occurrences of [p]
    cannot overlap. *)
Definition border_free (p : jsstring) : bool :=
  forallb (fun k => negb (starts_with (skipn k p) p)) (seq 1 (length p - 1)).

Section Highlighter.
Variable toLowerCase : jsstring -> jsstring.
(** [getHighlighterInstance()] and [highlighter.codeToHtml(code, {lang,
    theme})] of Shiki. *)
Variable getHighlighterInstance : Outcome unit.
Variable codeToHtml : jsstring -> Lookup jsstring -> Lookup jsstring -> Outcome jsstring.

(** [langMap[lang.toLowerCase()] || lang.toLowerCase()]: the names of
    the map and the members it inherits are truthy. *)
Definition normalizeLang (lang : jsstring) : Lookup jsstring :=
  match object_get langMap_own (toLowerCase lang) with
  | Some v => v
  | None => Found (toLowerCase lang)
  end.

Definition highlightCode (code lang : jsstring) (theme : Lookup jsstring)
    : Outcome jsstring :=
  match getHighlighterInstance with
  | Throw e => Throw e
  | Return _ =>
      let normalizedLang := normalizeLang lang in
      match codeToHtml code normalizedLang theme with
      | Return highlighted => Return highlighted
      | Throw _ => codeToHtml code (Found (lit "text")) theme
      end
  end.

(** [for (const match of matches)]: each block is highlighted and the
    first occurrence of its text in [result] is replaced. *)
Fixpoint highlight_blocks (theme : Lookup jsstring)
    (matches : list (jsstring * jsstring * jsstring)) (result : jsstring)
    : Outcome jsstring :=
  match matches with
  | [] => Return result
  | (fullMatch, lang, code) :: more =>
      let decodedCode := decodeHtml code in
      match highlightCode decodedCode lang theme with
      | Return highlighted =>
          highlight_blocks theme more (replaceFirst fullMatch highlighted result)
      | Throw e => Throw e
      end
  end.

Definition processCodeBlocks (html : jsstring) (theme : Lookup jsstring)
    : Outcome jsstring :=
  let matches := matchAll exec_code_lang html in
  match highlight_blocks theme matches html with
  | Throw e => Throw e
  | Return result =>
      let plainMatches := matchAll exec_code_plain result in
      highlight_blocks theme
        (map (fun m => (fst m, lit "text", snd m)) plainMatches) result
  end.
End Highlighter.

(** ** pdf-to-markdown.ts: [listVisionModels]

    [ollama.list()] is a collaborator: it returns the models of the
    service or throws. *)
Record ModelInfo := { model_name : jsstring }.

Definition listVisionModels (response : Outcome (list ModelInfo)) : list jsstring :=
  match response with
  | Return models =>
      let visionModels :=
        map model_name
          (filter (fun m => includes (lit "llava") (model_name m)
                            || includes (lit "vision") (model_name m)
                            || includes (lit "bakllava") (model_name m))
                  models) in
      visionModels
  | Throw _ => []
  end.

(** ** The statements of the cover page and of the escaping *)

(** A block that is put out only when its field is there. *)
Definition block_if (there : bool) (block : jsstring) : jsstring :=
  if there then block else [].

(** The cover block as the specification describes it: the container,
    and in it one block for each field that is present and nothing for a
    field that is absent; author and date share the container of the
    meta data, each on a line of its own. *)
Definition cover_layout (toLocaleDateString : Z -> jsstring)
    (frontMatter : FrontMatter) : jsstring :=
  let author := truthy (fm_author frontMatter) in
  let date := date_truthy (fm_date frontMatter) in
  COVER_OPEN ++ nl :: lit "  "
    ++ block_if (truthy (fm_title frontMatter)) (title_block frontMatter)
    ++ nl :: lit "  "
    ++ block_if (truthy (fm_subtitle frontMatter)) (subtitle_block frontMatter)
    ++ nl :: lit "  "
    ++ block_if (author || date)
         (COVER_META_OPEN
            ++ block_if author (author_block frontMatter)
            ++ block_if (author && date) [nl]
            ++ block_if date (date_block toLocaleDateString frontMatter)
            ++ lit "</div>")
    ++ nl :: lit "</div>".

(** The assembled document around the cover block: the head up to the
    title, the title of the document, the styles up to the opening of the
    body, and what follows the cover block. *)
Definition DOCUMENT_OPEN : jsstring :=
  lit "<!DOCTYPE html>" ++ nl
    :: lit "<html lang=" ++ q "en" ++ lit ">" ++ nl
    :: lit "<head>" ++ nl
    :: lit "  <meta charset=" ++ q "UTF-8" ++ lit ">" ++ nl
    :: lit "  <meta name=" ++ q "viewport" ++ lit " content="
         ++ q "width=device-width, initial-scale=1.0" ++ lit ">" ++ nl
    :: lit "  <title>".

Definition document_title (frontMatter : FrontMatter) : jsstring :=
  if truthy (fm_title frontMatter) then str (fm_title frontMatter)
  else lit "Document".

Definition document_styles (themeCss : jsstring) (css : option jsstring)
    : jsstring :=
  lit "</title>" ++ nl
    :: lit "  <style>" ++ nl
    :: lit "    " ++ themeCss ++ nl
    :: lit "    " ++ getAdditionalStyles ++ nl
    :: lit "    " ++ (if truthy css
                      then lit "/* Custom CSS */" ++ nl :: str css
                      else []) ++ nl
    :: lit "  </style>" ++ nl
    :: lit "</head>" ++ nl
    :: lit "<body>" ++ nl
    :: lit "  ".

Definition document_content (wrappedContent : jsstring) : jsstring :=
  nl :: lit "  <div class=" ++ q "content" ++ lit ">" ++ nl
    :: lit "    " ++ wrappedContent ++ nl
    :: lit "  </div>" ++ nl
    :: lit "</body>" ++ nl
    :: lit "</html>".

Definition document_body (tocHtml wrappedContent : jsstring) : jsstring :=
  nl :: lit "  " ++ tocHtml ++ document_content wrappedContent.

(** The entry of the table of contents as segments: the title is the
    one text that goes through [escapeHtml]; the level and the identifier
    are put out as they are. *)
Definition toc_entry_segments (item : TocItem) : list Segment :=
  [ Lit (lit "<li class=" ++ dq :: lit "toc-item toc-level-"
           ++ decimal (toc_level item) ++ dq :: lit ">" ++ nl
           :: lit "  <a href=" ++ dq :: lit "#" ++ toc_id item ++ dq :: lit ">");
    Esc (toc_title item);
    Lit (lit "</a>" ++ nl
           :: lit "  <span class=" ++ q "toc-item-page" ++ lit "></span>" ++ nl
           :: lit "</li>") ].

Fixpoint toc_entries_segments (toc : list TocItem) : list Segment :=
  match toc with
  | [] => []
  | [item] => toc_entry_segments item
  | item :: rest => toc_entry_segments item ++ Lit [nl] :: toc_entries_segments rest
  end.

Definition toc_segments (toc : list TocItem) : list Segment :=
  match toc with
  | [] => []
  | _ :: _ =>
      Lit (lit "<div class=" ++ q "toc" ++ lit ">" ++ nl
             :: lit "  <h1 class=" ++ q "toc-title"
             ++ lit ">Table of Contents</h1>" ++ nl
             :: lit "  <ul class=" ++ q "toc-list" ++ lit ">" ++ nl
             :: lit "    ")
        :: toc_entries_segments toc
        ++ [Lit (nl :: lit "  </ul>" ++ nl :: lit "</div>")]
  end.

(** The assembled document as segments.  The texts that come from the
    front matter and from the headings (the title of the document, the
    fields of the cover page, the titles of the table of contents) are the
    [Esc] segments; the style sheets and the body are put out as they
    are. *)
Definition document_segments (toLocaleDateString : Z -> jsstring)
    (themeCss : jsstring) (parsed : ParsedMarkdown) (options : PdfOptions)
    : list Segment :=
  let frontMatter := pm_frontMatter parsed in
  [ Lit DOCUMENT_OPEN;
    Esc (document_title frontMatter);
    Lit (document_styles themeCss (opt_css options)) ]
  ++ (if cover_built frontMatter
      then cover_segments toLocaleDateString frontMatter else [])
  ++ [ Lit (nl :: lit "  ") ]
  ++ (if opt_toc options then toc_segments (pm_toc parsed) else [])
  ++ [ Lit (document_content (wrapContentSections (pm_html parsed))) ].

(** Un-escaping, the inverse the specification speaks of: one pass from
    left to right in which each of the five entities is read as its
    character, as a browser reads them. *)
Definition exec_entity (s : jsstring) : option (jsstring * jsstring) :=
  if starts_with (lit "&amp;") s then Some (lit "&amp;", skipn 5 s)
  else if starts_with (lit "&lt;") s then Some (lit "&lt;", skipn 4 s)
  else if starts_with (lit "&gt;") s then Some (lit "&gt;", skipn 4 s)
  else if starts_with (lit "&quot;") s then Some (lit "&quot;", skipn 6 s)
  else if starts_with (lit "&#39;") s then Some (lit "&#39;", skipn 5 s)
  else None.

Definition entity_char (entity : jsstring) : jsstring :=
  if jsstring_eqb entity (lit "&amp;") then [38%N]
  else if jsstring_eqb entity (lit "&lt;") then [60%N]
  else if jsstring_eqb entity (lit "&gt;") then [62%N]
  else if jsstring_eqb entity (lit "&quot;") then [34%N]
  else [39%N].

Definition unescapeHtml (text : jsstring) : jsstring :=
  replaceAll exec_entity entity_char text.

(** The size in bytes of the UTF-8 file that holds a text: one byte for
    a code unit below 128, two below 2048, three for the others, and four
    for a surrogate pair, two for each of its halves. *)
Definition utf8_bytes (c : N) : Z :=
  if (c <? 128)%N then 1
  else if (c <? 2048)%N then 2
  else if (55296 <=? c)%N && (c <=? 57343)%N then 2
  else 3.

Definition utf8_size (text : jsstring) : Z :=
  fold_right (fun c size => (utf8_bytes c + size)%Z) 0%Z text.

(** * Theorems *)

(** ** The replace engine *)

Lemma replace_from_fuel exec subst :
  exec_sound exec ->
  forall fuel s, (length s < fuel)%nat ->
    replace_from exec subst fuel s = replace_from exec subst (S (length s)) s.
Proof.
  intros Hs fuel.
  induction fuel as [fuel IH] using lt_wf_ind.
  intros s Hlen.
  destruct fuel as [|f]; [lia|].
  cbn [replace_from].
  destruct (exec s) as [[m rest]|] eqn:E.
  - destruct (Hs _ _ _ E) as [-> Hm].
    assert (length rest < length (m ++ rest))%nat.
    { rewrite length_app. destruct m; [congruence | cbn; lia]. }
    f_equal.
    rewrite (IH f) by lia.
    destruct (Nat.eq_dec (length (m ++ rest)) (S (length rest))) as [->|Hne];
      [reflexivity|].
    symmetry. apply IH; lia.
  - destruct s as [|c s']; [reflexivity|].
    cbn [length] in *. f_equal.
    apply IH; lia.
Qed.

(** The equation of a global replace. *)
Lemma replaceAll_eq exec subst :
  exec_sound exec ->
  forall s,
    replaceAll exec subst s =
    match exec s with
    | Some (m, rest) => subst m ++ replaceAll exec subst rest
    | None =>
        match s with
        | [] => []
        | c :: s' => c :: replaceAll exec subst s'
        end
    end.
Proof.
  intros Hs s. unfold replaceAll at 1. cbn [replace_from].
  destruct (exec s) as [[m rest]|] eqn:E.
  - destruct (Hs _ _ _ E) as [-> Hm].
    f_equal. apply replace_from_fuel; [assumption|].
    rewrite length_app. destruct m; [congruence | cbn; lia].
  - destruct s; reflexivity.
Qed.

Lemma take_drop_while p s : take_while p s ++ drop_while p s = s.
Proof.
  induction s as [|c s IH]; cbn; [reflexivity|].
  destruct (p c); cbn; [now rewrite IH | reflexivity].
Qed.

Lemma exec_class_sound p : exec_sound (exec_class p).
Proof.
  intros [|c s] m rest; cbn; [discriminate|].
  destruct (p c); [|discriminate].
  intros [= <- <-]. split; [reflexivity | discriminate].
Qed.

Lemma exec_plus_sound p : exec_sound (exec_plus p).
Proof.
  intros [|c s] m rest; cbn; [discriminate|].
  destruct (p c); [|discriminate].
  intros [= <- <-]. split; [|discriminate].
  cbn. now rewrite take_drop_while.
Qed.

Lemma starts_with_app p s : starts_with p s = true -> s = p ++ skipn (length p) s.
Proof.
  revert s; induction p as [|a p IH]; intros s H; [reflexivity|].
  destruct s as [|b s]; [discriminate|].
  cbn in H. apply andb_true_iff in H as [Hab H].
  apply N.eqb_eq in Hab as ->. cbn. f_equal. now apply IH.
Qed.

Lemma starts_with_prefix p s : starts_with p (p ++ s) = true.
Proof.
  induction p as [|a p IH]; [reflexivity|].
  cbn. now rewrite N.eqb_refl.
Qed.

Lemma exec_lit_sound p : p <> [] -> exec_sound (exec_lit p).
Proof.
  intros Hp s m rest. unfold exec_lit.
  destruct (starts_with p s) eqn:E; [|discriminate].
  intros [= <- <-]. split; [now apply starts_with_app | assumption].
Qed.

#[local] Hint Resolve exec_class_sound exec_plus_sound : core.

(** Replacing each character of a class by nothing is a filter. *)
Lemma replaceAll_class_delete p s :
  replaceAll (exec_class p) (fun _ => []) s = filter (fun c => negb (p c)) s.
Proof.
  induction s as [|c s IH].
  - reflexivity.
  - rewrite replaceAll_eq by auto. cbn [exec_class filter].
    destruct (p c); cbn [negb app]; now rewrite IH.
Qed.

(** Induction along the steps of a global replace. *)
Lemma replaceAll_ind exec subst (P : jsstring -> jsstring -> Prop) :
  exec_sound exec ->
  (forall s m rest out,
      exec s = Some (m, rest) -> P rest out -> P s (subst m ++ out)) ->
  (exec [] = None -> P [] []) ->
  (forall c s out, exec (c :: s) = None -> P s out -> P (c :: s) (c :: out)) ->
  forall s, P s (replaceAll exec subst s).
Proof.
  intros Hs Hmatch Hnil Hstep s.
  remember (length s) as n eqn:Hn. revert s Hn.
  induction n as [n IH] using lt_wf_ind. intros s ->.
  rewrite replaceAll_eq by assumption.
  destruct (exec s) as [[m rest]|] eqn:E.
  - eapply Hmatch; [exact E|].
    destruct (Hs _ _ _ E) as [-> Hm].
    apply (IH (length rest)); [|reflexivity].
    rewrite length_app. destruct m; [congruence | cbn; lia].
  - destruct s as [|c s']; [now apply Hnil|].
    apply Hstep; [assumption|].
    apply (IH (length s')); [cbn; lia | reflexivity].
Qed.

(** ** Searching in a string *)

Lemma jsstring_eqb_eq a b : jsstring_eqb a b = true <-> a = b.
Proof.
  unfold jsstring_eqb. destruct (list_eq_dec N.eq_dec a b); split;
    congruence.
Qed.

Lemma starts_with_cons a p b s :
  starts_with (a :: p) (b :: s) = (a =? b)%N && starts_with p s.
Proof. reflexivity. Qed.

Lemma starts_with_app_l p l s :
  starts_with p l = true -> starts_with p (l ++ s) = true.
Proof.
  revert l. induction p as [|a p IH]; intros l H; [reflexivity|].
  destruct l as [|b l]; [discriminate|].
  cbn in H |- *. apply andb_true_iff in H as [-> H]. now apply IH.
Qed.

Lemma indexOf_lower p s : (-1 <= indexOf p s)%Z.
Proof.
  induction s as [|c s IH]; cbn [indexOf].
  - destruct (starts_with p []); lia.
  - destruct (starts_with p (c :: s)); [lia|].
    cbn zeta. destruct (indexOf p s <? 0)%Z eqn:E; [lia|].
    apply Z.ltb_ge in E. lia.
Qed.

Lemma indexOf_none_cons p c s :
  indexOf p (c :: s) = (-1)%Z ->
  starts_with p (c :: s) = false /\ indexOf p s = (-1)%Z.
Proof.
  cbn [indexOf]. destruct (starts_with p (c :: s)); [discriminate|].
  cbn zeta. pose proof (indexOf_lower p s).
  destruct (indexOf p s <? 0)%Z eqn:E.
  - apply Z.ltb_lt in E. intros _. split; [reflexivity | lia].
  - apply Z.ltb_ge in E. lia.
Qed.

(** The position [indexOf] finds is one where the pattern starts. *)
Lemma indexOf_found p s :
  (0 <= indexOf p s)%Z ->
  starts_with p (substring_from (indexOf p s) s) = true.
Proof.
  unfold substring_from.
  induction s as [|c s IH]; cbn [indexOf].
  - destruct (starts_with p []) eqn:E; [intros _; exact E | lia].
  - destruct (starts_with p (c :: s)) eqn:E; [intros _; exact E|].
    cbn zeta. destruct (indexOf p s <? 0)%Z eqn:E'; [lia|].
    apply Z.ltb_ge in E'. intros _.
    replace (Z.to_nat (indexOf p s + 1)) with (S (Z.to_nat (indexOf p s))) by lia.
    cbn [skipn]. now apply IH.
Qed.

Lemma includes_cons p c s :
  includes p (c :: s) = starts_with p (c :: s) || includes p s.
Proof.
  unfold includes. cbn [indexOf].
  destruct (starts_with p (c :: s)); [reflexivity|].
  cbn zeta. cbn [orb]. pose proof (indexOf_lower p s).
  destruct (indexOf p s <? 0)%Z eqn:E.
  - apply Z.ltb_lt in E. symmetry. apply Z.leb_gt. lia.
  - apply Z.ltb_ge in E.
    transitivity true; [|symmetry]; apply Z.leb_le; lia.
Qed.

Lemma includes_nil p : includes p [] = starts_with p [].
Proof. unfold includes. cbn. now destruct (starts_with p []). Qed.

Lemma includes_prefix p s : includes p (p ++ s) = true.
Proof.
  destruct p as [|a p]; [unfold includes; now destruct s|].
  cbn [app]. rewrite includes_cons.
  change (a :: p ++ s) with ((a :: p) ++ s). now rewrite starts_with_prefix.
Qed.

Lemma includes_app_r p a s : includes p s = true -> includes p (a ++ s) = true.
Proof.
  intros H. induction a as [|c a IH]; [exact H|].
  cbn [app]. rewrite includes_cons, IH. apply orb_true_r.
Qed.

Lemma includes_app_l p l s : includes p l = true -> includes p (l ++ s) = true.
Proof.
  induction l as [|c l IH]; intros H.
  - rewrite includes_nil in H. destruct p; [|discriminate].
    unfold includes. now destruct s.
  - rewrite includes_cons in H. cbn [app]. rewrite includes_cons.
    apply orb_true_iff in H as [H|H].
    + change (c :: l ++ s) with ((c :: l) ++ s).
      now rewrite (starts_with_app_l _ _ _ H).
    + rewrite (IH H). apply orb_true_r.
Qed.

Lemma includes_inv p s : includes p s = true -> exists a b, s = a ++ p ++ b.
Proof.
  induction s as [|c s IH]; intros H.
  - rewrite includes_nil in H. destruct p; [|discriminate]. now exists [], [].
  - rewrite includes_cons in H. apply orb_true_iff in H as [H|H].
    + exists [], (skipn (length p) (c :: s)). now apply starts_with_app.
    + destruct (IH H) as (a & b & ->). now exists (c :: a), b.
Qed.

Lemma includes_mid p a b : includes p (a ++ p ++ b) = true.
Proof. apply includes_app_r, includes_prefix. Qed.

(** A text that is not there is the start of nothing that is. *)
Lemma includes_longer p q s : includes p s = false -> includes (p ++ q) s = false.
Proof.
  intros H. apply not_true_is_false. intros Hpq.
  apply includes_inv in Hpq as (a & b & ->).
  rewrite <- app_assoc, includes_mid in H. discriminate.
Qed.

(** ** [generateId] *)

Section Collapse.
Variable p : N -> bool.
Variable h : N.

Let collapse := replaceAll (exec_plus p) (fun _ => [h]).

Lemma drop_while_hd s c rest : drop_while p s = c :: rest -> p c = false.
Proof.
  induction s as [|d s IH]; cbn; [discriminate|].
  destruct (p d) eqn:E; [assumption|].
  now intros [= -> _].
Qed.

(** What a run-collapsing replace leaves: the replacement character and
    the characters outside the class. *)
Lemma collapse_chars s c :
  In c (collapse s) -> c = h \/ (In c s /\ p c = false).
Proof.
  revert c. unfold collapse.
  apply replaceAll_ind with (P := fun s out =>
    forall c, In c out -> c = h \/ (In c s /\ p c = false)); auto.
  - intros s0 m rest out E IH c Hin. cbn in Hin.
    destruct Hin as [->|Hin]; [now left|].
    destruct (IH c Hin) as [->|[Hc Hp]]; [now left|right].
    split; [|assumption].
    destruct (exec_plus_sound p _ _ _ E) as [-> _].
    apply in_or_app. now right.
  - intros _ c [].
  - intros d s0 out E IH c [<-|Hin].
    + right. split; [now left|].
      cbn in E. now destruct (p d).
    + destruct (IH c Hin) as [->|[Hc Hp]]; [now left|right].
      split; [now right | assumption].
Qed.

(** The first character of the result. *)
Lemma collapse_head s :
  hd_error (collapse s) =
  match s with
  | [] => None
  | c :: _ => Some (if p c then h else c)
  end.
Proof.
  unfold collapse. rewrite replaceAll_eq by auto.
  destruct s as [|c s]; [reflexivity|].
  cbn [exec_plus]. destruct (p c); reflexivity.
Qed.
End Collapse.

Lemma no_double_hyphen_cons a s :
  no_double_hyphen (a :: s) =
  negb (is_hyphen a && match hd_error s with Some b => is_hyphen b | None => false end)
  && no_double_hyphen s.
Proof.
  destruct s as [|b s]; cbn [no_double_hyphen hd_error].
  - now rewrite andb_false_r.
  - reflexivity.
Qed.

Lemma drop_while_length p s : (length (drop_while p s) <= length s)%nat.
Proof.
  induction s as [|c s IH]; cbn; [lia|].
  destruct (p c); cbn; lia.
Qed.

(** Collapsing the runs of hyphens leaves no two of them adjacent. *)
Lemma collapse_hyphens_no_double s :
  no_double_hyphen (replaceAll (exec_plus is_hyphen) (fun _ => [hyphen]) s) = true.
Proof.
  remember (length s) as n eqn:Hn. revert s Hn.
  induction n as [n IH] using lt_wf_ind. intros s ->.
  rewrite replaceAll_eq by auto.
  destruct s as [|c s']; [reflexivity|].
  cbn [exec_plus]. destruct (is_hyphen c) eqn:Hc.
  - cbn [app]. rewrite no_double_hyphen_cons, collapse_head.
    pose proof (drop_while_length is_hyphen s') as Hlen.
    rewrite (IH (length (drop_while is_hyphen s'))) by (cbn; lia || reflexivity).
    destruct (drop_while is_hyphen s') as [|d rest] eqn:Hd.
    + now rewrite andb_false_r.
    + apply drop_while_hd in Hd. rewrite Hd, Hd. now rewrite andb_false_r.
  - rewrite no_double_hyphen_cons, Hc.
    rewrite (IH (length s')) by (cbn; lia || reflexivity).
    reflexivity.
Qed.

Ltac bool_prop H :=
  rewrite ?orb_true_iff, ?andb_true_iff, ?negb_true_iff, ?orb_false_iff,
    ?andb_false_iff, ?N.eqb_eq, ?N.eqb_neq, ?N.leb_le, ?N.leb_gt in H.

Lemma id_char_not_space c : id_char c = true -> is_space c = false.
Proof.
  intros H. apply not_true_is_false. intros Hs.
  unfold id_char, is_lower, is_digit, is_hyphen, underscore, hyphen in H.
  unfold is_space, is_line_terminator in Hs.
  bool_prop H. bool_prop Hs. lia.
Qed.

Lemma word_lower_id_char c :
  is_upper c = false ->
  is_word c || is_space c || is_hyphen c = true ->
  id_char c = true \/ is_space c = true.
Proof.
  intros Hu H. unfold is_word in H. rewrite Hu in H. cbn [orb] in H.
  unfold id_char.
  destruct (is_space c); [now right|left].
  rewrite orb_false_r in H. exact H.
Qed.

Lemma drop_while_none p s :
  Forall (fun c => p c = false) s -> drop_while p s = s.
Proof.
  intros H. destruct H as [|c s Hc _]; [reflexivity|].
  cbn. now rewrite Hc.
Qed.

(** Where nothing is white space, [trim] changes nothing. *)
Lemma trim_no_space s :
  Forall (fun c => is_space c = false) s -> trim s = s.
Proof.
  intros H. unfold trim.
  rewrite (drop_while_none _ _ H).
  rewrite drop_while_none by (apply Forall_rev; exact H).
  apply rev_involutive.
Qed.

Lemma drop_while_snoc p s c :
  p c = false -> drop_while p (s ++ [c]) = drop_while p s ++ [c].
Proof.
  intros Hc. induction s as [|d s IH]; cbn; [now rewrite Hc|].
  destruct (p d); [exact IH | reflexivity].
Qed.

(** Text that ends in something other than white space is not blank. *)
Lemma trim_snoc s c : is_space c = false -> trim (s ++ [c]) <> [].
Proof.
  intros Hc. unfold trim.
  rewrite drop_while_snoc by exact Hc.
  rewrite rev_app_distr. cbn [rev app drop_while]. rewrite Hc.
  cbn [rev]. intros H. apply app_eq_nil in H as [_ H]. discriminate.
Qed.

Lemma asciiLower_no_upper s c : In c (asciiLower s) -> is_upper c = false.
Proof.
  unfold asciiLower. rewrite in_map_iff. intros (d & <- & _).
  destruct (is_upper d) eqn:E; [|exact E].
  apply not_true_is_false. intros H.
  unfold is_upper in *. bool_prop E. bool_prop H. lia.
Qed.

Section GenerateIdFacts.
Variable toLowerCase : jsstring -> jsstring.
Hypothesis lower_no_upper :
  forall s c, In c (toLowerCase s) -> is_upper c = false.

Let stripped text :=
  replaceAll (exec_class not_word_space_hyphen) (fun _ => []) (toLowerCase text).
Let spaced text :=
  replaceAll (exec_plus is_space) (fun _ => [hyphen]) (stripped text).
Let collapsed text :=
  replaceAll (exec_plus is_hyphen) (fun _ => [hyphen]) (spaced text).

Lemma stripped_chars text c :
  In c (stripped text) -> id_char c = true \/ is_space c = true.
Proof.
  unfold stripped. rewrite replaceAll_class_delete, filter_In.
  intros [Hin Hc]. apply word_lower_id_char.
  - eapply lower_no_upper; eassumption.
  - unfold not_word_space_hyphen in Hc. now rewrite negb_involutive in Hc.
Qed.

Lemma spaced_chars text c : In c (spaced text) -> id_char c = true.
Proof.
  intros H. apply collapse_chars in H as [->|[Hin Hs]]; [reflexivity|].
  apply stripped_chars in Hin as [Hid|Hsp]; [assumption|congruence].
Qed.

Lemma collapsed_chars text c : In c (collapsed text) -> id_char c = true.
Proof.
  intros H. apply collapse_chars in H as [->|[Hin _]]; [reflexivity|].
  now apply spaced_chars in Hin.
Qed.

(** The final [trim] finds no white space to remove. *)
Lemma generateId_collapsed text :
  generateId toLowerCase text = collapsed text.
Proof.
  unfold generateId. fold (stripped text). fold (spaced text).
  fold (collapsed text).
  apply trim_no_space, Forall_forall.
  intros c Hc. now apply id_char_not_space, (collapsed_chars text).
Qed.

(** An identifier holds none of the reserved markup characters, so the
    link target that [generateToc] builds from it without escaping is
    harmless. *)
Lemma generateId_not_reserved text c :
  In c (generateId toLowerCase text) -> is_reserved c = false.
Proof.
  rewrite generateId_collapsed. intros H. apply collapsed_chars in H.
  apply not_true_is_false. intros Hr. unfold is_reserved in Hr.
  unfold id_char, is_lower, is_digit, is_hyphen, underscore, hyphen in H.
  bool_prop H. bool_prop Hr. lia.
Qed.

(** C1, as the code has it: for every heading text the identifier is
    made of the characters [a-z0-9_-] only (so it is lower-case; the
    underscore of [\w] is kept) and has no doubled hyphen. *)
Theorem generateId_alphabet text :
  forallb id_char (generateId toLowerCase text) = true
  /\ no_double_hyphen (generateId toLowerCase text) = true.
Proof.
  rewrite generateId_collapsed. split.
  - apply forallb_forall. intros c Hc. now apply (collapsed_chars text).
  - apply collapse_hyphens_no_double.
Qed.
End GenerateIdFacts.

Lemma generateId_alphabet_witness :
  (forall s c, In c (asciiLower s) -> is_upper c = false)
  /\ forallb id_char (generateId asciiLower (lit "Hello, World!")) = true
  /\ no_double_hyphen (generateId asciiLower (lit "Hello, World!")) = true.
Proof.
  split; [exact asciiLower_no_upper|].
  exact (generateId_alphabet asciiLower asciiLower_no_upper (lit "Hello, World!")).
Defined.

(** C1 as stated fails: the underscore of a heading text stays in the
    identifier, which then leaves the alphabet [a-z0-9-]. *)
Lemma generateId_keeps_underscore :
  generateId asciiLower (lit "my_heading") = lit "my_heading"
  /\ slug_wellformed (generateId asciiLower (lit "my_heading")) = false.
Proof. split; reflexivity. Qed.

(** The hyphens that replace leading and trailing white space stay: when
    [trim] runs no white space is left. *)
Example generateId_edge_hyphens :
  generateId asciiLower (lit " Getting Started ") = lit "-getting-started-".
Proof. reflexivity. Qed.

Example generateId_hello :
  generateId asciiLower (lit "Hello, World!") = lit "hello-world".
Proof. reflexivity. Qed.

Example generateId_empty : generateId asciiLower [] = [].
Proof. reflexivity. Qed.

(** ** [parseMarkdown] *)

Section ParseMarkdownFacts.
Variable toLowerCase : jsstring -> jsstring.
Variable matter : jsstring -> FrontMatter * jsstring.
Variable lexer : jsstring -> list Token.
Variable originalHeading : jsstring -> nat -> jsstring -> jsstring.

Lemma render_spec tokens toc :
  render toLowerCase originalHeading tokens toc =
  (concat (map (markup_of originalHeading) tokens),
   toc ++ map (entry_of toLowerCase)
            (filter (fun '(_, depth, _) => (depth <=? 3)%nat) (headings tokens))).
Proof.
  revert toc. induction tokens as [|t tokens IH]; intros toc.
  - cbn. now rewrite app_nil_r.
  - destruct t as [text depth raw|html]; cbn [render].
    + unfold heading. rewrite IH. cbn [headings filter map concat markup_of].
      destruct (depth <=? 3)%nat; cbn [map entry_of].
      * now rewrite <- app_assoc.
      * reflexivity.
    + rewrite IH. reflexivity.
Qed.

Lemma toc_levels_in_range tokens :
  Forall depth_in_range tokens ->
  filter (fun '(_, depth, _) => (depth <=? 3)%nat) (headings tokens)
  = filter is_toc_level (headings tokens).
Proof.
  induction 1 as [|t tokens Ht _ IH]; [reflexivity|].
  destruct t as [text depth raw|html]; cbn [headings filter]; [|assumption].
  cbn in Ht. unfold is_toc_level.
  replace (1 <=? depth)%nat with true by (symmetry; apply Nat.leb_le; lia).
  cbn [andb]. now rewrite IH.
Qed.

Lemma render_markup (otherLower : jsstring -> jsstring) tokens toc :
  fst (render otherLower originalHeading tokens toc)
  = concat (map (markup_of originalHeading) tokens).
Proof.
  revert toc. induction tokens as [|t tokens IH]; intros toc; [reflexivity|].
  destruct t as [text depth raw|html]; cbn [render].
  - unfold heading. specialize (IH (if (depth <=? 3)%nat
        then toc ++ [ {| toc_id := generateId otherLower raw; toc_title := raw;
                         toc_level := depth |} ] else toc)).
    destruct (render otherLower originalHeading tokens _) as [out toc2].
    cbn in *. now rewrite IH.
  - specialize (IH toc).
    destruct (render otherLower originalHeading tokens toc) as [out toc1].
    cbn in *. now rewrite IH.
Qed.

(** The body does not depend on how identifiers are generated: the
    identifier the renderer computes goes to the table of contents only. *)
Lemma parseMarkdown_markup_ignores_ids (otherLower : jsstring -> jsstring) content :
  pm_html (parseMarkdown toLowerCase matter lexer originalHeading content)
  = pm_html (parseMarkdown otherLower matter lexer originalHeading content).
Proof.
  unfold parseMarkdown. destruct (matter content) as [fm md].
  rewrite (render_spec (lexer md) []).
  destruct (render otherLower originalHeading (lexer md) []) as [html toc] eqn:E.
  cbn [pm_html]. pose proof (render_markup otherLower (lexer md) []) as H.
  rewrite E in H. exact (eq_sym H).
Qed.

(** C7: the table of contents has one entry per heading of level 1, 2
    or 3, in document order, so as many entries as there are such
    headings; a heading of level 4 or deeper adds no entry, and the
    heading renderer's markup of every heading, of whatever level, is in
    the body. *)
Theorem parseMarkdown_toc content :
  let tokens := lexer (snd (matter content)) in
  let parsed := parseMarkdown toLowerCase matter lexer originalHeading content in
  Forall depth_in_range tokens ->
  pm_toc parsed = map (entry_of toLowerCase) (filter is_toc_level (headings tokens))
  /\ length (pm_toc parsed) = length (filter is_toc_level (headings tokens))
  /\ pm_html parsed = concat (map (markup_of originalHeading) tokens).
Proof.
  intros tokens parsed Hrange. subst parsed tokens.
  unfold parseMarkdown. destruct (matter content) as [fm md]. cbn [snd] in *.
  rewrite render_spec. cbn [pm_toc pm_html app].
  rewrite (toc_levels_in_range _ Hrange).
  repeat split. now rewrite length_map.
Qed.
End ParseMarkdownFacts.

(** The scenario [# Title / ## A / text1 / ## B / text2], with a heading
    of level 4 added. *)
Lemma parseMarkdown_toc_witness :
  let matter := fun c : jsstring => (noFrontMatter, c) in
  let tokens :=
    [ Heading (lit "Title") 1 (lit "Title");
      Heading (lit "A") 2 (lit "A"); Markup (lit "<p>text1</p>");
      Heading (lit "B") 2 (lit "B"); Markup (lit "<p>text2</p>");
      Heading (lit "Deep") 4 (lit "Deep") ] in
  let parsed := parseMarkdown asciiLower matter (fun _ => tokens) stockHeading [] in
  Forall depth_in_range tokens
  /\ pm_toc parsed = map (entry_of asciiLower) (filter is_toc_level (headings tokens))
  /\ length (pm_toc parsed) = 3%nat
  /\ map toc_level (pm_toc parsed) = [1; 2; 2]%nat.
Proof.
  intros matter tokens parsed.
  assert (Hrange : Forall depth_in_range tokens)
    by (repeat constructor; cbn; lia).
  destruct (parseMarkdown_toc asciiLower matter (fun _ => tokens) stockHeading []
              Hrange) as (Htoc & Hlen & _).
  split; [exact Hrange|].
  split; [exact Htoc|].
  split; reflexivity.
Defined.

(** C2: the renderer computes the identifier of a heading for the table
    of contents and then returns the stock renderer's markup, into which
    the identifier is never passed: whatever the stock renderer is, the
    body is the same for any two ways of generating identifiers.  Two
    headings named alike: the entries both point at [#notes], and with
    marked's stock renderer the body carries no anchor at all. *)
Theorem heading_markup_lacks_toc_id :
  (forall (lower1 lower2 : jsstring -> jsstring) matter lexer originalHeading content,
      pm_html (parseMarkdown lower1 matter lexer originalHeading content)
      = pm_html (parseMarkdown lower2 matter lexer originalHeading content))
  /\ let tokens :=
       [ Heading (lit "Notes") 2 (lit "Notes"); Heading (lit "Notes") 2 (lit "Notes") ] in
     let parsed :=
       parseMarkdown asciiLower (fun c => (noFrontMatter, c)) (fun _ => tokens)
         stockHeading [] in
     map toc_id (pm_toc parsed) = [lit "notes"; lit "notes"]
     /\ pm_html parsed = lit "<h2>Notes</h2>" ++ nl :: lit "<h2>Notes</h2>" ++ [nl]
     /\ includes (lit "id=") (pm_html parsed) = false.
Proof.
  split.
  - intros. apply parseMarkdown_markup_ignores_ids.
  - repeat split.
Qed.

(** ** [wrapContentSections] *)

Lemma exec_attrs_app s m rest : exec_attrs s = Some (m, rest) -> s = m ++ rest.
Proof.
  revert m rest. induction s as [|c s IH]; intros m rest; cbn; [discriminate|].
  destruct (c =? 62)%N.
  - now intros [= <- <-].
  - destruct (exec_attrs s) as [[m' r']|]; [|discriminate].
    intros [= <- <-]. cbn. f_equal. now apply IH.
Qed.

Lemma exec_lazy_to_app close s m rest :
  exec_lazy_to close s = Some (m, rest) -> s = m ++ rest.
Proof.
  revert m rest. induction s as [|c s IH]; intros m rest.
  - cbn. destruct (starts_with close []) eqn:E; [|discriminate].
    intros [= <- <-]. now apply starts_with_app.
  - cbn [exec_lazy_to]. destruct (starts_with close (c :: s)) eqn:E.
    + intros [= <- <-]. now apply starts_with_app.
    + destruct (is_line_terminator c); [discriminate|].
      destruct (exec_lazy_to close s) as [[m' r']|]; [|discriminate].
      intros [= <- <-]. cbn. f_equal. now apply IH.
Qed.

Lemma exec_until_app stop s : s = fst (exec_until stop s) ++ snd (exec_until stop s).
Proof.
  induction s as [|c s IH].
  - cbn. now destruct (starts_with stop []).
  - cbn [exec_until]. destruct (starts_with stop (c :: s)); [reflexivity|].
    destruct (exec_until stop s) as [m r]. cbn in *. now f_equal.
Qed.

Lemma exec_h2_section_sound : exec_sound exec_h2_section.
Proof.
  intros s m rest. unfold exec_h2_section, exec_h2_groups.
  destruct (starts_with H2 s) eqn:E; [|discriminate].
  destruct (exec_attrs _) as [[attrs r1]|] eqn:E1; [|discriminate].
  destruct (exec_lazy_to H2_END r1) as [[body r2]|] eqn:E2; [|discriminate].
  pose proof (exec_until_app H2 r2) as E3.
  destruct (exec_until H2 r2) as [g2 r3]. cbn [fst snd] in E3.
  intros [= <- <-]. split; [|discriminate].
  apply starts_with_app in E. apply exec_attrs_app in E1.
  apply exec_lazy_to_app in E2.
  rewrite E, E1, E2, E3. unfold H2. cbn [app].
  now rewrite <- !app_assoc.
Qed.

#[local] Hint Resolve exec_h2_section_sound : core.

(** Without any [<h2] the replace finds nothing to wrap. *)
Lemma replaceAll_h2_none html :
  indexOf H2 html = (-1)%Z ->
  replaceAll exec_h2_section section_of html = html.
Proof.
  induction html as [|c s IH]; intros H.
  - reflexivity.
  - apply indexOf_none_cons in H as [Hs Hi].
    rewrite replaceAll_eq by auto.
    unfold exec_h2_section, exec_h2_groups. rewrite Hs.
    f_equal. now apply IH.
Qed.

(** C3, as the code has it: a body without any [<h2] comes back
    unchanged; no section container is put around it. *)
Theorem wrapContentSections_no_h2 html :
  includes H2 html = false ->
  wrapContentSections html = html.
Proof.
  unfold includes. intros H. apply Z.leb_gt in H.
  pose proof (indexOf_lower H2 html) as Hl.
  assert (Hi : indexOf H2 html = (-1)%Z) by lia.
  unfold wrapContentSections.
  rewrite (replaceAll_h2_none _ Hi), Hi. reflexivity.
Qed.

Lemma wrapContentSections_no_h2_witness :
  includes H2 (lit "<h1>Title</h1><p>text</p><h3>Sub</h3>") = false
  /\ wrapContentSections (lit "<h1>Title</h1><p>text</p><h3>Sub</h3>")
     = lit "<h1>Title</h1><p>text</p><h3>Sub</h3>".
Proof.
  split; [reflexivity|].
  apply wrapContentSections_no_h2. reflexivity.
Defined.

(** C3 as stated fails: the body without second-level heading is not put
    into a section container. *)
Lemma wrapContentSections_no_h2_unwrapped :
  includes H2 (lit "<h1>Title</h1><p>text</p>") = false
  /\ wrapContentSections (lit "<h1>Title</h1><p>text</p>")
     <> SECTION_OPEN ++ lit "<h1>Title</h1><p>text</p>" ++ SECTION_CLOSE
  /\ includes SECTION_OPEN (wrapContentSections (lit "<h1>Title</h1><p>text</p>"))
     = false.
Proof. repeat split. discriminate. Qed.

(** C4: the position of the first [<h2] is taken in the text the replace
    has already wrapped, where the inserted opening tag stands before it.
    So a body that begins with a second-level heading gets a leading
    wrapper all the same, and content before the first heading is closed
    off with that heading's own opening tag inside it: an empty container
    follows the leading content, and the heading's section is left
    without a container of its own. *)
Theorem wrapContentSections_leading_section :
  wrapContentSections (lit "<h2>A</h2><p>x</p>")
  = SECTION_OPEN ++ SECTION_OPEN ++ SECTION_CLOSE
      ++ lit "<h2>A</h2><p>x</p>" ++ SECTION_CLOSE
  /\ wrapContentSections
       (lit "<h1>Title</h1><h2>A</h2><p>text1</p><h2>B</h2><p>text2</p>")
     = SECTION_OPEN ++ lit "<h1>Title</h1>" ++ SECTION_OPEN ++ SECTION_CLOSE
         ++ lit "<h2>A</h2><p>text1</p>" ++ SECTION_CLOSE
         ++ SECTION_OPEN ++ lit "<h2>B</h2><p>text2</p>" ++ SECTION_CLOSE.
Proof. split; reflexivity. Qed.

(** *** The leading wrapper, in general *)

(** An opening [<h2] cannot begin in [u] and end in what follows, when
    what follows begins with [<]. *)
Lemma starts_with_H2_before u c y :
  starts_with H2 (c :: u) = false ->
  starts_with H2 ((c :: u) ++ 60%N :: y) = false.
Proof.
  unfold H2. intros H.
  destruct u as [|b [|d u]]; cbn [app] in *;
    rewrite ?starts_with_cons in *.
  - change (104 =? 60)%N with false. cbn [andb]. apply andb_false_r.
  - change (50 =? 60)%N with false. cbn [andb]. now rewrite !andb_false_r.
  - exact H.
Qed.

Lemma replaceAll_h2_prefix pre y :
  includes H2 pre = false ->
  replaceAll exec_h2_section section_of (pre ++ 60%N :: y)
  = pre ++ replaceAll exec_h2_section section_of (60%N :: y).
Proof.
  induction pre as [|c pre IH]; intros H; [reflexivity|].
  rewrite includes_cons in H. apply orb_false_iff in H as [Hs Hi].
  rewrite replaceAll_eq by auto.
  unfold exec_h2_section, exec_h2_groups.
  rewrite (starts_with_H2_before _ _ y Hs).
  cbn [app]. f_equal. now apply IH.
Qed.

Lemma indexOf_h2_prefix pre y :
  includes H2 pre = false ->
  (0 <= indexOf H2 (60%N :: y))%Z ->
  indexOf H2 (pre ++ 60%N :: y)
  = (Z.of_nat (length pre) + indexOf H2 (60%N :: y))%Z.
Proof.
  intros H Hy. induction pre as [|c pre IH]; [reflexivity|].
  rewrite includes_cons in H. apply orb_false_iff in H as [Hs Hi].
  specialize (IH Hi).
  change (indexOf H2 ((c :: pre) ++ 60%N :: y))
    with (if starts_with H2 ((c :: pre) ++ 60%N :: y) then 0%Z
          else let i := indexOf H2 (pre ++ 60%N :: y) in
               if (i <? 0)%Z then (-1)%Z else (i + 1)%Z).
  rewrite (starts_with_H2_before _ _ y Hs). cbn zeta. rewrite IH.
  destruct (_ <? 0)%Z eqn:E; [apply Z.ltb_lt in E; lia|].
  cbn [length]. lia.
Qed.

Lemma exec_h2_section_starts s m rest :
  exec_h2_section s = Some (m, rest) -> exists m', m = H2 ++ m'.
Proof.
  unfold exec_h2_section, exec_h2_groups.
  destruct (starts_with H2 s); [|discriminate].
  destruct (exec_attrs _) as [[attrs r1]|]; [|discriminate].
  destruct (exec_lazy_to H2_END r1) as [[body r2]|]; [|discriminate].
  destruct (exec_until H2 r2) as [g2 r3].
  intros [= <- <-]. exists (attrs ++ body ++ g2).
  now rewrite <- !app_assoc.
Qed.

Lemma indexOf_after_open z : indexOf H2 (SECTION_OPEN ++ H2 ++ z) = 21%Z.
Proof. reflexivity. Qed.

(** X1: whenever the first [<h2] of the body opens a heading the
    expression matches, the wrapper opens a container at the very start,
    closes it right after the opening tag of the heading's own container,
    and so leaves the heading's section in the leading container.  With an
    empty [pre] the body begins with the heading. *)
Theorem wrapContentSections_first_heading pre html m rest :
  includes H2 pre = false ->
  exec_h2_section html = Some (m, rest) ->
  wrapContentSections (pre ++ html)
  = SECTION_OPEN ++ pre ++ SECTION_OPEN ++ SECTION_CLOSE
      ++ m ++ SECTION_CLOSE ++ replaceAll exec_h2_section section_of rest.
Proof.
  intros Hpre Hm.
  destruct (exec_h2_section_starts _ _ _ Hm) as (m' & ->).
  destruct (exec_h2_section_sound _ _ _ Hm) as [-> _].
  set (tail := replaceAll exec_h2_section section_of rest).
  assert (Hwrapped :
    replaceAll exec_h2_section section_of (pre ++ (H2 ++ m') ++ rest)
    = pre ++ SECTION_OPEN ++ H2 ++ m' ++ SECTION_CLOSE ++ tail).
  { change ((H2 ++ m') ++ rest) with (60%N :: (lit "h2" ++ m') ++ rest).
    rewrite replaceAll_h2_prefix by exact Hpre.
    change (60%N :: (lit "h2" ++ m') ++ rest) with ((H2 ++ m') ++ rest).
    rewrite replaceAll_eq by auto. rewrite Hm.
    unfold section_of. fold tail. now rewrite <- !app_assoc. }
  unfold wrapContentSections. rewrite Hwrapped.
  assert (Hidx :
    indexOf H2 (pre ++ SECTION_OPEN ++ H2 ++ m' ++ SECTION_CLOSE ++ tail)
    = (Z.of_nat (length pre) + 21)%Z).
  { change (SECTION_OPEN ++ H2 ++ m' ++ SECTION_CLOSE ++ tail)
      with (60%N :: tl SECTION_OPEN ++ H2 ++ m' ++ SECTION_CLOSE ++ tail).
    rewrite indexOf_h2_prefix; [reflexivity | exact Hpre | ].
    change (60%N :: tl SECTION_OPEN ++ H2 ++ m' ++ SECTION_CLOSE ++ tail)
      with (SECTION_OPEN ++ H2 ++ (m' ++ SECTION_CLOSE ++ tail)).
    now rewrite indexOf_after_open. }
  rewrite Hidx.
  replace (0 <? Z.of_nat (length pre) + 21)%Z with true
    by (symmetry; apply Z.ltb_lt; lia).
  assert (Hto : substring_to (Z.of_nat (length pre) + 21)
                  (pre ++ SECTION_OPEN ++ H2 ++ m' ++ SECTION_CLOSE ++ tail)
                = pre ++ SECTION_OPEN).
  { unfold substring_to.
    replace (Z.to_nat (Z.of_nat (length pre) + 21)) with (length pre + 21)%nat by lia.
    rewrite firstn_app_2. reflexivity. }
  assert (Hfrom : substring_from (Z.of_nat (length pre) + 21)
                    (pre ++ SECTION_OPEN ++ H2 ++ m' ++ SECTION_CLOSE ++ tail)
                  = H2 ++ m' ++ SECTION_CLOSE ++ tail).
  { unfold substring_from.
    replace (Z.to_nat (Z.of_nat (length pre) + 21)) with (length pre + 21)%nat by lia.
    rewrite skipn_app, skipn_all2 by lia.
    replace (length pre + 21 - length pre)%nat with 21%nat by lia.
    reflexivity. }
  rewrite Hto, Hfrom.
  destruct (jsstring_eqb (trim (pre ++ SECTION_OPEN)) []) eqn:E.
  - exfalso. apply jsstring_eqb_eq in E. revert E.
    change (pre ++ SECTION_OPEN)
      with (pre ++ removelast SECTION_OPEN ++ [62%N]).
    rewrite app_assoc. now apply trim_snoc.
  - cbn [negb]. now rewrite <- !app_assoc.
Qed.

Lemma wrapContentSections_first_heading_witness :
  includes H2 (lit "<h1>T</h1>") = false
  /\ exec_h2_section (lit "<h2 id=a>A</h2><p>x</p><h2>B</h2>")
     = Some (lit "<h2 id=a>A</h2><p>x</p>", lit "<h2>B</h2>")
  /\ wrapContentSections (lit "<h1>T</h1>" ++ lit "<h2 id=a>A</h2><p>x</p><h2>B</h2>")
     = SECTION_OPEN ++ lit "<h1>T</h1>" ++ SECTION_OPEN ++ SECTION_CLOSE
         ++ lit "<h2 id=a>A</h2><p>x</p>" ++ SECTION_CLOSE
         ++ replaceAll exec_h2_section section_of (lit "<h2>B</h2>").
Proof.
  split; [reflexivity|]. split; [reflexivity|].
  apply wrapContentSections_first_heading; reflexivity.
Defined.

(** *** The wrapper only inserts tags *)

Lemma flatten_app p1 p2 : flatten (p1 ++ p2) = flatten p1 ++ flatten p2.
Proof. apply flat_map_app. Qed.

Lemma erase_app p1 p2 : erase (p1 ++ p2) = erase p1 ++ erase p2.
Proof. apply flat_map_app. Qed.

Lemma flatten_units m : flatten (map Unit m) = m.
Proof. induction m as [|c m IH]; cbn; [reflexivity | now f_equal]. Qed.

Lemma erase_units m : erase (map Unit m) = m.
Proof. induction m as [|c m IH]; cbn; [reflexivity | now f_equal]. Qed.

Lemma balanced_units d m rest : balanced d (map Unit m ++ rest) = balanced d rest.
Proof. induction m as [|c m IH]; cbn; [reflexivity | exact IH]. Qed.

(** Closing one more container after a prefix keeps the nesting. *)
Lemma balanced_close_after p1 p2 d :
  balanced d (p1 ++ p2) = true ->
  balanced (S d) (p1 ++ Close :: p2) = true.
Proof.
  revert d. induction p1 as [|p p1 IH]; intros d H.
  - exact H.
  - destruct p; cbn [app balanced] in *.
    + now apply IH.
    + now apply IH.
    + destruct d as [|d']; [discriminate|]. now apply IH.
Qed.

(** The replace step, piece by piece. *)
Lemma replace_h2_pieces html :
  exists ps,
    flatten ps = replaceAll exec_h2_section section_of html
    /\ erase ps = html
    /\ balanced 0 ps = true.
Proof.
  apply replaceAll_ind with (P := fun s out =>
    exists ps, flatten ps = out /\ erase ps = s /\ balanced 0 ps = true); auto.
  - intros s m rest out E (ps & Hf & He & Hb).
    destruct (exec_h2_section_sound _ _ _ E) as [-> _].
    exists (Open :: map Unit m ++ Close :: ps). repeat split.
    + change (flatten (Open :: map Unit m ++ Close :: ps))
        with (SECTION_OPEN ++ flatten (map Unit m ++ Close :: ps)).
      rewrite flatten_app, flatten_units.
      change (flatten (Close :: ps)) with (SECTION_CLOSE ++ flatten ps).
      rewrite Hf. unfold section_of. now rewrite <- !app_assoc.
    + change (erase (Open :: map Unit m ++ Close :: ps))
        with (erase (map Unit m ++ Close :: ps)).
      rewrite erase_app, erase_units.
      change (erase (Close :: ps)) with (erase ps). now rewrite He.
    + cbn [balanced]. rewrite balanced_units. exact Hb.
  - intros _. exists []. repeat split.
  - intros c s out _ (ps & Hf & He & Hb).
    exists (Unit c :: ps). repeat split.
    + change (flatten (Unit c :: ps)) with (c :: flatten ps). now rewrite Hf.
    + change (erase (Unit c :: ps)) with (c :: erase ps). now rewrite He.
    + exact Hb.
Qed.

Lemma app_inv_prefix (t a b r : jsstring) (x : N) :
  a ++ x :: b = t ++ r -> ~ In x t ->
  exists a', a = t ++ a' /\ a' ++ x :: b = r.
Proof.
  revert a. induction t as [|y t IH]; intros a H Hn.
  - now exists a.
  - destruct a as [|z a]; cbn in H.
    + injection H as -> _. exfalso. apply Hn. now left.
    + injection H as -> H.
      destruct (IH a H) as (a' & -> & Hr); [intros Hin; apply Hn; now right|].
      now exists a'.
Qed.

(** A [<] of the output is where a piece starts: the inserted tags have
    none inside. *)
Lemma flatten_split_lt ps a b :
  flatten ps = a ++ 60%N :: b ->
  exists p1 p2, ps = p1 ++ p2 /\ flatten p1 = a /\ flatten p2 = 60%N :: b.
Proof.
  revert a. induction ps as [|p ps IH]; intros a H.
  - destruct a; discriminate.
  - destruct a as [|z a].
    + exists [], (p :: ps). now repeat split.
    + assert (Htag : forall tag,
                 (forall rest, flatten (p :: rest) = 60%N :: tag ++ flatten rest) ->
                 ~ In 60%N tag ->
                 60%N :: tag ++ flatten ps = (z :: a) ++ 60%N :: b ->
                 exists p1 p2, p :: ps = p1 ++ p2 /\ flatten p1 = z :: a
                               /\ flatten p2 = 60%N :: b).
      { intros tag Hp Hn Heq. cbn in Heq. injection Heq as <- Heq.
        symmetry in Heq.
        destruct (app_inv_prefix _ _ _ _ _ Heq Hn) as (a' & -> & Hr).
        destruct (IH a' (eq_sym Hr)) as (p1 & p2 & -> & <- & Hp2).
        exists (p :: p1), p2. repeat split; [|exact Hp2].
        apply Hp. }
      destruct p.
      * cbn in H. injection H as <- H.
        destruct (IH a H) as (p1 & p2 & -> & <- & Hp2).
        exists (Unit c :: p1), p2. now repeat split.
      * apply (Htag (tl SECTION_OPEN)); [reflexivity| |exact H].
        cbn. intuition discriminate.
      * apply (Htag (tl SECTION_CLOSE)); [reflexivity| |exact H].
        cbn. intuition discriminate.
Qed.

(** C10: the output of the section wrapper is its input with opening and
    closing section tags inserted, properly nested; deleting the inserted
    tags gives the input back, with nothing altered, reordered, dropped
    or duplicated. *)
Theorem wrapContentSections_only_inserts html :
  exists ps,
    flatten ps = wrapContentSections html
    /\ erase ps = html
    /\ balanced 0 ps = true.
Proof.
  destruct (replace_h2_pieces html) as (ps & Hf & He & Hb).
  unfold wrapContentSections.
  set (wrapped := replaceAll exec_h2_section section_of html) in *.
  destruct (0 <? indexOf H2 wrapped)%Z eqn:Hidx; [|now exists ps].
  destruct (negb _); [|now exists ps].
  apply Z.ltb_lt in Hidx.
  assert (Hstart : starts_with H2 (substring_from (indexOf H2 wrapped) wrapped) = true)
    by (apply indexOf_found; lia).
  apply starts_with_app in Hstart.
  set (before := substring_to (indexOf H2 wrapped) wrapped) in *.
  set (after := substring_from (indexOf H2 wrapped) wrapped) in *.
  assert (Hsplit : wrapped = before ++ after) by (symmetry; apply firstn_skipn).
  rewrite Hstart in Hsplit. unfold H2 in Hsplit. cbn [app] in Hsplit.
  rewrite Hsplit in Hf.
  destruct (flatten_split_lt _ _ _ Hf) as (p1 & p2 & -> & H1 & H2').
  exists (Open :: p1 ++ Close :: p2). repeat split.
  - change (flatten (Open :: p1 ++ Close :: p2))
      with (SECTION_OPEN ++ flatten (p1 ++ Close :: p2)).
    rewrite flatten_app.
    change (flatten (Close :: p2)) with (SECTION_CLOSE ++ flatten p2).
    rewrite H1, H2'. rewrite Hstart at 2. reflexivity.
  - change (erase (Open :: p1 ++ Close :: p2)) with (erase (p1 ++ Close :: p2)).
    rewrite erase_app. change (erase (Close :: p2)) with (erase p2).
    now rewrite <- erase_app.
  - cbn [balanced]. now apply balanced_close_after.
Qed.

(** ** [getTheme] *)

Lemma existsb_eqb_false key names :
  ~ In key names -> existsb (jsstring_eqb key) names = false.
Proof.
  intros H. apply not_true_is_false. intros E.
  apply existsb_exists in E as (n & Hin & Heq).
  apply jsstring_eqb_eq in Heq. now subst.
Qed.

Section ThemeFacts.
Variable baseStyles : jsstring.
Variables darkStyles academicStyles minimalStyles : jsstring.

Let resolve := getTheme baseStyles darkStyles academicStyles minimalStyles.

(** A name that is neither a theme nor a member every object inherits
    falls back to the default bundle. *)
Lemma getTheme_fallback name :
  ~ In name getAvailableThemes ->
  ~ In name object_prototype_members ->
  resolve (Some name) = Found (githubTheme baseStyles).
Proof.
  intros Hth Hproto. unfold resolve, getTheme, themes_get, object_get, themes_own.
  repeat match goal with
  | |- context [jsstring_eqb name ?l] =>
      destruct (jsstring_eqb name l) eqn:?E;
      [ apply jsstring_eqb_eq in E; exfalso; apply Hth; subst name;
        cbn; tauto | clear E ]
  end.
  now rewrite (existsb_eqb_false _ _ Hproto).
Qed.

(** The scenario of the specification. *)
Lemma getTheme_nonexistent :
  resolve (Some (lit "nonexistent")) = resolve None
  /\ resolve None = resolve (Some (lit "github"))
  /\ css (resolve (Some (lit "nonexistent"))) = Some baseStyles.
Proof. repeat split. Qed.

(** C8: the lookup [themes[themeName]] also finds what the object
    literal inherits from [Object.prototype].  For the name
    [constructor], which is outside the enumerated set, the result is
    that inherited member and not the default bundle, and its [css] is
    [undefined]. *)
Theorem getTheme_inherited_member :
  ~ In (lit "constructor") getAvailableThemes
  /\ resolve (Some (lit "constructor")) = Inherited (lit "constructor")
  /\ css (resolve (Some (lit "constructor"))) = None
  /\ css (resolve None) = Some baseStyles.
Proof.
  repeat split. cbn. intuition discriminate.
Qed.
End ThemeFacts.

(** ** [validateMarkdown] and [convertMarkdownToPdf] *)

Lemma validateMarkdown_empty : valid (validateMarkdown []) = false.
Proof. reflexivity. Qed.

Lemma validateMarkdown_too_large content :
  (MAX_LENGTH < Z.of_nat (length content))%Z ->
  valid (validateMarkdown content) = false.
Proof.
  intros H. unfold validateMarkdown.
  destruct (_ || _); [reflexivity|].
  apply Z.gtb_lt in H. now rewrite H.
Qed.

(** Content within the limit that is not blank is accepted. *)
Lemma validateMarkdown_accepts content :
  trim content <> [] ->
  (Z.of_nat (length content) <= MAX_LENGTH)%Z ->
  validateMarkdown content = {| valid := true; error := None |}.
Proof.
  intros Ht Hl. unfold validateMarkdown.
  destruct (jsstring_eqb content []) eqn:E.
  - apply jsstring_eqb_eq in E. subst. now contradiction Ht.
  - destruct (trim content) as [|c t]; [contradiction|]. cbn [length Nat.eqb orb].
    destruct (Z.of_nat (length content) >? MAX_LENGTH)%Z eqn:G; [|reflexivity].
    apply Z.gtb_lt in G. lia.
Qed.

(** One code unit more than the ceiling is rejected; the ceiling itself
    is accepted. *)
Example validateMarkdown_ceiling :
  valid (validateMarkdown (repeat 120%N (Z.to_nat (MAX_LENGTH + 1)))) = false
  /\ valid (validateMarkdown (repeat 120%N (Z.to_nat MAX_LENGTH))) = true.
Proof.
  assert (Hpos : (0 < MAX_LENGTH)%Z) by reflexivity.
  split.
  - apply validateMarkdown_too_large. rewrite repeat_length. lia.
  - rewrite validateMarkdown_accepts; [reflexivity| |rewrite repeat_length; lia].
    destruct (Z.to_nat MAX_LENGTH) as [|n] eqn:E; [lia|].
    cbn [repeat]. rewrite repeat_cons. apply trim_snoc. reflexivity.
Qed.

Section ConverterFacts.
Variable stat : jsstring -> StatOutcome.
Variable readFile : jsstring -> Outcome jsstring.
Variable parseMarkdown_ : jsstring -> Outcome ParsedMarkdown.
Variable processCodeBlocks : jsstring -> Lookup jsstring -> Outcome jsstring.
Variable generateHtml_ : ParsedMarkdown -> PdfOptions -> jsstring.
Variable mkdir : jsstring -> Outcome unit.
Variable generatePdf : jsstring -> jsstring -> PdfOptions -> option jsstring -> Outcome unit.
Variable addMetadata : jsstring -> FrontMatter -> Outcome unit.
Variable getPdfStats : jsstring -> Outcome PdfStats.
Variables path_dirname path_dir path_name : jsstring -> jsstring.
Variable path_join : jsstring -> jsstring -> jsstring.
Variables startTime endTime : Z.

Let convert :=
  convertMarkdownToPdf stat readFile parseMarkdown_ processCodeBlocks
    generateHtml_ mkdir generatePdf addMetadata getPdfStats
    path_dirname path_dir path_name path_join startTime endTime.

(** C9: when the content read from the input is empty, or longer than
    the ceiling of 10 * 1024 * 1024, validation fails and the conversion
    returns a failure result with no output path; the Markdown parser
    has not been called. *)
Theorem convert_rejects_before_parsing options content :
  readFile (opt_input options) = Return content ->
  content = [] \/ (MAX_LENGTH < Z.of_nat (length content))%Z ->
  valid (validateMarkdown content) = false
  /\ exists result log,
       convert options [] = (Return result, log)
       /\ success result = false
       /\ outputPath result = []
       /\ res_stats result = None
       /\ ~ In CallParseMarkdown log.
Proof.
  intros Hread Hbad.
  assert (Hv : valid (validateMarkdown content) = false).
  { destruct Hbad as [->|Hbig];
      [apply validateMarkdown_empty | now apply validateMarkdown_too_large]. }
  split; [exact Hv|].
  unfold convert, convertMarkdownToPdf, try_catch, bind, validateInputFile, call.
  destruct (stat (opt_input options)); cbn [app].
  - rewrite Hread, Hv. cbn [negb ret].
    eexists _, _. repeat split. cbn. intuition discriminate.
  - eexists _, _. repeat split. cbn. intuition discriminate.
  - eexists _, _. repeat split. cbn. intuition discriminate.
  - eexists _, _. repeat split. cbn. intuition discriminate.
Qed.

(** With a readable file the failure carries the message of the
    validation. *)
Lemma convert_reports_validation options content :
  stat (opt_input options) = IsFile ->
  readFile (opt_input options) = Return content ->
  valid (validateMarkdown content) = false ->
  convert options [] =
  (Return (failure (error (validateMarkdown content))), [CallStat; CallReadFile]).
Proof.
  intros Hstat Hread Hv.
  unfold convert, convertMarkdownToPdf, try_catch, bind, validateInputFile, call.
  rewrite Hstat. cbn [app]. now rewrite Hread, Hv.
Qed.
End ConverterFacts.

Lemma convert_rejects_before_parsing_witness :
  let options :=
    {| opt_input := lit "empty.md"; opt_output := None; opt_theme := None;
       opt_toc := true; opt_css := None |} in
  let readFile := fun _ : jsstring => Return ([] : jsstring) in
  readFile (opt_input options) = Return []
  /\ (([] : jsstring) = [] \/ (MAX_LENGTH < Z.of_nat (length ([] : jsstring)))%Z)
  /\ valid (validateMarkdown []) = false
  /\ exists result log,
       convertMarkdownToPdf (fun _ => IsFile) readFile
         (fun _ => Throw NotAnError) (fun _ _ => Throw NotAnError)
         (fun _ _ => []) (fun _ => Throw NotAnError)
         (fun _ _ _ _ => Throw NotAnError) (fun _ _ => Throw NotAnError)
         (fun _ => Throw NotAnError) (fun p => p) (fun p => p) (fun p => p)
         (fun a b => a ++ b) 0%Z 0%Z options [] = (Return result, log)
       /\ success result = false
       /\ outputPath result = []
       /\ res_stats result = None
       /\ ~ In CallParseMarkdown log.
Proof.
  intros options readFile.
  split; [reflexivity|].
  split; [left; reflexivity|].
  apply (convert_rejects_before_parsing (fun _ => IsFile) readFile
           (fun _ => Throw NotAnError) (fun _ _ => Throw NotAnError)
           (fun _ _ => []) (fun _ => Throw NotAnError)
           (fun _ _ _ _ => Throw NotAnError) (fun _ _ => Throw NotAnError)
           (fun _ => Throw NotAnError) (fun p => p) (fun p => p) (fun p => p)
           (fun a b => a ++ b) 0%Z 0%Z options []).
  - reflexivity.
  - left; reflexivity.
Defined.

(** ** [escapeHtml] and [decodeHtml] *)

Lemma replaceAll_class_map p f s :
  replaceAll (exec_class p) f s = flat_map (fun c => if p c then f [c] else [c]) s.
Proof.
  induction s as [|c s IH].
  - reflexivity.
  - rewrite replaceAll_eq by auto. cbn [exec_class flat_map].
    destruct (p c); cbn [app]; now rewrite IH.
Qed.

Lemma escapeHtml_flat_map text : escapeHtml text = flat_map escape_char text.
Proof. apply replaceAll_class_map. Qed.

Lemma escapeHtml_app a b : escapeHtml (a ++ b) = escapeHtml a ++ escapeHtml b.
Proof. rewrite !escapeHtml_flat_map. apply flat_map_app. Qed.

Lemma is_reserved_cases c :
  is_reserved c = true ->
  c = 38%N \/ c = 60%N \/ c = 62%N \/ c = 34%N \/ c = 39%N.
Proof. unfold is_reserved. intros H. bool_prop H. tauto. Qed.

(** Escaped text holds no angle bracket and no quote: every reserved
    character has become an entity. *)
Lemma escapeHtml_no_markup text c :
  In c (escapeHtml text) ->
  c <> 60%N /\ c <> 62%N /\ c <> 34%N /\ c <> 39%N.
Proof.
  rewrite escapeHtml_flat_map, in_flat_map. intros (d & _ & Hc).
  unfold escape_char in Hc. destruct (is_reserved d) eqn:E.
  - apply is_reserved_cases in E.
    destruct E as [->|[->|[->|[->| ->]]]]; cbn in Hc;
      repeat (destruct Hc as [<-|Hc]; [repeat split; discriminate|]);
      destruct Hc.
  - destruct Hc as [<-|[]].
    unfold is_reserved in E. bool_prop E. repeat split; tauto.
Qed.

(** A title with reserved characters, escaped and decoded again. *)
Example escapeHtml_title :
  escapeHtml (lit "R&D <draft> 'v2'") = lit "R&amp;D &lt;draft&gt; &#39;v2&#39;"
  /\ decodeHtml (escapeHtml (lit "R&D <draft> 'v2'")) = lit "R&D <draft> 'v2'".
Proof. split; reflexivity. Qed.

(** [decodeHtml], which the highlighter applies to the code of a code
    block, decodes the ampersand first and then meets the ampersand it
    has just produced again: escaped text that spells an entity does not
    come back, [&amp;lt;] is decoded to [<]. *)
Lemma decodeHtml_decodes_twice :
  escapeHtml (lit "&lt;") = lit "&amp;lt;"
  /\ decodeHtml (escapeHtml (lit "&lt;")) = lit "<"
  /\ decodeHtml (escapeHtml (lit "&lt;")) <> lit "&lt;".
Proof. repeat split. discriminate. Qed.

Lemma replaceLiteral_skip pat rep c s :
  pat <> [] ->
  starts_with pat (c :: s) = false ->
  replaceLiteral pat rep (c :: s) = c :: replaceLiteral pat rep s.
Proof.
  intros Hp H. unfold replaceLiteral.
  rewrite replaceAll_eq by now apply exec_lit_sound.
  unfold exec_lit. now rewrite H.
Qed.

Lemma replaceLiteral_hit pat rep s :
  pat <> [] ->
  replaceLiteral pat rep (pat ++ s) = rep ++ replaceLiteral pat rep s.
Proof.
  intros Hp. unfold replaceLiteral.
  rewrite replaceAll_eq by now apply exec_lit_sound.
  unfold exec_lit. rewrite starts_with_prefix.
  now rewrite skipn_app, skipn_all, Nat.sub_diag.
Qed.

Lemma replaceLiteral_nil pat rep : pat <> [] -> replaceLiteral pat rep [] = [].
Proof.
  intros Hp. unfold replaceLiteral.
  rewrite replaceAll_eq by now apply exec_lit_sound.
  unfold exec_lit. destruct pat; [congruence | reflexivity].
Qed.

(** Unreserved text is found in partly decoded text where it is in the
    original. *)
Lemma starts_with_escape_except raw w t :
  forallb (fun a => negb (is_reserved a)) w = true ->
  starts_with w (flat_map (escape_except raw) t) = starts_with w t.
Proof.
  revert t. induction w as [|a w IH]; intros t Hw; [reflexivity|].
  cbn [forallb] in Hw. apply andb_true_iff in Hw as [Ha Hw].
  apply negb_true_iff in Ha.
  destruct t as [|c t]; [reflexivity|].
  cbn [flat_map]. unfold escape_except at 1, escape_char.
  destruct (raw c) eqn:Hr; [cbn; now rewrite IH|].
  destruct (is_reserved c) eqn:Hc; [|cbn; now rewrite IH].
  assert (Hac : (a =? c)%N = false).
  { apply N.eqb_neq. intros ->. congruence. }
  cbn [starts_with]. rewrite Hac. cbn [andb].
  assert (Ha38 : (a =? 38)%N = false).
  { apply N.eqb_neq. intros ->. discriminate. }
  apply is_reserved_cases in Hc.
  destruct Hc as [->|[->|[->|[->| ->]]]]; cbn; now rewrite Ha38.
Qed.

(** Write the entities out. *)
Ltac eval_entity :=
  repeat match goal with
  | |- context [escape_map [?c]] =>
      let e := eval vm_compute in (escape_map [c]) in
      change (escape_map [c]) with e
  | H : context [escape_map [?c]] |- _ =>
      let e := eval vm_compute in (escape_map [c]) in
      change (escape_map [c]) with e in H
  end.

Ltac reserved_cases H :=
  apply is_reserved_cases in H;
  destruct H as [->|[->|[->|[->| ->]]]].

(** One step of [decodeHtml]: the entity of [x] is decoded wherever the
    character [x] was escaped.  After the first step the ampersand is
    decoded, and the step is exact where the original text does not hold
    the entity itself. *)
Lemma decode_step x raw t :
  is_reserved x = true ->
  raw x = false ->
  (x <> 38%N -> raw 38%N = true /\ includes (escape_map [x]) t = false) ->
  replaceLiteral (escape_map [x]) [x] (flat_map (escape_except raw) t)
  = flat_map (escape_except (fun c => raw c || (c =? x)%N)) t.
Proof.
  intros Hx Hrx Hamp.
  assert (Hpat : escape_map [x] <> []).
  { reserved_cases Hx; discriminate. }
  induction t as [|c t IH]; [now apply replaceLiteral_nil|].
  assert (IH' : replaceLiteral (escape_map [x]) [x] (flat_map (escape_except raw) t)
                = flat_map (escape_except (fun c => raw c || (c =? x)%N)) t).
  { apply IH. intros Hne. destruct (Hamp Hne) as [H38 Hinc].
    split; [exact H38|]. rewrite includes_cons in Hinc.
    now apply orb_false_iff in Hinc. }
  clear IH. cbn [flat_map].
  unfold escape_except at 1 3.
  destruct (raw c) eqn:Hrc; cbn [orb].
  - (* [c] is decoded already *)
    cbn [app]. rewrite replaceLiteral_skip, IH'; [reflexivity|exact Hpat|].
    destruct (N.eq_dec c 38) as [->|Hc].
    + assert (Hne : x <> 38%N) by congruence.
      destruct (Hamp Hne) as [_ Hinc]. rewrite includes_cons in Hinc.
      apply orb_false_iff in Hinc as [Hst _].
      reserved_cases Hx; try congruence; eval_entity;
        rewrite starts_with_cons in Hst |- *;
        change (38 =? 38)%N with true in Hst |- *; cbn [andb] in Hst |- *;
        rewrite starts_with_escape_except by reflexivity;
        exact Hst.
    + assert (Hc' : (38 =? c)%N = false) by (apply N.eqb_neq; congruence).
      reserved_cases Hx; eval_entity; rewrite starts_with_cons, Hc';
        reflexivity.
  - unfold escape_char. destruct (is_reserved c) eqn:Hc.
    + destruct (c =? x)%N eqn:Hcx.
      * apply N.eqb_eq in Hcx. subst c.
        now rewrite replaceLiteral_hit, IH'.
      * apply N.eqb_neq in Hcx.
        reserved_cases Hx; reserved_cases Hc; try congruence;
          eval_entity; cbn [app];
          rewrite !replaceLiteral_skip by (reflexivity || discriminate);
          rewrite IH'; reflexivity.
    + assert (Hcx : (c =? x)%N = false).
      { apply N.eqb_neq. intros ->. congruence. }
      rewrite Hcx. cbn [app].
      rewrite replaceLiteral_skip, IH'; [reflexivity|exact Hpat|].
      assert (Hc38 : (38 =? c)%N = false).
      { apply N.eqb_neq. intros <-. discriminate. }
      reserved_cases Hx; eval_entity; rewrite starts_with_cons, Hc38;
        reflexivity.
Qed.

(** X2: where the title does not itself hold the text of one of the
    four entities, un-escaping gives the title back; the reserved
    characters, the ampersand included, may occur freely. *)
Theorem decodeHtml_escapeHtml text :
  entity_free text = true ->
  decodeHtml (escapeHtml text) = text.
Proof.
  unfold entity_free. intros H.
  repeat (apply andb_true_iff in H as [H ?H]).
  repeat match goal with
  | H0 : negb _ = true |- _ => apply negb_true_iff in H0
  end.
  rewrite escapeHtml_flat_map.
  replace (flat_map escape_char text)
    with (flat_map (escape_except (fun _ => false)) text) by reflexivity.
  unfold decodeHtml.
  change (lit "&amp;") with (escape_map [38%N]).
  change (lit "&lt;") with (escape_map [60%N]) in *.
  change (lit "&gt;") with (escape_map [62%N]) in *.
  change (lit "&quot;") with (escape_map [34%N]) in *.
  change (lit "&#39;") with (escape_map [39%N]) in *.
  change (lit "&") with [38%N]. change (lit "<") with [60%N].
  change (lit ">") with [62%N]. change [dq] with [34%N].
  rewrite (decode_step 38) by (reflexivity || congruence).
  rewrite (decode_step 60) by (reflexivity || (intros _; now split)).
  rewrite (decode_step 62) by (reflexivity || (intros _; now split)).
  rewrite (decode_step 34) by (reflexivity || (intros _; now split)).
  rewrite (decode_step 39) by (reflexivity || (intros _; now split)).
  clear. induction text as [|c text IH]; [reflexivity|].
  cbn [flat_map]. rewrite IH. unfold escape_except, escape_char.
  destruct (_ || _) eqn:E; [reflexivity|].
  destruct (is_reserved c) eqn:Hc; [|reflexivity].
  exfalso. unfold is_reserved in Hc. cbn [orb] in E.
  bool_prop E. bool_prop Hc. tauto.
Qed.

(** ** Occurrences of a tag in a template *)

Lemma clash_starts_with p l s : clash p l = true -> starts_with p (l ++ s) = false.
Proof.
  revert l. induction p as [|a p IH]; intros l H; [discriminate|].
  destruct l as [|b l]; [discriminate|].
  cbn in H |- *. destruct (a =? b)%N; [|reflexivity].
  cbn in H |- *. now apply IH.
Qed.

Lemma no_start_skip p l s : no_start p l = true -> includes p (l ++ s) = includes p s.
Proof.
  induction l as [|c l IH]; intros H; [reflexivity|].
  cbn [no_start] in H. apply andb_true_iff in H as [Hc Hl].
  cbn [app]. rewrite includes_cons.
  change (c :: l ++ s) with ((c :: l) ++ s).
  rewrite (clash_starts_with _ _ _ Hc). now apply IH.
Qed.

Lemma escaped_skip p text s :
  starts_with [60%N] p = true ->
  includes p (escapeHtml text ++ s) = includes p s.
Proof.
  intros Hp.
  assert (H : forall c, In c (escapeHtml text) -> c <> 60%N)
    by (intros c Hc; now apply escapeHtml_no_markup in Hc).
  induction (escapeHtml text) as [|c e IH]; [reflexivity|].
  cbn [app]. rewrite includes_cons, IH by (intros d Hd; apply H; now right).
  destruct p as [|a p]; [discriminate|].
  rewrite starts_with_cons in Hp. apply andb_true_iff in Hp as [Hp _].
  apply N.eqb_eq in Hp. subst a.
  rewrite starts_with_cons.
  replace (60 =? c)%N with false; [reflexivity|].
  symmetry. apply N.eqb_neq. intros <-.
  exact (H 60%N (or_introl eq_refl) eq_refl).
Qed.

(** What [scan] decides holds of the rendered text. *)
Lemma scan_correct p gs b :
  scan p gs = Some b -> includes p (render_segments gs) = b.
Proof.
  revert b. induction gs as [|g gs IH]; intros b.
  - cbn [scan render_segments flat_map]. rewrite includes_nil.
    destruct p; [discriminate|]. now intros [= <-].
  - destruct g as [l|t]; cbn [scan render_segments flat_map segment_text].
    + destruct (includes p l) eqn:E.
      * intros [= <-]. now apply includes_app_l.
      * destruct (no_start p l) eqn:E'; [|discriminate].
        intros H. rewrite no_start_skip by exact E'. now apply IH.
    + destruct (starts_with [60%N] p) eqn:E; [|discriminate].
      intros H. rewrite escaped_skip by exact E. now apply IH.
Qed.

(** ** [generateCoverPage] *)

Section CoverPageFacts.
Variable toLocaleDateString : Z -> jsstring.

Let cover := generateCoverPage toLocaleDateString.

Lemma generateCoverPage_segments frontMatter :
  cover frontMatter =
  if cover_built frontMatter
  then render_segments (cover_segments toLocaleDateString frontMatter)
  else [].
Proof.
  unfold cover, generateCoverPage, cover_built, cover_segments, cover_title,
    cover_subtitle, cover_meta, metaParts.
  destruct (truthy (fm_title frontMatter)), (truthy (fm_subtitle frontMatter)),
    (truthy (fm_author frontMatter)), (date_truthy (fm_date frontMatter));
    cbn; repeat (rewrite <- app_assoc; cbn [app]); reflexivity.
Qed.

(** Where each block begins. *)
Lemma cover_markers frontMatter :
  includes COVER_OPEN (cover frontMatter) = cover_built frontMatter
  /\ includes COVER_TITLE_OPEN (cover frontMatter) = truthy (fm_title frontMatter)
  /\ includes COVER_SUBTITLE_OPEN (cover frontMatter)
     = cover_built frontMatter && truthy (fm_subtitle frontMatter)
  /\ includes AUTHOR_LABEL (cover frontMatter) = truthy (fm_author frontMatter)
  /\ includes DATE_LABEL (cover frontMatter) = date_truthy (fm_date frontMatter).
Proof.
  rewrite generateCoverPage_segments.
  unfold cover_built, cover_segments.
  destruct (truthy (fm_title frontMatter)), (truthy (fm_subtitle frontMatter)),
    (truthy (fm_author frontMatter)), (date_truthy (fm_date frontMatter));
    cbn [orb andb app];
    repeat split; solve [reflexivity | apply scan_correct; reflexivity].
Qed.

(** Which blocks the cover page holds: the cover block is there if and
    only if title, author or date is present (set and not empty).  In a
    cover that is built, each present field of title, subtitle, author
    and date is rendered, escaped, in a block of its own, and for an
    absent field not even the opening of its block occurs. *)
Lemma generateCoverPage_marks frontMatter :
  (cover frontMatter = [] <-> cover_built frontMatter = false)
  /\ includes COVER_OPEN (cover frontMatter) = cover_built frontMatter
  /\ includes COVER_TITLE_OPEN (cover frontMatter) = truthy (fm_title frontMatter)
  /\ includes COVER_SUBTITLE_OPEN (cover frontMatter)
     = cover_built frontMatter && truthy (fm_subtitle frontMatter)
  /\ includes AUTHOR_LABEL (cover frontMatter) = truthy (fm_author frontMatter)
  /\ includes DATE_LABEL (cover frontMatter) = date_truthy (fm_date frontMatter)
  /\ includes (title_block frontMatter) (cover frontMatter)
     = truthy (fm_title frontMatter)
  /\ includes (subtitle_block frontMatter) (cover frontMatter)
     = cover_built frontMatter && truthy (fm_subtitle frontMatter)
  /\ includes (author_block frontMatter) (cover frontMatter)
     = truthy (fm_author frontMatter)
  /\ includes (date_block toLocaleDateString frontMatter) (cover frontMatter)
     = date_truthy (fm_date frontMatter).
Proof.
  destruct (cover_markers frontMatter) as (Hc & Ht & Hs & Ha & Hd).
  split; [|split; [exact Hc|split; [exact Ht|split; [exact Hs|
           split; [exact Ha|split; [exact Hd|]]]]]].
  { split; intros H.
    - rewrite H in Hc. now rewrite <- Hc.
    - rewrite generateCoverPage_segments. now rewrite H. }
  assert (Hbuilt : cover_built frontMatter = true ->
            cover frontMatter =
            COVER_OPEN ++ nl :: lit "  " ++ cover_title frontMatter
              ++ nl :: lit "  " ++ cover_subtitle frontMatter
              ++ nl :: lit "  " ++ cover_meta toLocaleDateString frontMatter
              ++ nl :: lit "</div>").
  { unfold cover, generateCoverPage, cover_built.
    destruct (truthy (fm_title frontMatter)), (truthy (fm_author frontMatter)),
      (date_truthy (fm_date frontMatter)); cbn [orb negb andb];
      congruence. }
  assert (Hskip : forall p c s, includes p s = true -> includes p (c :: s) = true).
  { intros p c s H. rewrite includes_cons, H. apply orb_true_r. }
  repeat split.
  - destruct (truthy (fm_title frontMatter)) eqn:E;
      [|now apply includes_longer].
    rewrite Hbuilt by (unfold cover_built; now rewrite E).
    unfold cover_title. rewrite E. fold (title_block frontMatter).
    generalize (title_block frontMatter); intros block.
    repeat first [apply includes_prefix | apply includes_app_r | apply Hskip].
  - destruct (cover_built frontMatter) eqn:B;
      [|now apply includes_longer].
    destruct (truthy (fm_subtitle frontMatter)) eqn:E;
      [|now apply includes_longer].
    rewrite Hbuilt by reflexivity.
    unfold cover_subtitle. rewrite E. fold (subtitle_block frontMatter).
    generalize (subtitle_block frontMatter); intros block.
    repeat first [apply includes_prefix | apply includes_app_r | apply Hskip].
  - destruct (truthy (fm_author frontMatter)) eqn:E;
      [|now apply includes_longer].
    rewrite Hbuilt by (unfold cover_built; rewrite E; now rewrite orb_true_r).
    unfold cover_meta, metaParts. rewrite E.
    fold (author_block frontMatter).
    generalize (author_block frontMatter); intros block.
    destruct (date_truthy (fm_date frontMatter));
      cbn [app length Nat.ltb Nat.leb join];
      repeat (rewrite <- app_assoc; cbn [app]);
      repeat first [apply includes_prefix | apply includes_app_r | apply Hskip].
  - destruct (date_truthy (fm_date frontMatter)) eqn:E;
      [|now apply includes_longer].
    rewrite Hbuilt by (unfold cover_built; rewrite E; now rewrite orb_true_r).
    unfold cover_meta, metaParts. rewrite E.
    fold (date_block toLocaleDateString frontMatter).
    generalize (date_block toLocaleDateString frontMatter); intros block.
    destruct (truthy (fm_author frontMatter));
      cbn [app length Nat.ltb Nat.leb join];
      repeat (rewrite <- app_assoc; cbn [app]);
      repeat first [apply includes_prefix | apply includes_app_r | apply Hskip].
Qed.
End CoverPageFacts.

(** C5 as stated fails for the subtitle: front matter with a subtitle and
    no title, author or date builds no cover, and the subtitle is rendered
    nowhere in the assembled document. *)
Lemma generateCoverPage_subtitle_alone :
  let frontMatter :=
    {| fm_title := None; fm_subtitle := Some (lit "A subtitle");
       fm_author := None; fm_date := None |} in
  let parsed :=
    {| pm_content := lit "Body"; pm_frontMatter := frontMatter;
       pm_toc := []; pm_html := lit "<p>Body</p>" |} in
  let options :=
    {| opt_input := lit "in.md"; opt_output := None; opt_theme := None;
       opt_toc := true; opt_css := None |} in
  truthy (fm_subtitle frontMatter) = true
  /\ generateCoverPage (fun _ => []) frontMatter = []
  /\ includes (lit "A subtitle")
       (generateHtml (fun _ => []) (lit "body{}") [] [] [] parsed options) = false.
Proof. vm_compute. repeat split. Qed.

Example generateCoverPage_title_author :
  generateCoverPage (fun _ => [])
    {| fm_title := Some (lit "R&D"); fm_subtitle := None;
       fm_author := Some (lit "Ann"); fm_date := None |}
  = COVER_OPEN ++ nl :: lit "  " ++ COVER_TITLE_OPEN ++ lit "R&amp;D</h1>"
      ++ nl :: lit "  " ++ nl :: lit "  " ++ COVER_META_OPEN
      ++ lit "<p><strong>Author:</strong> Ann</p></div>" ++ nl :: lit "</div>".
Proof. reflexivity. Qed.

(** ** [generateHtml] *)

Section GenerateHtmlFacts.
Variable toLocaleDateString : Z -> jsstring.
Variable baseStyles : jsstring.
Variables darkStyles academicStyles minimalStyles : jsstring.

Let assemble :=
  generateHtml toLocaleDateString baseStyles darkStyles academicStyles
    minimalStyles.

(** The assembled document holds the escaped title, the cover page, the
    table of contents when it is asked for, and the wrapped body, in
    this order. *)
Lemma generateHtml_parts parsed options :
  exists head mid1 mid2 mid3 tail,
    assemble parsed options =
    head
      ++ (lit "  <title>"
            ++ escapeHtml (if truthy (fm_title (pm_frontMatter parsed))
                           then str (fm_title (pm_frontMatter parsed))
                           else lit "Document")
            ++ lit "</title>")
      ++ mid1
      ++ generateCoverPage toLocaleDateString (pm_frontMatter parsed)
      ++ mid2
      ++ (if opt_toc options then generateToc (pm_toc parsed) else [])
      ++ mid3
      ++ wrapContentSections (pm_html parsed)
      ++ tail.
Proof.
  unfold assemble, generateHtml.
  exists (lit "<!DOCTYPE html>" ++ nl
    :: lit "<html lang=" ++ q "en" ++ lit ">" ++ nl
    :: lit "<head>" ++ nl
    :: lit "  <meta charset=" ++ q "UTF-8" ++ lit ">" ++ nl
    :: lit "  <meta name=" ++ q "viewport" ++ lit " content="
         ++ q "width=device-width, initial-scale=1.0" ++ lit ">" ++ [nl]).
  exists (nl :: lit "  <style>" ++ nl
    :: lit "    " ++ css_text (getTheme baseStyles darkStyles academicStyles
                                 minimalStyles (opt_theme options)) ++ nl
    :: lit "    " ++ getAdditionalStyles ++ nl
    :: lit "    " ++ (if truthy (opt_css options)
                      then lit "/* Custom CSS */" ++ nl :: str (opt_css options)
                      else []) ++ nl
    :: lit "  </style>" ++ nl
    :: lit "</head>" ++ nl
    :: lit "<body>" ++ nl
    :: lit "  ").
  exists (nl :: lit "  ").
  exists (nl :: lit "  <div class=" ++ q "content" ++ lit ">" ++ nl :: lit "    ").
  exists (nl :: lit "  </div>" ++ nl :: lit "</body>" ++ nl :: lit "</html>").
  repeat first [rewrite <- app_assoc | rewrite <- app_comm_cons].
  reflexivity.
Qed.
End GenerateHtmlFacts.

(** * Further properties *)

(** ** [escapeHtml] *)

Lemma escape_char_cases c :
  (is_reserved c = false /\ escape_char c = [c])
  \/ (is_reserved c = true
      /\ exists tail, escape_char c = 38%N :: tail
                      /\ ~ In 38%N tail /\ entity_tail tail = true
                      /\ forallb markup_free tail = true
                      /\ (4 <= length (escape_char c))%nat).
Proof.
  unfold escape_char. destruct (is_reserved c) eqn:E; [right|left; now split].
  split; [reflexivity|].
  reserved_cases E; eval_entity; eexists; (split; [reflexivity|]);
    (split; [cbn; intuition discriminate|]);
    repeat split; cbn; lia.
Qed.

Lemma entity_tail_app t s : entity_tail t = true -> entity_tail (t ++ s) = true.
Proof.
  unfold entity_tail. intros H.
  repeat (apply orb_true_iff in H as [H|H]);
    rewrite (starts_with_app_l _ _ _ H); cbn [orb]; now rewrite ?orb_true_r.
Qed.

(** X3: escaped text holds no angle bracket, no double quote and no
    apostrophe, and each of its ampersands begins one of the five
    entities. *)
Theorem escapeHtml_output_safe text :
  forallb markup_free (escapeHtml text) = true
  /\ forall before after,
       escapeHtml text = before ++ 38%N :: after -> entity_tail after = true.
Proof.
  rewrite escapeHtml_flat_map. split.
  - induction text as [|c text IH]; [reflexivity|].
    cbn [flat_map]. rewrite forallb_app, IH, andb_true_r.
    destruct (escape_char_cases c) as [[Hr ->]|[_ (tail & -> & _ & _ & Hm & _)]].
    + cbn. rewrite andb_true_r. unfold markup_free. apply negb_true_iff.
      unfold is_reserved in Hr. bool_prop Hr.
      apply not_true_is_false. intros H. bool_prop H. tauto.
    + cbn [forallb]. now rewrite Hm.
  - induction text as [|c text IH]; intros before after H.
    + destruct before; discriminate.
    + cbn [flat_map] in H.
      destruct (escape_char_cases c) as [[Hr Hc]|[_ (tail & Hc & Hn & Ht & _)]];
        rewrite Hc in H.
      * destruct before as [|b before]; cbn in H.
        -- injection H as -> _. discriminate Hr.
        -- injection H as _ H. now apply (IH before).
      * destruct before as [|b before]; cbn in H.
        -- injection H as <-. now apply entity_tail_app.
        -- injection H as _ H.
           destruct (app_inv_prefix _ _ _ _ _ (eq_sym H) Hn) as (a' & -> & Hr).
           apply (IH a'). now symmetry.
Qed.

Lemma escape_char_head_inj a b A B :
  escape_char a ++ A = escape_char b ++ B -> a = b /\ A = B.
Proof.
  unfold escape_char.
  destruct (is_reserved a) eqn:Ha, (is_reserved b) eqn:Hb.
  - reserved_cases Ha; reserved_cases Hb; eval_entity; cbn [app];
      intros H; solve [discriminate H | split; [reflexivity | congruence]].
  - reserved_cases Ha; eval_entity; cbn [app]; intros [= <- _]; discriminate.
  - reserved_cases Hb; eval_entity; cbn [app]; intros [= -> _]; discriminate.
  - cbn [app]. now intros [= -> ->].
Qed.

(** X4: escaping loses nothing: two texts with the same escaped form are
    the same text. *)
Theorem escapeHtml_injective a b : escapeHtml a = escapeHtml b -> a = b.
Proof.
  rewrite !escapeHtml_flat_map. revert b.
  induction a as [|x a IH]; intros [|y b] H; cbn [flat_map] in H.
  - reflexivity.
  - exfalso. destruct (escape_char_cases y) as [[_ E]|[_ (t & E & _)]];
      rewrite E in H; discriminate.
  - exfalso. destruct (escape_char_cases x) as [[_ E]|[_ (t & E & _)]];
      rewrite E in H; discriminate.
  - apply escape_char_head_inj in H as [-> H]. f_equal. now apply IH.
Qed.

Lemma escapeHtml_injective_witness :
  escapeHtml (lit "a<b") = escapeHtml (lit "a<b") /\ lit "a<b" = lit "a<b".
Proof.
  split; [reflexivity|]. apply escapeHtml_injective. reflexivity.
Defined.

Lemma escapeHtml_length text : (length text <= length (escapeHtml text))%nat.
Proof.
  rewrite escapeHtml_flat_map.
  induction text as [|c text IH]; [reflexivity|].
  cbn [flat_map length]. rewrite length_app.
  destruct (escape_char_cases c) as [[_ ->]|[_ (t & _ & _ & _ & _ & Hl)]];
    cbn [length]; lia.
Qed.

(** X5: escaping never shortens a text, and it leaves a text as it is
    exactly when the text holds none of the five reserved characters. *)
Theorem escapeHtml_identity_iff text :
  (length text <= length (escapeHtml text))%nat
  /\ (escapeHtml text = text
      <-> forallb (fun c => negb (is_reserved c)) text = true).
Proof.
  split; [apply escapeHtml_length|].
  split.
  - intros H. apply forallb_forall. intros c Hin.
    apply negb_true_iff, not_true_is_false. intros Hr.
    apply in_split in Hin as (l1 & l2 & ->).
    assert (Hlen : length (escapeHtml (l1 ++ c :: l2)) = length (l1 ++ c :: l2))
      by now rewrite H.
    rewrite escapeHtml_app in Hlen.
    change (c :: l2) with ([c] ++ l2) in Hlen.
    rewrite escapeHtml_app, !length_app in Hlen.
    pose proof (escapeHtml_length l1). pose proof (escapeHtml_length l2).
    assert (4 <= length (escapeHtml [c]))%nat.
    { rewrite escapeHtml_flat_map. cbn [flat_map]. rewrite app_nil_r.
      destruct (escape_char_cases c) as [[E _]|[_ (t & _ & _ & _ & _ & Hl)]];
        [congruence | exact Hl]. }
    cbn [length] in Hlen. lia.
  - intros H. rewrite escapeHtml_flat_map.
    induction text as [|c text IH]; [reflexivity|].
    cbn [forallb] in H. apply andb_true_iff in H as [Hc H].
    apply negb_true_iff in Hc.
    cbn [flat_map]. unfold escape_char at 1. rewrite Hc. cbn [app].
    f_equal. now apply IH.
Qed.

(** ** [decodeHtml] *)

Lemma replaceLiteral_absent pat rep s c :
  hd_error pat = Some c -> ~ In c s -> replaceLiteral pat rep s = s.
Proof.
  intros Hp Hn.
  assert (Hne : pat <> []) by (destruct pat; [discriminate | congruence]).
  induction s as [|d s IH]; [now apply replaceLiteral_nil|].
  rewrite replaceLiteral_skip; [|exact Hne|].
  - f_equal. apply IH. intros H. apply Hn. now right.
  - destruct pat as [|a pat]; [discriminate|].
    injection Hp as ->. rewrite starts_with_cons.
    replace (c =? d)%N with false; [reflexivity|].
    symmetry. apply N.eqb_neq. intros ->. apply Hn. now left.
Qed.

(** X6: text without an ampersand holds no entity, and [decodeHtml]
    returns it unchanged. *)
Theorem decodeHtml_no_ampersand html :
  ~ In 38%N html -> decodeHtml html = html.
Proof.
  intros H. unfold decodeHtml.
  now rewrite !(replaceLiteral_absent _ _ html 38%N).
Qed.

Lemma decodeHtml_no_ampersand_witness :
  ~ In 38%N (lit "if (a < b) { return; }")
  /\ decodeHtml (lit "if (a < b) { return; }") = lit "if (a < b) { return; }".
Proof.
  assert (H : ~ In 38%N (lit "if (a < b) { return; }"))
    by (cbn; intuition discriminate).
  split; [exact H|]. exact (decodeHtml_no_ampersand _ H).
Defined.

(** The reserved characters may all occur; only the text of an entity
    may not. *)
Lemma decodeHtml_escapeHtml_witness :
  entity_free (lit "R&D <draft> 'v2' &amp;") = true
  /\ decodeHtml (escapeHtml (lit "R&D <draft> 'v2' &amp;"))
     = lit "R&D <draft> 'v2' &amp;".
Proof.
  split; [reflexivity|]. apply decodeHtml_escapeHtml. reflexivity.
Defined.

(** ** [generateId] *)

Lemma replaceAll_plus_absent p h s :
  (forall c, In c s -> p c = false) ->
  replaceAll (exec_plus p) (fun _ => [h]) s = s.
Proof.
  induction s as [|c s IH]; intros H; [reflexivity|].
  rewrite replaceAll_eq by auto. cbn [exec_plus].
  rewrite (H c (or_introl eq_refl)). f_equal.
  apply IH. intros d Hd. apply H. now right.
Qed.

Lemma collapse_hyphens_fixed s :
  no_double_hyphen s = true ->
  replaceAll (exec_plus is_hyphen) (fun _ => [hyphen]) s = s.
Proof.
  induction s as [|c s IH]; intros H; [reflexivity|].
  rewrite no_double_hyphen_cons in H. apply andb_true_iff in H as [Hc Hs].
  rewrite replaceAll_eq by auto. cbn [exec_plus].
  destruct (is_hyphen c) eqn:E.
  - cbn [andb] in Hc. apply negb_true_iff in Hc.
    assert (Hc' : c = hyphen) by (unfold is_hyphen in E; now apply N.eqb_eq in E).
    destruct s as [|d s']; cbn [take_while drop_while hd_error] in *.
    + now rewrite Hc'.
    + rewrite Hc. cbn [app]. rewrite Hc'. f_equal.
      rewrite <- (IH Hs) at 2. reflexivity.
  - f_equal. now apply IH.
Qed.

Lemma id_char_kept c : id_char c = true -> not_word_space_hyphen c = false.
Proof.
  intros H. unfold not_word_space_hyphen. apply negb_false_iff.
  unfold id_char in H. unfold is_word.
  repeat (apply orb_true_iff in H as [H|H]); rewrite H;
    now rewrite ?orb_true_r.
Qed.

Lemma filter_all {A} (f : A -> bool) l :
  (forall x, In x l -> f x = true) -> filter f l = l.
Proof.
  induction l as [|x l IH]; intros H; [reflexivity|].
  cbn. rewrite (H x (or_introl eq_refl)). f_equal.
  apply IH. intros y Hy. apply H. now right.
Qed.

Lemma asciiLower_fixes_ids s : forallb id_char s = true -> asciiLower s = s.
Proof.
  intros H. unfold asciiLower.
  rewrite <- (map_id s) at 2. apply map_ext_in. intros c Hc.
  rewrite forallb_forall in H. specialize (H c Hc).
  destruct (is_upper c) eqn:E; [|reflexivity].
  exfalso. unfold id_char, is_lower, is_digit, is_hyphen, underscore, hyphen in H.
  unfold is_upper in E. bool_prop H. bool_prop E. lia.
Qed.

Section GenerateIdMore.
Variable toLowerCase : jsstring -> jsstring.

(** Without any assumption on [toLowerCase]: the steps before [trim]
    leave no white space. *)
Lemma generateId_untrimmed text :
  generateId toLowerCase text
  = replaceAll (exec_plus is_hyphen) (fun _ => [hyphen])
      (replaceAll (exec_plus is_space) (fun _ => [hyphen])
         (replaceAll (exec_class not_word_space_hyphen) (fun _ => [])
            (toLowerCase text))).
Proof.
  unfold generateId. apply trim_no_space, Forall_forall. intros c Hc.
  apply collapse_chars in Hc as [->|[Hc _]]; [reflexivity|].
  apply collapse_chars in Hc as [->|[_ Hs]]; [reflexivity | exact Hs].
Qed.

Lemma collapse_nil p h s :
  replaceAll (exec_plus p) (fun _ => [h]) s = [] <-> s = [].
Proof.
  split; [|now intros ->].
  intros H. pose proof (collapse_head p h s) as Hh. rewrite H in Hh.
  destruct s; [reflexivity | discriminate].
Qed.

(** X7: the identifier is empty exactly when the lower-cased heading
    text holds no word character, no white space and no hyphen: an empty
    heading, but also one of punctuation or of letters outside
    [A-Za-z0-9_] only. *)
Theorem generateId_empty_iff text :
  generateId toLowerCase text = []
  <-> forallb not_word_space_hyphen (toLowerCase text) = true.
Proof.
  rewrite generateId_untrimmed, !collapse_nil, replaceAll_class_delete.
  induction (toLowerCase text) as [|c s IH]; [now split|].
  cbn [filter forallb]. destruct (not_word_space_hyphen c); cbn [negb andb].
  - exact IH.
  - split; discriminate.
Qed.

(** The identifier holds no reserved markup character, whatever
    [toLowerCase] does: they are not word characters. *)
Lemma generateId_chars text c :
  In c (generateId toLowerCase text) ->
  c = hyphen \/ (is_word c = true /\ In c (toLowerCase text)).
Proof.
  rewrite generateId_untrimmed. intros H.
  apply collapse_chars in H as [->|[H _]]; [now left|].
  apply collapse_chars in H as [->|[H Hs]]; [now left|].
  rewrite replaceAll_class_delete in H. apply filter_In in H as [Hin H].
  unfold not_word_space_hyphen in H. rewrite negb_involutive in H.
  rewrite Hs in H. rewrite orb_false_r in H.
  apply orb_true_iff in H as [H|H].
  - right. now split.
  - left. unfold is_hyphen in H. now apply N.eqb_eq in H.
Qed.

Hypothesis lower_no_upper :
  forall s c, In c (toLowerCase s) -> is_upper c = false.
Hypothesis lower_fixes_ids :
  forall s, forallb id_char s = true -> toLowerCase s = s.

(** X8: an identifier is its own identifier: generating the identifier
    of an identifier changes nothing. *)
Theorem generateId_idempotent text :
  generateId toLowerCase (generateId toLowerCase text)
  = generateId toLowerCase text.
Proof.
  set (id := generateId toLowerCase text).
  assert (Hchars : forall c, In c id -> id_char c = true).
  { intros c Hc. unfold id in Hc.
    rewrite (generateId_collapsed toLowerCase lower_no_upper) in Hc.
    exact (collapsed_chars toLowerCase lower_no_upper text c Hc). }
  assert (Hdouble : no_double_hyphen id = true).
  { unfold id. rewrite (generateId_collapsed toLowerCase lower_no_upper).
    apply collapse_hyphens_no_double. }
  rewrite generateId_untrimmed.
  rewrite lower_fixes_ids by (apply forallb_forall; exact Hchars).
  rewrite replaceAll_class_delete.
  rewrite filter_all
    by (intros c Hc; now rewrite (id_char_kept c (Hchars c Hc))).
  rewrite (replaceAll_plus_absent is_space)
    by (intros c Hc; now apply id_char_not_space, Hchars).
  now apply collapse_hyphens_fixed.
Qed.
End GenerateIdMore.

Lemma generateId_idempotent_witness :
  (forall s c, In c (asciiLower s) -> is_upper c = false)
  /\ (forall s, forallb id_char s = true -> asciiLower s = s)
  /\ generateId asciiLower (generateId asciiLower (lit " Getting Started! "))
     = generateId asciiLower (lit " Getting Started! ").
Proof.
  split; [exact asciiLower_no_upper|].
  split; [exact asciiLower_fixes_ids|].
  exact (generateId_idempotent asciiLower asciiLower_no_upper
           asciiLower_fixes_ids (lit " Getting Started! ")).
Defined.

(** ** [validateMarkdown] *)

(** X9: content is accepted exactly when it is not blank and no longer
    than the ceiling; blank content is reported as empty, also when it is
    too long, and other content over the ceiling as too large. *)
Theorem validateMarkdown_verdict content :
  (valid (validateMarkdown content) = true
   <-> trim content <> [] /\ (Z.of_nat (length content) <= MAX_LENGTH)%Z)
  /\ (trim content = [] ->
      validateMarkdown content
      = {| valid := false; error := Some (lit "Markdown content is empty") |})
  /\ (trim content <> [] -> (MAX_LENGTH < Z.of_nat (length content))%Z ->
      validateMarkdown content
      = {| valid := false;
           error := Some (lit "Markdown file is too large (max 10MB)") |}).
Proof.
  assert (Hblank : trim content = [] ->
            jsstring_eqb content [] || (length (trim content) =? 0)%nat = true).
  { intros ->. apply orb_true_r. }
  assert (Hfull : trim content <> [] ->
            jsstring_eqb content [] || (length (trim content) =? 0)%nat = false).
  { intros H. apply orb_false_iff. split.
    - apply not_true_is_false. intros E. apply jsstring_eqb_eq in E.
      subst. now apply H.
    - destruct (trim content); [congruence | reflexivity]. }
  unfold validateMarkdown. repeat split.
  - destruct (trim content) eqn:E; [|discriminate].
    rewrite Hblank in H by reflexivity. discriminate.
  - destruct (list_eq_dec N.eq_dec (trim content) []) as [E|E].
    + rewrite (Hblank E) in H. discriminate.
    + rewrite (Hfull E) in H.
      destruct (_ >? _)%Z eqn:G; [discriminate|].
      rewrite Z.gtb_ltb in G. apply Z.ltb_ge in G. exact G.
  - intros [Ht Hl]. rewrite (Hfull Ht).
    replace (_ >? _)%Z with false; [reflexivity|].
    symmetry. rewrite Z.gtb_ltb. apply Z.ltb_ge. exact Hl.
  - intros E. now rewrite (Hblank E).
  - intros Ht Hl. rewrite (Hfull Ht).
    replace (_ >? _)%Z with true; [reflexivity|].
    symmetry. rewrite Z.gtb_ltb. now apply Z.ltb_lt.
Qed.

(** ** [parseMarkdown] *)


(** ** The tags of the templates *)

Lemma markup_skeleton_app a b :
  markup_skeleton (a ++ b) = markup_skeleton a ++ markup_skeleton b.
Proof. apply filter_app. Qed.

Lemma markup_skeleton_none s :
  (forall c, In c s -> is_angle c = false) -> markup_skeleton s = [].
Proof.
  induction s as [|c s IH]; intros H; [reflexivity|].
  unfold markup_skeleton in *. cbn [filter].
  rewrite (H c (or_introl eq_refl)). apply IH. intros d Hd. apply H. now right.
Qed.

Lemma markup_skeleton_escaped text : markup_skeleton (escapeHtml text) = [].
Proof.
  apply markup_skeleton_none. intros c Hc.
  apply escapeHtml_no_markup in Hc as (H1 & H2 & _).
  unfold is_angle. apply orb_false_iff. split; now apply N.eqb_neq.
Qed.

Lemma markup_skeleton_segments gs :
  markup_skeleton (render_segments gs) = segments_skeleton gs.
Proof.
  induction gs as [|g gs IH]; [reflexivity|].
  unfold render_segments, segments_skeleton in *. cbn [flat_map].
  rewrite markup_skeleton_app, IH. f_equal.
  destruct g; [reflexivity | apply markup_skeleton_escaped].
Qed.

Lemma getFooterTemplate_segments title :
  getFooterTemplate true title = render_segments (footer_segments title).
Proof.
  unfold getFooterTemplate, footer_segments, render_segments.
  cbn [negb flat_map segment_text].
  repeat first [rewrite <- app_assoc | rewrite <- app_comm_cons].
  now rewrite app_nil_r.
Qed.

(** X10: without page numbers the header and the footer are the empty
    span, whatever the title.  With page numbers the footer shows the
    escaped title, and its tags are the same for every title: the title
    cannot add markup. *)
Theorem getFooterTemplate_title_safe title :
  getHeaderTemplate false = EMPTY_SPAN
  /\ getFooterTemplate false title = EMPTY_SPAN
  /\ includes (escapeHtml (if truthy title then str title else []))
       (getFooterTemplate true title) = true
  /\ markup_skeleton (getFooterTemplate true title) = tags 10.
Proof.
  split; [reflexivity|]. split; [reflexivity|].
  rewrite getFooterTemplate_segments. split.
  - unfold footer_segments, render_segments. cbn [flat_map segment_text].
    apply includes_mid.
  - rewrite markup_skeleton_segments. reflexivity.
Qed.

Section CoverPageMore.
Variable toLocaleDateString : Z -> jsstring.

(** X11: the tags of the cover page depend on which fields are present,
    not on what they say: two front matters with the same fields present
    give cover pages with the same tags. *)
Theorem generateCoverPage_tags frontMatter other :
  truthy (fm_title frontMatter) = truthy (fm_title other) ->
  truthy (fm_subtitle frontMatter) = truthy (fm_subtitle other) ->
  truthy (fm_author frontMatter) = truthy (fm_author other) ->
  date_truthy (fm_date frontMatter) = date_truthy (fm_date other) ->
  markup_skeleton (generateCoverPage toLocaleDateString frontMatter)
  = markup_skeleton (generateCoverPage toLocaleDateString other).
Proof.
  intros Ht Hs Ha Hd.
  rewrite !generateCoverPage_segments. unfold cover_built, cover_segments.
  rewrite Ht, Hs, Ha, Hd.
  destruct (truthy (fm_title other)), (truthy (fm_subtitle other)),
    (truthy (fm_author other)), (date_truthy (fm_date other));
    cbn [orb andb app]; rewrite ?markup_skeleton_segments;
    cbv [segments_skeleton flat_map app]; reflexivity.
Qed.
End CoverPageMore.

Lemma generateCoverPage_tags_witness :
  let a := {| fm_title := Some (lit "<b>Bold</b> & co"); fm_subtitle := None;
              fm_author := Some (lit "A <a@b.c>"); fm_date := None |} in
  let b := {| fm_title := Some (lit "Plain"); fm_subtitle := None;
              fm_author := Some (lit "B"); fm_date := None |} in
  truthy (fm_title a) = truthy (fm_title b)
  /\ truthy (fm_subtitle a) = truthy (fm_subtitle b)
  /\ truthy (fm_author a) = truthy (fm_author b)
  /\ date_truthy (fm_date a) = date_truthy (fm_date b)
  /\ markup_skeleton (generateCoverPage (fun _ => []) a)
     = markup_skeleton (generateCoverPage (fun _ => []) b).
Proof.
  intros a b. do 4 (split; [reflexivity|]).
  exact (generateCoverPage_tags (fun _ => []) a b eq_refl eq_refl eq_refl eq_refl).
Defined.

Lemma word_not_reserved c :
  is_hyphen c || is_word c = true -> is_reserved c = false /\ is_angle c = false.
Proof.
  intros Hw. split; apply not_true_is_false; intros Hr.
  - unfold is_reserved in Hr. unfold is_hyphen, hyphen, is_word, is_upper,
      is_lower, is_digit, underscore in Hw.
    bool_prop Hr. bool_prop Hw. lia.
  - unfold is_angle in Hr. unfold is_hyphen, hyphen, is_word, is_upper,
      is_lower, is_digit, underscore in Hw.
    bool_prop Hr. bool_prop Hw. lia.
Qed.

Section ParseMarkdownMore.
Variable toLowerCase : jsstring -> jsstring.
Variable matter : jsstring -> FrontMatter * jsstring.
Variable lexer : jsstring -> list Token.
Variable originalHeading : jsstring -> nat -> jsstring -> jsstring.

Let parsed := parseMarkdown toLowerCase matter lexer originalHeading.

(** Every entry is the entry of a heading of depth 1 to 3. *)
Lemma parseMarkdown_toc_origin content e :
  In e (pm_toc (parsed content)) ->
  exists raw, e = {| toc_id := generateId toLowerCase raw; toc_title := raw;
                     toc_level := toc_level e |}
              /\ (toc_level e <= 3)%nat.
Proof.
  unfold parsed, parseMarkdown. destruct (matter content) as [fm md].
  rewrite render_spec. cbn [pm_toc app]. intros He.
  apply in_map_iff in He as ([[text depth] raw] & <- & He).
  apply filter_In in He as [_ Hd]. cbn [entry_of toc_level].
  exists raw. split; [reflexivity | now apply Nat.leb_le].
Qed.

Lemma generateId_word_chars text c :
  In c (generateId toLowerCase text) -> is_hyphen c || is_word c = true.
Proof.
  intros Hc. apply generateId_chars in Hc as [->|[Hc _]];
    [reflexivity | now rewrite Hc, orb_true_r].
Qed.

(** X12: in every table of contents the identifier of an entry is the
    identifier generated from its title, its level is at most 3, and the
    identifier holds hyphens and word characters only, so none of the
    reserved markup characters. *)
Theorem parseMarkdown_toc_entries content :
  Forall (fun e =>
            toc_id e = generateId toLowerCase (toc_title e)
            /\ (toc_level e <= 3)%nat
            /\ forallb (fun c => is_hyphen c || is_word c) (toc_id e) = true
            /\ forallb (fun c => negb (is_reserved c)) (toc_id e) = true)
    (pm_toc (parsed content)).
Proof.
  apply Forall_forall. intros e He.
  apply parseMarkdown_toc_origin in He as (raw & -> & Hlevel).
  cbn [toc_id toc_title toc_level] in *.
  repeat split.
  - exact Hlevel.
  - apply forallb_forall. apply generateId_word_chars.
  - apply forallb_forall. intros c Hc. apply negb_true_iff.
    apply word_not_reserved. exact (generateId_word_chars _ _ Hc).
Qed.

Lemma parseMarkdown_toc_ids_plain content :
  Forall (fun item => markup_skeleton (toc_id item) = [])
    (pm_toc (parsed content)).
Proof.
  apply Forall_forall. intros e He.
  apply parseMarkdown_toc_origin in He as (raw & -> & _). cbn [toc_id].
  apply markup_skeleton_none. intros c Hc.
  apply word_not_reserved. exact (generateId_word_chars _ _ Hc).
Qed.
End ParseMarkdownMore.

(** ** [generateToc] *)

Lemma uint_digits_no_angle d c :
  In c (lit (NilEmpty.string_of_uint d)) -> is_angle c = false.
Proof.
  induction d; cbn; try (intros [<-|H]; [reflexivity | now apply IHd]).
  intros [].
Qed.

Lemma decimal_no_angle n : markup_skeleton (decimal n) = [].
Proof.
  apply markup_skeleton_none. intros c. unfold decimal, NilZero.string_of_uint.
  destruct (Nat.to_uint n); try apply uint_digits_no_angle.
  cbn. intros [<-|[]]. reflexivity.
Qed.

Lemma markup_skeleton_cons c s :
  markup_skeleton (c :: s) = (if is_angle c then [c] else []) ++ markup_skeleton s.
Proof. unfold markup_skeleton. cbn [filter]. now destruct (is_angle c). Qed.

Ltac skeleton_split :=
  repeat first [rewrite markup_skeleton_app | rewrite markup_skeleton_cons].

Lemma toc_entry_tags item :
  markup_skeleton (toc_id item) = [] ->
  markup_skeleton (toc_entry item) = tags 6.
Proof.
  intros Hid. unfold toc_entry. skeleton_split.
  rewrite Hid, decimal_no_angle, markup_skeleton_escaped. reflexivity.
Qed.

Lemma tags_add n m : tags n ++ tags m = tags (n + m).
Proof.
  unfold tags. now rewrite repeat_app, concat_app.
Qed.

Lemma join_entries_tags toc :
  Forall (fun item => markup_skeleton (toc_id item) = []) toc ->
  markup_skeleton (join [nl] (map toc_entry toc)) = tags (6 * length toc).
Proof.
  induction 1 as [|item toc Hi Hall IH]; [reflexivity|].
  cbn [map join]. destruct toc as [|item' toc'].
  - cbn [map]. now rewrite toc_entry_tags.
  - cbn [map] in *. rewrite !markup_skeleton_app, IH, toc_entry_tags by exact Hi.
    change (markup_skeleton [nl]) with (@nil N). cbn [app].
    rewrite tags_add. f_equal. cbn [length]. lia.
Qed.

Lemma join_includes sep (part : jsstring) parts :
  In part parts -> includes part (join sep parts) = true.
Proof.
  induction parts as [|x l IH]; intros Hin; [destruct Hin|].
  cbn [join]. destruct l as [|y l].
  - destruct Hin as [->|[]].
    rewrite <- (app_nil_r part) at 2. apply includes_prefix.
  - destruct Hin as [->|Hin].
    + apply includes_prefix.
    + apply includes_app_r, includes_app_r. now apply IH.
Qed.

Lemma includes_skip p c s : includes p s = true -> includes p (c :: s) = true.
Proof. intros H. rewrite includes_cons, H. apply orb_true_r. Qed.

Lemma generateToc_tags toc :
  Forall (fun item => markup_skeleton (toc_id item) = []) toc ->
  markup_skeleton (generateToc toc)
  = match toc with [] => [] | _ :: _ => tags (6 + 6 * length toc) end.
Proof.
  intros Hids. destruct toc as [|first rest]; [reflexivity|].
  unfold generateToc. cbn [length Nat.eqb]. cbv zeta. skeleton_split.
  rewrite (join_entries_tags (first :: rest) Hids). cbn [length].
  transitivity (tags 4 ++ tags (6 * S (length rest)) ++ tags 2);
    [|rewrite !tags_add; f_equal; lia].
  generalize (tags (6 * S (length rest))). intros J. reflexivity.
Qed.

(** X13: the table of contents block is empty exactly for the empty
    list, and otherwise holds every entry: its level class, its link
    target and its escaped title. *)
Theorem generateToc_entries toc :
  (generateToc toc = [] <-> toc = [])
  /\ (forall item, In item toc -> includes (toc_entry item) (generateToc toc) = true).
Proof.
  split.
  - destruct toc; [now split|]. split; discriminate.
  - intros item Hin. destruct toc as [|first rest]; [destruct Hin|].
    unfold generateToc. cbn [length Nat.eqb]. cbv zeta.
    pose proof (join_includes [nl] (toc_entry item) (map toc_entry (first :: rest))
                  (in_map toc_entry _ _ Hin)) as Hjoin.
    repeat lazymatch goal with
           | |- includes _ (join _ _ ++ _) = true => fail
           | |- includes _ (_ :: _) = true => apply includes_skip
           | |- includes _ (_ ++ _) = true => apply includes_app_r
           end.
    now apply includes_app_l.
Qed.

Section TocOfDocument.
Variable toLowerCase : jsstring -> jsstring.
Variable matter : jsstring -> FrontMatter * jsstring.
Variable lexer : jsstring -> list Token.
Variable originalHeading : jsstring -> nat -> jsstring -> jsstring.

(** X14: the table of contents block of every parsed document consists
    of 6 tags and 6 more for each entry, whatever the headings say:
    neither a title nor an identifier adds or breaks a tag. *)
Theorem parseMarkdown_toc_block content :
  let toc := pm_toc (parseMarkdown toLowerCase matter lexer originalHeading content) in
  markup_skeleton (generateToc toc)
  = match toc with [] => [] | _ :: _ => tags (6 + 6 * length toc) end.
Proof.
  intros toc. apply generateToc_tags. apply parseMarkdown_toc_ids_plain.
Qed.
End TocOfDocument.

(** ** Themes *)

Lemma jsstring_eqb_refl s : jsstring_eqb s s = true.
Proof. now apply jsstring_eqb_eq. Qed.

Lemma starts_with_refl s : starts_with s s = true.
Proof. rewrite <- (app_nil_r s) at 2. apply starts_with_prefix. Qed.

Section ThemeResolution.
Variable baseStyles : jsstring.
Variables darkStyles academicStyles minimalStyles : jsstring.

Let resolve := getTheme baseStyles darkStyles academicStyles minimalStyles.

(** X15: what a name resolves to, for every name: the bundle of that
    name when it is one of the available themes; the member of that name
    which the object literal inherits, when there is one; and the default
    bundle for every other name.  Every bundle's style sheet begins with
    the base styles. *)
Theorem getTheme_resolution name :
  match resolve (Some name) with
  | Found t =>
      starts_with baseStyles (theme_css t) = true
      /\ ((In name getAvailableThemes /\ theme_name t = name)
          \/ (~ In name getAvailableThemes
              /\ ~ In name object_prototype_members
              /\ t = githubTheme baseStyles))
  | Inherited member =>
      member = name
      /\ In name object_prototype_members
      /\ ~ In name getAvailableThemes
  end.
Proof.
  unfold resolve, getTheme, themes_get, object_get, themes_own.
  destruct (jsstring_eqb name (lit "github")) eqn:E1;
    [apply jsstring_eqb_eq in E1; subst name; split;
     [apply starts_with_refl | left; split; [cbn; tauto | reflexivity]]|].
  destruct (jsstring_eqb name (lit "github-dark")) eqn:E2;
    [apply jsstring_eqb_eq in E2; subst name; split;
     [apply starts_with_prefix | left; split; [cbn; tauto | reflexivity]]|].
  destruct (jsstring_eqb name (lit "academic")) eqn:E3;
    [apply jsstring_eqb_eq in E3; subst name; split;
     [apply starts_with_prefix | left; split; [cbn; tauto | reflexivity]]|].
  destruct (jsstring_eqb name (lit "minimal")) eqn:E4;
    [apply jsstring_eqb_eq in E4; subst name; split;
     [apply starts_with_prefix | left; split; [cbn; tauto | reflexivity]]|].
  assert (Hnot : ~ In name getAvailableThemes).
  { intros [<-|[<-|[<-|[<-|[]]]]].
    - now rewrite jsstring_eqb_refl in E1.
    - now rewrite jsstring_eqb_refl in E2.
    - now rewrite jsstring_eqb_refl in E3.
    - now rewrite jsstring_eqb_refl in E4. }
  destruct (existsb (jsstring_eqb name) object_prototype_members) eqn:Ep.
  - apply existsb_exists in Ep as (member & Hin & Heq).
    apply jsstring_eqb_eq in Heq. subst member. now repeat split.
  - split; [apply starts_with_refl|]. right. repeat split; [exact Hnot|].
    intros Hin. apply not_true_iff_false in Ep. apply Ep.
    apply existsb_exists. exists name. split; [exact Hin | apply jsstring_eqb_refl].
Qed.

(** X16: a theme the command line accepts resolves to the bundle of
    that name (of [github] when none is given) and never to an inherited
    member, and the highlighter gets one of its own two themes: the dark
    one for [github-dark] only. *)
Theorem accepted_theme_resolves theme :
  theme_accepted theme = true ->
  let name := if truthy theme then str theme else lit "github" in
  (exists t, resolve theme = Found t /\ theme_name t = name)
  /\ mapThemeToHighlightTheme theme
     = Found (if jsstring_eqb name (lit "github-dark")
              then lit "github-dark" else lit "github-light").
Proof.
  intros H name. unfold theme_accepted in H.
  apply existsb_exists in H as (known & Hin & Heq).
  apply jsstring_eqb_eq in Heq. fold name in Heq. subst known.
  assert (Hres : resolve theme = resolve (Some name)).
  { subst name. destruct theme as [[|c s]|]; reflexivity. }
  assert (Hmap : mapThemeToHighlightTheme theme = mapThemeToHighlightTheme (Some name)).
  { subst name. destruct theme as [[|c s]|]; reflexivity. }
  rewrite Hres, Hmap. clearbody name. clear Hres Hmap.
  destruct Hin as [<-|[<-|[<-|[<-|[]]]]]; (split; [eexists; split|]; reflexivity).
Qed.
End ThemeResolution.

Lemma accepted_theme_resolves_witness :
  theme_accepted (Some (lit "academic")) = true
  /\ (exists t, getTheme [] [] [] [] (Some (lit "academic")) = Found t
                /\ theme_name t = lit "academic")
  /\ mapThemeToHighlightTheme (Some (lit "academic")) = Found (lit "github-light").
Proof.
  split; [reflexivity|].
  exact (accepted_theme_resolves [] [] [] [] (Some (lit "academic")) eq_refl).
Defined.

(** ** The conversion as a whole *)

Lemma validateMarkdown_error content :
  valid (validateMarkdown content) = false ->
  error (validateMarkdown content) <> None.
Proof.
  unfold validateMarkdown.
  destruct (_ || _); [discriminate|].
  destruct (_ >? _)%Z; discriminate.
Qed.

Section ConverterMore.
Variable stat : jsstring -> StatOutcome.
Variable readFile : jsstring -> Outcome jsstring.
Variable parseMarkdown_ : jsstring -> Outcome ParsedMarkdown.
Variable processCodeBlocks : jsstring -> Lookup jsstring -> Outcome jsstring.
Variable generateHtml_ : ParsedMarkdown -> PdfOptions -> jsstring.
Variable mkdir : jsstring -> Outcome unit.
Variable generatePdf : jsstring -> jsstring -> PdfOptions -> option jsstring -> Outcome unit.
Variable addMetadata : jsstring -> FrontMatter -> Outcome unit.
Variable getPdfStats : jsstring -> Outcome PdfStats.
Variables path_dirname path_dir path_name : jsstring -> jsstring.
Variable path_join : jsstring -> jsstring -> jsstring.
Variables startTime endTime : Z.

Let convert :=
  convertMarkdownToPdf stat readFile parseMarkdown_ processCodeBlocks
    generateHtml_ mkdir generatePdf addMetadata getPdfStats
    path_dirname path_dir path_name path_join startTime endTime.

Ltac run_conversion :=
  unfold convert, convertMarkdownToPdf, try_catch, bind, validateInputFile,
    call, ret;
  repeat match goal with
         | |- context [match stat ?p with _ => _ end] =>
             destruct (stat p); cbn [app]
         | |- context [negb (valid ?v)] =>
             let Hv := fresh "Hv" in destruct (valid v) eqn:Hv; cbn [negb]
         | |- context [truthy (opt_css ?o)] =>
             destruct (truthy (opt_css o)); cbn [app]
         | |- context [match ?r with Return _ => _ | Throw _ => _ end] =>
             destruct r; cbn [app]
         end.

(** X17: a conversion never throws, whatever its collaborators do: it
    returns a result.  A success carries the output path and the
    statistics and no error; a failure carries an error, an empty output
    path and no statistics. *)
Theorem convert_result_shape options :
  exists result calls,
    convert options [] = (Return result, calls)
    /\ (success result = true ->
        res_error result = None
        /\ res_stats result <> None
        /\ outputPath result
           = if truthy (opt_output options) then str (opt_output options)
             else getDefaultOutputPath path_dir path_name path_join
                    (opt_input options))
    /\ (success result = false ->
        outputPath result = []
        /\ res_stats result = None
        /\ res_error result <> None).
Proof.
  run_conversion;
    (eexists _, _; split; [reflexivity|]; cbn; split; intros Hs;
     try discriminate Hs; repeat split; try discriminate;
     try (now apply validateMarkdown_error)).
Qed.

(** X18: the collaborators are called in one order, each only after
    the ones before it have returned: the calls of a conversion are a
    prefix of the full order, and a success has made them all. *)
Theorem convert_call_order options :
  exists result calls,
    convert options [] = (Return result, calls)
    /\ (exists rest, call_order options = calls ++ rest)
    /\ (success result = true -> calls = call_order options).
Proof.
  unfold call_order.
  run_conversion;
    (eexists _, _; split; [reflexivity|]; cbn; split;
     [eexists; reflexivity | intros Hs; try discriminate Hs; reflexivity]).
Qed.

(** X19: what is wrong with the input path decides the error, and
    nothing but the file's status is looked at: a path that does not
    exist and a path that is no file give their own messages, another
    failure of the status call gives its own. *)
Theorem convert_input_errors options :
  match stat (opt_input options) with
  | IsFile => True
  | NotFile =>
      convert options []
      = (Return (failure (Some (lit "Input path is not a file: "
                                  ++ opt_input options))), [CallStat])
  | NoEntry =>
      convert options []
      = (Return (failure (Some (lit "Input file not found: "
                                  ++ opt_input options))), [CallStat])
  | StatFailed (AnError message) =>
      convert options [] = (Return (failure (Some message)), [CallStat])
  | StatFailed NotAnError =>
      convert options []
      = (Return (failure (Some (lit "Unknown error occurred"))), [CallStat])
  end.
Proof.
  unfold convert, convertMarkdownToPdf, try_catch, bind, validateInputFile.
  destruct (stat (opt_input options)) as [| | |[message|]]; [exact I|..]; reflexivity.
Qed.

(** X20: a custom style sheet that cannot be read does not fail the
    conversion: the page is generated with an empty custom style sheet
    and the conversion goes on to its end, with all its calls. *)
Theorem convert_unreadable_css options content parsed highlighted e stats :
  stat (opt_input options) = IsFile ->
  readFile (opt_input options) = Return content ->
  valid (validateMarkdown content) = true ->
  parseMarkdown_ content = Return parsed ->
  processCodeBlocks (pm_html parsed) (mapThemeToHighlightTheme (opt_theme options))
  = Return highlighted ->
  truthy (opt_css options) = true ->
  readFile (str (opt_css options)) = Throw e ->
  let page := {| pm_content := pm_content parsed;
                 pm_frontMatter := pm_frontMatter parsed;
                 pm_toc := pm_toc parsed;
                 pm_html := highlighted |} in
  let html := generateHtml_ page
                {| opt_input := opt_input options;
                   opt_output := opt_output options;
                   opt_theme := opt_theme options;
                   opt_toc := opt_toc options;
                   opt_css := Some [] |} in
  let out := if truthy (opt_output options) then str (opt_output options)
             else getDefaultOutputPath path_dir path_name path_join
                    (opt_input options) in
  mkdir (path_dirname out) = Return tt ->
  generatePdf html out options (fm_title (pm_frontMatter parsed)) = Return tt ->
  addMetadata out (pm_frontMatter parsed) = Return tt ->
  getPdfStats out = Return stats ->
  convert options []
  = (Return {| success := true; outputPath := out; res_error := None;
               res_stats := Some {| st_pages := pages stats;
                                    st_size := size stats;
                                    st_duration := endTime - startTime |} |},
     call_order options).
Proof.
  intros Hstat Hread Hv Hparse Hcode Hcss Hsheet page html out Hmkdir Hpdf Hmeta Hstats.
  unfold convert, convertMarkdownToPdf, try_catch, bind, validateInputFile,
    call, ret, call_order.
  rewrite Hstat, Hread, Hv, Hparse. cbn [negb app].
  rewrite Hcode, Hcss, Hsheet. cbn [app pm_frontMatter].
  subst page html out. cbn [pm_frontMatter] in *.
  rewrite Hmkdir.
  match goal with
  | |- context [generatePdf ?a ?b ?c ?d] =>
      replace (generatePdf a b c d) with (@Return unit tt)
        by (symmetry; exact Hpdf)
  end.
  rewrite Hmeta, Hstats. reflexivity.
Qed.
End ConverterMore.

Lemma convert_unreadable_css_witness :
  let options :=
    {| opt_input := lit "a.md"; opt_output := None; opt_theme := None;
       opt_toc := true; opt_css := Some (lit "missing.css") |} in
  let readFile := fun p : jsstring =>
    if jsstring_eqb p (lit "a.md") then Return (lit "# Title")
    else Throw NotAnError in
  let parsed :=
    {| pm_content := lit "# Title";
       pm_frontMatter := {| fm_title := None; fm_subtitle := None;
                            fm_author := None; fm_date := None |};
       pm_toc := []; pm_html := lit "<h1>Title</h1>" |} in
  readFile (str (opt_css options)) = Throw NotAnError
  /\ exists result,
       convertMarkdownToPdf (fun _ => IsFile) readFile
         (fun _ => Return parsed) (fun html _ => Return html)
         (fun _ _ => []) (fun _ => Return tt)
         (fun _ _ _ _ => Return tt) (fun _ _ => Return tt)
         (fun _ => Return {| pages := 1; size := 1000 |})
         (fun p => p) (fun p => p) (fun p => p)
         (fun a b => a ++ b) 0%Z 5%Z options []
       = (Return result, call_order options)
       /\ success result = true.
Proof.
  intros options readFile parsed. split; [reflexivity|].
  eexists. split.
  - exact (convert_unreadable_css (fun _ => IsFile) readFile
             (fun _ => Return parsed) (fun html _ => Return html)
             (fun _ _ => []) (fun _ => Return tt)
             (fun _ _ _ _ => Return tt) (fun _ _ => Return tt)
             (fun _ => Return {| pages := 1; size := 1000 |})
             (fun p => p) (fun p => p) (fun p => p)
             (fun a b => a ++ b) 0%Z 5%Z options (lit "# Title") parsed
             (lit "<h1>Title</h1>") NotAnError {| pages := 1; size := 1000 |}
             eq_refl eq_refl eq_refl eq_refl eq_refl eq_refl eq_refl
             eq_refl eq_refl eq_refl eq_refl).
  - reflexivity.
Defined.

(** ** [combineMarkdownPages] *)

Lemma includes_suffix a p s : includes (a ++ p) s = true -> includes p s = true.
Proof.
  intros H. apply includes_inv in H as (x & y & ->).
  rewrite <- app_assoc, app_assoc. apply includes_mid.
Qed.

Lemma mark_pages_nth pages : forall first i page,
  nth_error pages i = Some page ->
  In (pageMarker (first + i) ++ page) (mark_pages first pages).
Proof.
  induction pages as [|p pages IH]; intros first i page H.
  - destruct i; discriminate.
  - destruct i as [|i]; cbn [nth_error mark_pages] in *.
    + injection H as ->. left. now rewrite Nat.add_0_r.
    + right. rewrite <- Nat.add_succ_comm. now apply IH.
Qed.

(** X21: no page is lost when the pages are combined: every page is in
    the result, and when there are two pages or more each page stands
    behind the comment with its number, counted from 1. *)
Theorem combineMarkdownPages_pages pages i page :
  nth_error pages i = Some page ->
  includes page (combineMarkdownPages pages) = true
  /\ ((2 <= length pages)%nat ->
      includes (pageMarker i ++ page) (combineMarkdownPages pages) = true).
Proof.
  intros H.
  assert (Hmarked : (2 <= length pages)%nat ->
            includes (pageMarker i ++ page) (combineMarkdownPages pages) = true).
  { intros Hlen. unfold combineMarkdownPages.
    destruct pages as [|p0 [|p1 rest]]; cbn [length] in Hlen; try lia.
    cbn [length Nat.eqb]. apply join_includes.
    exact (mark_pages_nth _ 0 i page H). }
  split; [|exact Hmarked].
  destruct pages as [|p0 [|p1 rest]].
  - destruct i; discriminate.
  - destruct i as [|[|i]]; try discriminate. injection H as ->.
    unfold combineMarkdownPages. cbn [length Nat.eqb nth].
    rewrite <- (app_nil_r page) at 2. apply includes_prefix.
  - apply (includes_suffix (pageMarker i)). apply Hmarked. cbn [length]. lia.
Qed.

Lemma combineMarkdownPages_pages_witness :
  let pages := [lit "# One"; lit "text"; lit "# Three"] in
  nth_error pages 1 = Some (lit "text")
  /\ includes (lit "text") (combineMarkdownPages pages) = true
  /\ ((2 <= length pages)%nat ->
      includes (pageMarker 1 ++ lit "text") (combineMarkdownPages pages) = true).
Proof.
  intros pages. split; [reflexivity|].
  exact (combineMarkdownPages_pages pages 1 (lit "text") eq_refl).
Defined.

(** ** [validatePdfFile] *)

Lemma endsWith_iff s suffix :
  endsWith s suffix = true <-> exists stem, s = stem ++ suffix.
Proof.
  unfold endsWith. split.
  - intros H. apply andb_true_iff in H as [_ H]. apply jsstring_eqb_eq in H.
    exists (firstn (length s - length suffix) s).
    transitivity (firstn (length s - length suffix) s
                  ++ skipn (length s - length suffix) s);
      [symmetry; apply firstn_skipn | now rewrite H].
  - intros [stem ->]. rewrite length_app. apply andb_true_iff. split.
    + apply Nat.leb_le. lia.
    + apply jsstring_eqb_eq. rewrite Nat.add_sub.
      rewrite skipn_app, skipn_all, Nat.sub_diag. reflexivity.
Qed.

Section ValidatePdfFileFacts.
Variable toLowerCase : jsstring -> jsstring.
Variable stat : jsstring -> PdfStatOutcome.

(** X22: a path passes exactly when it is a file, its lower-cased name
    ends in [.pdf], and its size is at most 50 * 1024 * 1024 bytes; a
    file of exactly that size passes. *)
Theorem validatePdfFile_verdict filePath :
  validatePdfFile toLowerCase stat filePath = Return tt
  <-> exists size stem,
        stat filePath = PdfStat true size
        /\ toLowerCase filePath = stem ++ lit ".pdf"
        /\ (size <= 52428800)%Z.
Proof.
  unfold validatePdfFile. split.
  - destruct (stat filePath) as [[|] size| |]; cbn [negb]; try discriminate.
    destruct (endsWith (toLowerCase filePath) (lit ".pdf")) eqn:E;
      cbn [negb]; [|discriminate].
    destruct (size >? MAX_PDF_SIZE)%Z eqn:G; [discriminate|]. intros _.
    apply endsWith_iff in E as [stem E]. exists size, stem.
    repeat split; [exact E|].
    rewrite Z.gtb_ltb in G. apply Z.ltb_ge in G. exact G.
  - intros (size & stem & -> & E & Hsize). cbn [negb].
    replace (endsWith (toLowerCase filePath) (lit ".pdf")) with true
      by (symmetry; apply endsWith_iff; now exists stem).
    cbn [negb]. replace (size >? MAX_PDF_SIZE)%Z with false; [reflexivity|].
    symmetry. rewrite Z.gtb_ltb. apply Z.ltb_ge. exact Hsize.
Qed.
End ValidatePdfFileFacts.

(** ** [normalizeLang] *)

Lemma asciiLower_idempotent s : asciiLower (asciiLower s) = asciiLower s.
Proof.
  unfold asciiLower. rewrite map_map. apply map_ext. intros c.
  destruct (is_upper c) eqn:E; [|now rewrite E].
  replace (is_upper (c + 32)) with false; [reflexivity|].
  symmetry. unfold is_upper in *. bool_prop E.
  apply andb_false_iff. right. apply N.leb_gt. lia.
Qed.

Section NormalizeLangFacts.
Variable toLowerCase : jsstring -> jsstring.

Hypothesis lower_no_upper :
  forall s c, In c (toLowerCase s) -> is_upper c = false.

(** X23: a language that lower-cases to [constructor] or to [__proto__]
    is normalised to the member of that name which the map of aliases
    inherits, and not to a name; no other language is.  Every other
    language is normalised to a name without capitals. *)
Theorem normalizeLang_result lang :
  (normalizeLang toLowerCase lang = Inherited (toLowerCase lang)
   <-> toLowerCase lang = lit "constructor" \/ toLowerCase lang = lit "__proto__")
  /\ (forall member,
        normalizeLang toLowerCase lang = Inherited member ->
        member = toLowerCase lang)
  /\ (forall name,
        normalizeLang toLowerCase lang = Found name ->
        forallb (fun c => negb (is_upper c)) name = true
        /\ toLowerCase lang <> lit "constructor"
        /\ toLowerCase lang <> lit "__proto__").
Proof.
  assert (Hkey : forallb (fun c => negb (is_upper c)) (toLowerCase lang) = true).
  { apply forallb_forall. intros c Hc. now rewrite (lower_no_upper _ _ Hc). }
  assert (Hcases :
    (toLowerCase lang = lit "constructor"
     /\ normalizeLang toLowerCase lang = Inherited (toLowerCase lang))
    \/ (toLowerCase lang = lit "__proto__"
        /\ normalizeLang toLowerCase lang = Inherited (toLowerCase lang))
    \/ (toLowerCase lang <> lit "constructor"
        /\ toLowerCase lang <> lit "__proto__"
        /\ exists name, normalizeLang toLowerCase lang = Found name
                        /\ forallb (fun c => negb (is_upper c)) name = true)).
  { unfold normalizeLang, object_get.
    destruct (langMap_own (toLowerCase lang)) as [name|] eqn:Eown.
    - right. right. unfold langMap_own in Eown.
      repeat match type of Eown with
             | (if ?b then _ else _) = _ =>
                 let E := fresh "E" in
                 destruct b eqn:E;
                 [ apply jsstring_eqb_eq in E; rewrite E;
                   injection Eown as <-;
                   split; [discriminate|split; [discriminate|]];
                   eexists; split; reflexivity | ]
             end.
      discriminate.
    - destruct (existsb _ _) eqn:Ep.
      + apply existsb_exists in Ep as (member & Hin & Heq).
        apply jsstring_eqb_eq in Heq. rewrite Heq in *.
        cbn in Hin.
        repeat (destruct Hin as [<-|Hin];
                [first [ now left | now right; left | discriminate Hkey ]|]).
        destruct Hin.
      + right. right.
        assert (Hnot : forall member, In member object_prototype_members ->
                         toLowerCase lang <> member).
        { intros member Hin Heq. apply not_true_iff_false in Ep. apply Ep.
          apply existsb_exists. exists member. split; [exact Hin|].
          now apply jsstring_eqb_eq. }
        split; [apply Hnot; cbn; tauto|].
        split; [apply Hnot; cbn; tauto|].
        eexists. split; [reflexivity | exact Hkey]. }
  split; [|split].
  - split.
    + intros H. destruct Hcases as [[E _]|[[E _]|(_ & _ & name & E & _)]];
        [now left | now right | congruence].
    + intros [E|E]; destruct Hcases as [[_ H]|[[_ H]|(N1 & N2 & _)]];
        solve [exact H | contradiction].
  - intros member H.
    destruct Hcases as [[_ E]|[[_ E]|(_ & _ & name & E & _)]]; congruence.
  - intros name H.
    destruct Hcases as [[_ E]|[[_ E]|(N1 & N2 & name' & E & Hlow)]];
      try congruence.
    rewrite E in H. injection H as <-. now repeat split.
Qed.

Hypothesis lower_idempotent :
  forall s, toLowerCase (toLowerCase s) = toLowerCase s.
Hypothesis lower_fixes_ids :
  forall s, forallb id_char s = true -> toLowerCase s = s.

(** X24: a normalised name is normalised to itself. *)
Theorem normalizeLang_idempotent lang name :
  normalizeLang toLowerCase lang = Found name ->
  normalizeLang toLowerCase name = Found name.
Proof.
  unfold normalizeLang, object_get.
  destruct (langMap_own (toLowerCase lang)) as [v|] eqn:Eown.
  - intros H. injection H as ->. unfold langMap_own in Eown.
    repeat match type of Eown with
           | (if ?b then _ else _) = _ =>
               destruct b;
               [injection Eown as <-;
                rewrite lower_fixes_ids by reflexivity; reflexivity|]
           end.
    discriminate.
  - destruct (existsb _ _) eqn:Ep; [discriminate|].
    intros H. injection H as <-.
    now rewrite lower_idempotent, Eown, Ep.
Qed.
End NormalizeLangFacts.

Lemma normalizeLang_result_witness :
  normalizeLang asciiLower (lit "Constructor") = Inherited (lit "constructor")
  /\ normalizeLang asciiLower (lit "JS") = Found (lit "javascript").
Proof.
  split; [|reflexivity].
  exact (proj2 (proj1 (normalizeLang_result asciiLower asciiLower_no_upper
                         (lit "Constructor")))
           (or_introl eq_refl)).
Defined.

Lemma normalizeLang_idempotent_witness :
  normalizeLang asciiLower (lit "YML") = Found (lit "yaml")
  /\ normalizeLang asciiLower (lit "yaml") = Found (lit "yaml").
Proof.
  split; [reflexivity|].
  exact (normalizeLang_idempotent asciiLower asciiLower_idempotent
           asciiLower_fixes_ids (lit "YML") (lit "yaml") eq_refl).
Defined.

(** ** [processCodeBlocks] *)

Lemma match_from_fuel {A} (exec : jsstring -> option (A * jsstring)) :
  exec_consumes exec ->
  forall fuel s, (length s < fuel)%nat ->
    match_from exec fuel s = match_from exec (S (length s)) s.
Proof.
  intros Hs fuel.
  induction fuel as [fuel IH] using lt_wf_ind.
  intros s Hlen.
  destruct fuel as [|f]; [lia|].
  cbn [match_from].
  destruct (exec s) as [[m rest]|] eqn:E.
  - pose proof (Hs _ _ _ E) as Hlt. f_equal.
    rewrite (IH f) by lia.
    destruct (Nat.eq_dec (length s) (S (length rest))) as [->|Hne];
      [reflexivity|].
    symmetry. apply IH; lia.
  - destruct s as [|c s']; [reflexivity|].
    cbn [length] in *. apply IH; lia.
Qed.

(** The equation of [matchAll]. *)
Lemma matchAll_eq {A} (exec : jsstring -> option (A * jsstring)) :
  exec_consumes exec ->
  forall s,
    matchAll exec s =
    match exec s with
    | Some (m, rest) => m :: matchAll exec rest
    | None =>
        match s with
        | [] => []
        | _ :: s' => matchAll exec s'
        end
    end.
Proof.
  intros Hs s. unfold matchAll at 1. cbn [match_from].
  destruct (exec s) as [[m rest]|] eqn:E.
  - pose proof (Hs _ _ _ E) as Hlt. f_equal.
    unfold matchAll. apply match_from_fuel; [exact Hs | lia].
  - destruct s as [|c s']; reflexivity.
Qed.

Lemma exec_lazy_any_to_app close s m rest :
  exec_lazy_any_to close s = Some (m, rest) -> s = m ++ close ++ rest.
Proof.
  revert m rest. induction s as [|c s IH]; intros m rest.
  - cbn [exec_lazy_any_to]. destruct (starts_with close []) eqn:E; [|discriminate].
    intros H. injection H as <- <-. now apply starts_with_app in E.
  - cbn [exec_lazy_any_to]. destruct (starts_with close (c :: s)) eqn:E.
    + intros H. injection H as <- <-. now apply starts_with_app in E.
    + destruct (exec_lazy_any_to close s) as [[m' r']|]; [|discriminate].
      intros H. injection H as <- <-. cbn [app]. f_equal. now apply IH.
Qed.

Lemma skipn_prefix (p r : jsstring) : skipn (length p) (p ++ r) = r.
Proof. induction p; [reflexivity | exact IHp]. Qed.

Lemma firstn_prefix (p r : jsstring) : firstn (length p) (p ++ r) = p.
Proof. induction p; [reflexivity | cbn; now f_equal]. Qed.

Ltac name_rest H r :=
  match type of H with
  | ?s = ?p ++ ?rest => set (r := rest) in *; clearbody r; subst s
  | ?a ++ ?rest = ?s => set (r := rest) in *; clearbody r; subst s
  end.

Ltac assoc_eq := cbn [app]; repeat (rewrite <- app_assoc; cbn [app]); reflexivity.

Lemma exec_code_lang_app s fullMatch lang code rest :
  exec_code_lang s = Some (fullMatch, lang, code, rest) ->
  s = fullMatch ++ rest
  /\ fullMatch = CODE_LANG_OPEN ++ lang ++ CODE_LANG_END ++ code ++ CODE_CLOSE.
Proof.
  unfold exec_code_lang.
  destruct (starts_with CODE_LANG_OPEN s) eqn:E; [|discriminate].
  apply starts_with_app in E. name_rest E r0. cbv zeta.
  pose proof (take_drop_while is_word r0) as Hw.
  set (word := take_while is_word r0) in *. clearbody word.
  name_rest Hw r1.
  destruct (length word =? 0)%nat; [discriminate|].
  destruct (starts_with CODE_LANG_END r1) eqn:E2; [|discriminate].
  apply starts_with_app in E2. name_rest E2 r2.
  destruct (exec_lazy_any_to CODE_CLOSE r2) as [[code' rest']|] eqn:E3;
    [|discriminate].
  apply exec_lazy_any_to_app in E3. subst r2.
  intros H. injection H as <- <- <- <-. split; [assoc_eq | reflexivity].
Qed.

Lemma exec_code_plain_app s fullMatch code rest :
  exec_code_plain s = Some (fullMatch, code, rest) ->
  s = fullMatch ++ rest /\ fullMatch = CODE_OPEN ++ code ++ CODE_CLOSE.
Proof.
  unfold exec_code_plain.
  destruct (starts_with CODE_OPEN s) eqn:E; [|discriminate].
  apply starts_with_app in E. name_rest E r0.
  destruct (exec_lazy_any_to CODE_CLOSE r0) as [[code' rest']|] eqn:E3;
    [|discriminate].
  apply exec_lazy_any_to_app in E3. subst r0.
  intros H. injection H as <- <- <-. split; [assoc_eq | reflexivity].
Qed.

Lemma exec_code_lang_consumes : exec_consumes exec_code_lang.
Proof.
  intros s [[fullMatch lang] code] rest H.
  apply exec_code_lang_app in H as [-> ->].
  rewrite length_app. cbn. lia.
Qed.

Lemma exec_code_plain_consumes : exec_consumes exec_code_plain.
Proof.
  intros s [fullMatch code] rest H.
  apply exec_code_plain_app in H as [-> ->].
  rewrite length_app. cbn. lia.
Qed.

Lemma exec_code_lang_start s m : exec_code_lang s = Some m -> starts_with CODE_START s = true.
Proof.
  destruct m as [[[fullMatch lang] code] rest]. intros H.
  apply exec_code_lang_app in H as [-> ->]. reflexivity.
Qed.

Lemma exec_code_plain_start s m : exec_code_plain s = Some m -> starts_with CODE_START s = true.
Proof.
  destruct m as [[fullMatch code] rest]. intros H.
  apply exec_code_plain_app in H as [-> ->]. reflexivity.
Qed.

(** *** Occurrences that cannot overlap *)

Lemma starts_with_shift u : forall p w,
  starts_with p (u ++ w) = true -> (length u <= length p)%nat ->
  starts_with (skipn (length u) p) w = true.
Proof.
  induction u as [|c u IH]; intros p w H Hlen; [exact H|].
  destruct p as [|a p]; [cbn in Hlen; lia|].
  cbn [app] in H. rewrite starts_with_cons in H.
  apply andb_true_iff in H as [_ H].
  cbn [length skipn]. apply IH; [exact H | cbn in Hlen; lia].
Qed.

Lemma starts_with_app_inv q : forall p z,
  starts_with q (p ++ z) = true -> (length q <= length p)%nat ->
  starts_with q p = true.
Proof.
  induction q as [|a q IH]; intros p z H Hlen; [reflexivity|].
  destruct p as [|b p]; [cbn in Hlen; lia|].
  cbn [app] in H. rewrite starts_with_cons in *.
  apply andb_true_iff in H as [-> H]. cbn [andb].
  apply (IH p z H). cbn in Hlen. lia.
Qed.

Lemma starts_with_straddle p u z :
  border_free p = true ->
  starts_with p (u ++ p ++ z) = true ->
  u = [] \/ starts_with p u = true.
Proof.
  intros Hfree H.
  destruct u as [|c u]; [now left|]. right.
  destruct (Nat.le_gt_cases (length p) (length (c :: u))) as [Hlen|Hlen].
  - exact (starts_with_app_inv p (c :: u) (p ++ z) H Hlen).
  - exfalso.
    assert (Hshift : starts_with (skipn (length (c :: u)) p) p = true).
    { apply (starts_with_app_inv _ p z).
      - apply starts_with_shift; [exact H | lia].
      - rewrite length_skipn. lia. }
    unfold border_free in Hfree. rewrite forallb_forall in Hfree.
    specialize (Hfree (length (c :: u))). rewrite Hshift in Hfree.
    assert (Hin : In (length (c :: u)) (seq 1 (length p - 1))).
    { apply in_seq. cbn [length] in *. lia. }
    specialize (Hfree Hin). discriminate.
Qed.

Lemma includes_cons_false p c s :
  includes p (c :: s) = false ->
  starts_with p (c :: s) = false /\ includes p s = false.
Proof. rewrite includes_cons. apply orb_false_iff. Qed.

(** Before an occurrence of [p] that no other can overlap, and in a
    text without [p], nothing begins with [p]. *)
Lemma starts_with_before p c u z :
  border_free p = true ->
  includes p (c :: u) = false ->
  starts_with p ((c :: u) ++ p ++ z) = false.
Proof.
  intros Hfree Hno. apply includes_cons_false in Hno as [Hno _].
  apply not_true_is_false. intros H.
  apply (starts_with_straddle p (c :: u) z Hfree) in H as [H|H];
    [discriminate | congruence].
Qed.

Lemma matchAll_none {A} (exec : jsstring -> option (A * jsstring)) p :
  exec_consumes exec ->
  (forall s m, exec s = Some m -> starts_with p s = true) ->
  forall s, includes p s = false -> matchAll exec s = [].
Proof.
  intros Hc Hstart s. induction s as [|c s IH]; intros Hno.
  - rewrite matchAll_eq by exact Hc.
    destruct (exec []) as [m|] eqn:E; [|reflexivity].
    apply Hstart in E. rewrite includes_nil in Hno. congruence.
  - rewrite matchAll_eq by exact Hc.
    apply includes_cons_false in Hno as [Hhere Hno].
    destruct (exec (c :: s)) as [m|] eqn:E; [|now apply IH].
    apply Hstart in E. congruence.
Qed.

Lemma matchAll_prefix {A} (exec : jsstring -> option (A * jsstring)) p pre z :
  exec_consumes exec ->
  (forall s m, exec s = Some m -> starts_with p s = true) ->
  border_free p = true ->
  includes p pre = false ->
  matchAll exec (pre ++ p ++ z) = matchAll exec (p ++ z).
Proof.
  intros Hc Hstart Hfree. induction pre as [|c u IH]; intros Hno; [reflexivity|].
  rewrite matchAll_eq by exact Hc.
  destruct (exec ((c :: u) ++ p ++ z)) as [m|] eqn:E.
  - apply Hstart in E. rewrite starts_with_before in E by assumption. discriminate.
  - cbn [app]. apply IH. now apply includes_cons_false in Hno.
Qed.

Lemma exec_lazy_any_to_eq close s :
  exec_lazy_any_to close s
  = if starts_with close s then Some ([], skipn (length close) s)
    else match s with
         | [] => None
         | c :: s' =>
             match exec_lazy_any_to close s' with
             | Some (m, rest) => Some (c :: m, rest)
             | None => None
             end
         end.
Proof. destruct s; reflexivity. Qed.

Lemma exec_lazy_any_to_first close code post :
  border_free close = true ->
  includes close code = false ->
  exec_lazy_any_to close (code ++ close ++ post) = Some (code, post).
Proof.
  intros Hfree. induction code as [|c u IH]; intros Hno.
  - cbn [app]. rewrite exec_lazy_any_to_eq, starts_with_prefix.
    now rewrite skipn_prefix.
  - rewrite exec_lazy_any_to_eq, starts_with_before by assumption.
    cbn [app]. rewrite IH; [reflexivity|].
    now apply includes_cons_false in Hno.
Qed.

Lemma take_while_stop p w c r :
  forallb p w = true -> p c = false ->
  take_while p (w ++ c :: r) = w /\ drop_while p (w ++ c :: r) = c :: r.
Proof.
  intros Hw Hc. induction w as [|a w IH]; cbn [app take_while drop_while].
  - now rewrite Hc.
  - cbn [forallb] in Hw. apply andb_true_iff in Hw as [-> Hw].
    destruct (IH Hw) as [-> ->]. now split.
Qed.

Lemma border_free_code_start : border_free CODE_START = true.
Proof. reflexivity. Qed.

Lemma border_free_code_close : border_free CODE_CLOSE = true.
Proof. reflexivity. Qed.

(** The expression matches a well-formed block, up to the first
    closing tags. *)
Lemma exec_code_lang_block lang code post :
  lang <> [] -> forallb is_word lang = true ->
  includes CODE_CLOSE code = false ->
  exec_code_lang (CODE_LANG_OPEN ++ lang ++ CODE_LANG_END ++ code ++ CODE_CLOSE ++ post)
  = Some (CODE_LANG_OPEN ++ lang ++ CODE_LANG_END ++ code ++ CODE_CLOSE,
          lang, code, post).
Proof.
  intros Hne Hword Hclose. unfold exec_code_lang.
  rewrite starts_with_prefix, skipn_prefix. cbv zeta.
  change (CODE_LANG_END ++ code ++ CODE_CLOSE ++ post)
    with (34%N :: 62%N :: code ++ CODE_CLOSE ++ post).
  destruct (take_while_stop is_word lang 34%N (62%N :: code ++ CODE_CLOSE ++ post)
              Hword eq_refl) as [-> ->].
  destruct lang as [|l0 lang]; [congruence|]. cbn [length Nat.eqb].
  change (starts_with CODE_LANG_END (34%N :: 62%N :: code ++ CODE_CLOSE ++ post))
    with true. cbv iota.
  change (skipn (length CODE_LANG_END) (34%N :: 62%N :: code ++ CODE_CLOSE ++ post))
    with (code ++ CODE_CLOSE ++ post).
  now rewrite (exec_lazy_any_to_first _ _ _ border_free_code_close Hclose).
Qed.

(** *** The replacement of the first occurrence *)

Lemma indexOf_hit p s : starts_with p s = true -> indexOf p s = 0%Z.
Proof. intros H. destruct s; cbn [indexOf]; now rewrite H. Qed.

Lemma starts_with_app_start p f s :
  starts_with (p ++ f) s = true -> starts_with p s = true.
Proof.
  revert s. induction p as [|a p IH]; intros s H; [reflexivity|].
  destruct s as [|b s]; [discriminate|].
  cbn [app] in H. rewrite starts_with_cons in *.
  apply andb_true_iff in H as [-> H]. now apply IH.
Qed.

Lemma indexOf_first p f pre post :
  border_free p = true ->
  includes p pre = false ->
  indexOf (p ++ f) (pre ++ (p ++ f) ++ post) = Z.of_nat (length pre).
Proof.
  intros Hfree. induction pre as [|c u IH]; intros Hno.
  - cbn [app length]. apply indexOf_hit, starts_with_prefix.
  - assert (Hhere : starts_with (p ++ f) ((c :: u) ++ (p ++ f) ++ post) = false).
    { apply not_true_is_false. intros H. apply starts_with_app_start in H.
      rewrite <- app_assoc in H.
      rewrite starts_with_before in H by assumption. discriminate. }
    cbn [app] in *. cbn [indexOf]. rewrite Hhere.
    rewrite IH by now apply includes_cons_false in Hno.
    cbn [length]. destruct (Z.of_nat (length u) <? 0)%Z eqn:E; lia.
Qed.

Lemma replaceFirst_first p f replacement pre post :
  border_free p = true ->
  includes p pre = false ->
  replaceFirst (p ++ f) replacement (pre ++ (p ++ f) ++ post)
  = pre ++ expand_replacement (p ++ f) pre post replacement ++ post.
Proof.
  intros Hfree Hno. unfold replaceFirst.
  rewrite (indexOf_first p f pre post Hfree Hno). cbv zeta.
  replace (Z.of_nat (length pre) <? 0)%Z with false by (symmetry; apply Z.ltb_ge; lia).
  unfold substring_to, substring_from.
  rewrite <- Nat2Z.inj_add, !Nat2Z.id, firstn_prefix.
  replace (skipn (length pre + length (p ++ f)) (pre ++ (p ++ f) ++ post)) with post;
    [reflexivity|].
  rewrite app_assoc, <- length_app. symmetry. apply skipn_prefix.
Qed.

Lemma expand_replacement_plain matched before after replacement :
  forallb (fun c => negb (c =? 36)%N) replacement = true ->
  expand_replacement matched before after replacement = replacement.
Proof.
  induction replacement as [|c r IH]; [reflexivity|].
  cbn [forallb]. intros H. apply andb_true_iff in H as [Hc H].
  cbn [expand_replacement]. apply negb_true_iff in Hc. rewrite Hc.
  now rewrite IH.
Qed.

Lemma includes_app_false p a b :
  includes p (a ++ b) = false -> includes p a = false /\ includes p b = false.
Proof.
  intros H. split; apply not_true_is_false; intros E.
  - now rewrite (includes_app_l p a b E) in H.
  - now rewrite (includes_app_r p a b E) in H.
Qed.

Lemma exec_code_lang_open s m :
  exec_code_lang s = Some m -> starts_with CODE_LANG_OPEN s = true.
Proof.
  unfold exec_code_lang. now destruct (starts_with CODE_LANG_OPEN s).
Qed.

Lemma exec_code_plain_open s m :
  exec_code_plain s = Some m -> starts_with CODE_OPEN s = true.
Proof.
  unfold exec_code_plain. now destruct (starts_with CODE_OPEN s).
Qed.

Lemma border_free_code_open : border_free CODE_OPEN = true.
Proof. reflexivity. Qed.

Lemma exec_code_plain_block code post :
  includes CODE_CLOSE code = false ->
  exec_code_plain (CODE_OPEN ++ code ++ CODE_CLOSE ++ post)
  = Some (CODE_OPEN ++ code ++ CODE_CLOSE, code, post).
Proof.
  intros Hclose. unfold exec_code_plain.
  rewrite starts_with_prefix, skipn_prefix.
  now rewrite (exec_lazy_any_to_first _ _ _ border_free_code_close Hclose).
Qed.

Section ProcessCodeBlocksFacts.
Variable toLowerCase : jsstring -> jsstring.
Variable getHighlighterInstance : Outcome unit.
Variable codeToHtml : jsstring -> Lookup jsstring -> Lookup jsstring -> Outcome jsstring.

Let highlight := highlightCode toLowerCase getHighlighterInstance codeToHtml.
Let process := processCodeBlocks toLowerCase getHighlighterInstance codeToHtml.

(** X25: markup without the opening of a code block is returned as it
    is, whatever the highlighter does: it is not asked. *)
Theorem processCodeBlocks_no_code html theme :
  includes CODE_START html = false ->
  process html theme = Return html.
Proof.
  intros Hno. unfold process, processCodeBlocks. cbv zeta.
  rewrite (matchAll_none exec_code_lang CODE_START exec_code_lang_consumes
             exec_code_lang_start html Hno).
  cbn [highlight_blocks].
  now rewrite (matchAll_none exec_code_plain CODE_START exec_code_plain_consumes
                 exec_code_plain_start html Hno).
Qed.

(** X26: a document with one code block.  The block is replaced by
    what the highlighter returns for its decoded code and its language,
    and the text before and behind it stays.  The highlighted markup is
    inserted as a replacement pattern: a dollar sign in it followed by a
    dollar sign, an ampersand, a backquote or an apostrophe is expanded.
    Markup without a dollar sign is inserted as it is. *)
Theorem processCodeBlocks_block theme pre lang code post highlighted :
  let fullMatch := CODE_LANG_OPEN ++ lang ++ CODE_LANG_END ++ code ++ CODE_CLOSE in
  let result := pre ++ expand_replacement fullMatch pre post highlighted ++ post in
  lang <> [] -> forallb is_word lang = true ->
  includes CODE_CLOSE code = false ->
  highlight (decodeHtml code) lang theme = Return highlighted ->
  includes CODE_START result = false ->
  process (pre ++ fullMatch ++ post) theme = Return result
  /\ (forallb (fun c => negb (c =? 36)%N) highlighted = true ->
      result = pre ++ highlighted ++ post).
Proof.
  intros fullMatch result Hne Hword Hclose Hhl Hres.
  split; [|intros Hplain; unfold result; now rewrite expand_replacement_plain].
  destruct (includes_app_false _ _ _ Hres) as [Hpre Hrest].
  apply includes_app_false in Hrest as [_ Hpost].
  set (inner := lit " class=" ++ dq :: lit "language-").
  set (f := inner ++ lang ++ CODE_LANG_END ++ code ++ CODE_CLOSE).
  assert (Hfull : fullMatch = CODE_START ++ f) by reflexivity.
  assert (Hmatches : matchAll exec_code_lang (pre ++ fullMatch ++ post)
                     = [(fullMatch, lang, code)]).
  { rewrite Hfull, <- app_assoc.
    rewrite (matchAll_prefix exec_code_lang CODE_START pre (f ++ post)
               exec_code_lang_consumes exec_code_lang_start
               border_free_code_start Hpre).
    rewrite matchAll_eq by exact exec_code_lang_consumes.
    replace (CODE_START ++ f ++ post)
      with (CODE_LANG_OPEN ++ lang ++ CODE_LANG_END ++ code ++ CODE_CLOSE ++ post)
      by (unfold f; assoc_eq).
    rewrite (exec_code_lang_block lang code post Hne Hword Hclose).
    fold fullMatch. f_equal.
    exact (matchAll_none exec_code_lang CODE_START exec_code_lang_consumes
             exec_code_lang_start post Hpost). }
  unfold process, processCodeBlocks. cbv zeta. rewrite Hmatches.
  cbn [highlight_blocks]. fold highlight. rewrite Hhl.
  assert (Hreplaced : replaceFirst fullMatch highlighted (pre ++ fullMatch ++ post)
                      = result).
  { unfold result. rewrite Hfull.
    exact (replaceFirst_first CODE_START f highlighted pre post
             border_free_code_start Hpre). }
  rewrite Hreplaced.
  now rewrite (matchAll_none exec_code_plain CODE_START exec_code_plain_consumes
                 exec_code_plain_start result Hres).
Qed.

(** X27: a document with one code block without a language and none
    with a language.  The block is highlighted as [text] and replaced by
    the result, inserted as a replacement pattern; the text before and
    behind it stays. *)
Theorem processCodeBlocks_plain_block theme pre code post highlighted :
  let fullMatch := CODE_OPEN ++ code ++ CODE_CLOSE in
  includes CODE_LANG_OPEN (pre ++ fullMatch ++ post) = false ->
  includes CODE_OPEN pre = false ->
  includes CODE_CLOSE code = false ->
  includes CODE_OPEN post = false ->
  highlight (decodeHtml code) (lit "text") theme = Return highlighted ->
  process (pre ++ fullMatch ++ post) theme
  = Return (pre ++ expand_replacement fullMatch pre post highlighted ++ post).
Proof.
  intros fullMatch Hlang Hpre Hclose Hpost Hhl.
  unfold process, processCodeBlocks. cbv zeta.
  rewrite (matchAll_none exec_code_lang CODE_LANG_OPEN exec_code_lang_consumes
             exec_code_lang_open _ Hlang).
  cbn [highlight_blocks].
  assert (Hmatches : matchAll exec_code_plain (pre ++ fullMatch ++ post)
                     = [(fullMatch, code)]).
  { unfold fullMatch. rewrite <- app_assoc.
    rewrite (matchAll_prefix exec_code_plain CODE_OPEN pre
               ((code ++ CODE_CLOSE) ++ post)
               exec_code_plain_consumes exec_code_plain_open
               border_free_code_open Hpre).
    rewrite matchAll_eq by exact exec_code_plain_consumes.
    rewrite <- app_assoc.
    rewrite (exec_code_plain_block code post Hclose). f_equal.
    exact (matchAll_none exec_code_plain CODE_OPEN exec_code_plain_consumes
             exec_code_plain_open post Hpost). }
  rewrite Hmatches. cbn [map fst snd highlight_blocks].
  fold highlight. rewrite Hhl. f_equal.
  exact (replaceFirst_first CODE_OPEN (code ++ CODE_CLOSE) highlighted pre post
           border_free_code_open Hpre).
Qed.
End ProcessCodeBlocksFacts.

Lemma processCodeBlocks_no_code_witness :
  processCodeBlocks asciiLower (Throw NotAnError) (fun _ _ _ => Throw NotAnError)
    (lit "<h1>Title</h1><p>text</p>") (Found (lit "github-light"))
  = Return (lit "<h1>Title</h1><p>text</p>").
Proof.
  exact (processCodeBlocks_no_code asciiLower (Throw NotAnError)
           (fun _ _ _ => Throw NotAnError) (lit "<h1>Title</h1><p>text</p>")
           (Found (lit "github-light")) eq_refl).
Defined.

Lemma processCodeBlocks_block_witness :
  let shiki := fun (code : jsstring) (_ _ : Lookup jsstring) =>
    Return (lit "<pre class=shiki>" ++ escapeHtml code ++ lit "</pre>") in
  processCodeBlocks asciiLower (Return tt) shiki
    (lit "<p>a</p>" ++ (CODE_LANG_OPEN ++ lit "js" ++ CODE_LANG_END
                          ++ lit "x &lt; 1" ++ CODE_CLOSE) ++ lit "<p>b</p>")
    (Found (lit "github-light"))
  = Return (lit "<p>a</p><pre class=shiki>x &lt; 1</pre><p>b</p>").
Proof.
  intros shiki.
  exact (proj1 (processCodeBlocks_block asciiLower (Return tt) shiki
                  (Found (lit "github-light")) (lit "<p>a</p>") (lit "js")
                  (lit "x &lt; 1") (lit "<p>b</p>")
                  (lit "<pre class=shiki>x &lt; 1</pre>")
                  ltac:(discriminate) eq_refl eq_refl eq_refl eq_refl)).
Defined.

(** ** [listVisionModels] *)

Lemma filter_map_swap {A B} (f : A -> B) (p : B -> bool) l :
  map f (filter (fun a => p (f a)) l) = filter p (map f l).
Proof.
  induction l as [|a l IH]; [reflexivity|].
  cbn [filter map]. destruct (p (f a)); cbn [map]; now rewrite IH.
Qed.

(** X28: the vision models are the listed models whose name contains
    [llava] or [vision], in the order of the listing; the third test, for
    [bakllava], selects nothing more.  When the service cannot be reached
    the list is empty. *)
Theorem listVisionModels_names response :
  listVisionModels response
  = match response with
    | Return models =>
        filter (fun name => includes (lit "llava") name
                            || includes (lit "vision") name)
          (map model_name models)
    | Throw _ => []
    end.
Proof.
  destruct response as [models|e]; [|reflexivity].
  unfold listVisionModels. cbv zeta.
  rewrite <- (filter_map_swap model_name
                (fun name => includes (lit "llava") name
                             || includes (lit "vision") name)).
  f_equal. apply filter_ext. intros m.
  destruct (includes (lit "bakllava") (model_name m)) eqn:E;
    [|now rewrite orb_false_r].
  rewrite orb_true_r.
  change (lit "bakllava") with (lit "bak" ++ lit "llava") in E.
  now rewrite (includes_suffix _ _ _ E).
Qed.

(** ** A name that is no theme *)

Section UnknownTheme.
Variable baseStyles : jsstring.
Variables darkStyles academicStyles minimalStyles : jsstring.

(** X29: the two fallbacks differ.  For a name that is neither a theme
    nor an inherited member the page gets the style sheet of the light
    [github] bundle, while the code is highlighted with [github-dark]; the
    [github] theme itself is highlighted with [github-light]. *)
Theorem unknown_theme_fallbacks name :
  name <> [] ->
  ~ In name getAvailableThemes ->
  ~ In name object_prototype_members ->
  getTheme baseStyles darkStyles academicStyles minimalStyles (Some name)
  = Found (githubTheme baseStyles)
  /\ mapThemeToHighlightTheme (Some name) = Found (lit "github-dark")
  /\ mapThemeToHighlightTheme (Some (theme_name (githubTheme baseStyles)))
     = Found (lit "github-light").
Proof.
  intros Hne Hth Hproto. split; [|split; [|reflexivity]].
  - exact (getTheme_fallback baseStyles darkStyles academicStyles minimalStyles
             name Hth Hproto).
  - unfold mapThemeToHighlightTheme, object_get, highlight_own.
    destruct name as [|c name]; [congruence|]. cbn [truthy str].
    repeat match goal with
    | |- context [jsstring_eqb (c :: name) ?l] =>
        destruct (jsstring_eqb (c :: name) l) eqn:?E;
        [ apply jsstring_eqb_eq in E; exfalso; apply Hth; rewrite E;
          cbn; tauto | clear E ]
    end.
    now rewrite (existsb_eqb_false _ _ Hproto).
Qed.
End UnknownTheme.

Lemma unknown_theme_fallbacks_witness :
  getTheme [] [] [] [] (Some (lit "solarized")) = Found (githubTheme [])
  /\ mapThemeToHighlightTheme (Some (lit "solarized")) = Found (lit "github-dark")
  /\ mapThemeToHighlightTheme (Some (theme_name (githubTheme [])))
     = Found (lit "github-light").
Proof.
  apply (unknown_theme_fallbacks [] [] [] [] (lit "solarized")).
  - discriminate.
  - cbn. intuition discriminate.
  - cbn. intuition discriminate.
Defined.

Lemma processCodeBlocks_plain_block_witness :
  let shiki := fun (code : jsstring) (lang _ : Lookup jsstring) =>
    match lang with
    | Found name => Return (lit "<pre class=" ++ name ++ lit ">" ++ code ++ lit "</pre>")
    | Inherited _ => Throw NotAnError
    end in
  processCodeBlocks asciiLower (Return tt) shiki
    (lit "<p>a</p>" ++ (CODE_OPEN ++ lit "a &amp; b" ++ CODE_CLOSE) ++ lit "<p>b</p>")
    (Found (lit "github-light"))
  = Return (lit "<p>a</p><pre class=text>a & b</pre><p>b</p>").
Proof.
  intros shiki.
  exact (processCodeBlocks_plain_block asciiLower (Return tt) shiki
           (Found (lit "github-light")) (lit "<p>a</p>") (lit "a &amp; b")
           (lit "<p>b</p>") (lit "<pre class=text>a & b</pre>")
           eq_refl eq_refl eq_refl eq_refl eq_refl).
Defined.

(** ** The cover page in the assembled document *)

Section Layout.
Variable toLocaleDateString : Z -> jsstring.
Variable baseStyles : jsstring.
Variables darkStyles academicStyles minimalStyles : jsstring.

Let cover := generateCoverPage toLocaleDateString.
Let assemble :=
  generateHtml toLocaleDateString baseStyles darkStyles academicStyles
    minimalStyles.
Let themeCss (options : PdfOptions) : jsstring :=
  css_text (getTheme baseStyles darkStyles academicStyles minimalStyles
              (opt_theme options)).

Lemma generateCoverPage_layout frontMatter :
  cover frontMatter
  = if cover_built frontMatter
    then cover_layout toLocaleDateString frontMatter else [].
Proof.
  unfold cover, generateCoverPage, cover_built, cover_layout, cover_title,
    cover_subtitle, cover_meta, metaParts, title_block, subtitle_block,
    author_block, date_block, block_if.
  destruct (truthy (fm_title frontMatter)), (truthy (fm_subtitle frontMatter)),
    (truthy (fm_author frontMatter)), (date_truthy (fm_date frontMatter));
    cbn [orb andb negb app length Nat.ltb Nat.leb join];
    repeat (rewrite <- app_assoc; cbn [app]); reflexivity.
Qed.

Lemma generateHtml_layout parsed options :
  assemble parsed options
  = DOCUMENT_OPEN ++ escapeHtml (document_title (pm_frontMatter parsed))
      ++ document_styles (themeCss options) (opt_css options)
      ++ cover (pm_frontMatter parsed)
      ++ document_body
           (if opt_toc options then generateToc (pm_toc parsed) else [])
           (wrapContentSections (pm_html parsed)).
Proof.
  unfold assemble, generateHtml, DOCUMENT_OPEN, document_styles, document_body,
    document_content, document_title, themeCss, cover. cbv zeta.
  repeat first [rewrite <- app_assoc | rewrite <- app_comm_cons].
  reflexivity.
Qed.

Lemma starts_with_app_same p x y :
  starts_with (p ++ x) (p ++ y) = starts_with x y.
Proof.
  induction p as [|a p IH]; [reflexivity|].
  cbn [app]. rewrite starts_with_cons, N.eqb_refl. exact IH.
Qed.

(** C5, as the code has it.  The assembled document is the head, the
    cover page and the rest, and the opening of the cover block follows
    the head if and only if title, author or date is present (set and not
    empty).  A cover block that is built is the container with one block
    for each present field of title, subtitle, author and date, the field
    escaped, and with nothing else: an absent field leaves no text, and
    not even the opening of its block occurs.  A subtitle alone builds no
    cover and is not rendered. *)
Theorem generateCoverPage_blocks parsed options :
  let frontMatter := pm_frontMatter parsed in
  let head :=
    DOCUMENT_OPEN ++ escapeHtml (document_title frontMatter)
      ++ document_styles (themeCss options) (opt_css options) in
  let rest :=
    document_body
      (if opt_toc options then generateToc (pm_toc parsed) else [])
      (wrapContentSections (pm_html parsed)) in
  assemble parsed options = head ++ cover frontMatter ++ rest
  /\ starts_with (head ++ COVER_OPEN) (assemble parsed options)
     = cover_built frontMatter
  /\ (cover frontMatter = [] <-> cover_built frontMatter = false)
  /\ cover frontMatter
     = (if cover_built frontMatter
        then cover_layout toLocaleDateString frontMatter else [])
  /\ includes COVER_TITLE_OPEN (cover frontMatter) = truthy (fm_title frontMatter)
  /\ includes COVER_SUBTITLE_OPEN (cover frontMatter)
     = cover_built frontMatter && truthy (fm_subtitle frontMatter)
  /\ includes AUTHOR_LABEL (cover frontMatter) = truthy (fm_author frontMatter)
  /\ includes DATE_LABEL (cover frontMatter) = date_truthy (fm_date frontMatter)
  /\ includes (title_block frontMatter) (cover frontMatter)
     = truthy (fm_title frontMatter)
  /\ includes (subtitle_block frontMatter) (cover frontMatter)
     = cover_built frontMatter && truthy (fm_subtitle frontMatter)
  /\ includes (author_block frontMatter) (cover frontMatter)
     = truthy (fm_author frontMatter)
  /\ includes (date_block toLocaleDateString frontMatter) (cover frontMatter)
     = date_truthy (fm_date frontMatter).
Proof.
  intros frontMatter head rest.
  pose proof (generateHtml_layout parsed options) as Hdoc.
  fold frontMatter in Hdoc.
  assert (Hassembled : assemble parsed options = head ++ cover frontMatter ++ rest).
  { rewrite Hdoc. unfold head, rest. now rewrite <- !app_assoc. }
  pose proof (generateCoverPage_layout frontMatter) as Hlayout.
  destruct (generateCoverPage_marks toLocaleDateString frontMatter)
    as (Hempty & _ & Ht & Hs & Ha & Hd & Htb & Hsb & Hab & Hdb).
  split; [exact Hassembled|].
  split.
  { rewrite Hassembled, starts_with_app_same, Hlayout.
    destruct (cover_built frontMatter); [|reflexivity].
    unfold cover_layout. cbv zeta. rewrite <- app_assoc.
    apply starts_with_prefix. }
  split; [exact Hempty|].
  split; [exact Hlayout|].
  repeat split; assumption.
Qed.
End Layout.

(** ** The escaping in the assembled document *)

Lemma render_segments_app a b :
  render_segments (a ++ b) = render_segments a ++ render_segments b.
Proof. apply flat_map_app. Qed.

Lemma toc_entry_segments_render item :
  render_segments (toc_entry_segments item) = toc_entry item.
Proof.
  unfold toc_entry_segments, toc_entry, render_segments.
  cbn [flat_map segment_text].
  repeat first [rewrite <- app_assoc | rewrite <- app_comm_cons].
  now rewrite app_nil_r.
Qed.

Lemma toc_entries_segments_render toc :
  render_segments (toc_entries_segments toc) = join [nl] (map toc_entry toc).
Proof.
  induction toc as [|item toc IH]; [reflexivity|].
  destruct toc as [|next toc].
  - cbn [toc_entries_segments map join]. apply toc_entry_segments_render.
  - change (toc_entries_segments (item :: next :: toc))
      with (toc_entry_segments item ++ Lit [nl] :: toc_entries_segments (next :: toc)).
    rewrite render_segments_app, toc_entry_segments_render.
    change (render_segments (Lit [nl] :: toc_entries_segments (next :: toc)))
      with ([nl] ++ render_segments (toc_entries_segments (next :: toc))).
    now rewrite IH.
Qed.

Lemma generateToc_segments toc :
  generateToc toc = render_segments (toc_segments toc).
Proof.
  destruct toc as [|item toc]; [reflexivity|].
  unfold generateToc, toc_segments. cbn [length Nat.eqb]. cbv zeta.
  change (render_segments (?l :: ?gs)) with (segment_text l ++ render_segments gs).
  rewrite render_segments_app, toc_entries_segments_render.
  cbn [render_segments flat_map segment_text].
  repeat first [rewrite <- app_assoc | rewrite <- app_comm_cons].
  now rewrite app_nil_r.
Qed.

Lemma exec_entity_sound : exec_sound exec_entity.
Proof.
  intros s m rest. unfold exec_entity.
  repeat match goal with
         | |- context [starts_with ?p s] =>
             let E := fresh "E" in
             destruct (starts_with p s) eqn:E;
             [ apply starts_with_app in E; intros H; injection H as <- <-;
               split; [exact E | discriminate] | ]
         end.
  discriminate.
Qed.

Lemma unescapeHtml_entity c rest :
  is_reserved c = true ->
  unescapeHtml (escape_map [c] ++ rest) = c :: unescapeHtml rest.
Proof.
  intros Hc. unfold unescapeHtml.
  rewrite replaceAll_eq by exact exec_entity_sound.
  apply is_reserved_cases in Hc.
  destruct Hc as [->|[->|[->|[->| ->]]]]; reflexivity.
Qed.

Lemma unescapeHtml_plain c rest :
  is_reserved c = false ->
  unescapeHtml (c :: rest) = c :: unescapeHtml rest.
Proof.
  intros Hc. unfold unescapeHtml.
  rewrite replaceAll_eq by exact exec_entity_sound.
  unfold exec_entity.
  repeat match goal with
         | |- context [starts_with ?p (c :: rest)] =>
             let E := fresh "E" in
             destruct (starts_with p (c :: rest)) eqn:E;
             [ apply starts_with_app in E; cbn in E; injection E as E _;
               subst c; discriminate Hc | ]
         end.
  reflexivity.
Qed.

Lemma unescapeHtml_escapeHtml text : unescapeHtml (escapeHtml text) = text.
Proof.
  rewrite escapeHtml_flat_map.
  induction text as [|c text IH]; [reflexivity|].
  cbn [flat_map]. unfold escape_char at 1.
  destruct (is_reserved c) eqn:E.
  - rewrite unescapeHtml_entity by exact E. now rewrite IH.
  - cbn [app]. rewrite unescapeHtml_plain by exact E. now rewrite IH.
Qed.

Section Escaping.
Variable toLocaleDateString : Z -> jsstring.
Variable baseStyles : jsstring.
Variables darkStyles academicStyles minimalStyles : jsstring.

Let assemble :=
  generateHtml toLocaleDateString baseStyles darkStyles academicStyles
    minimalStyles.
Let themeCss (options : PdfOptions) : jsstring :=
  css_text (getTheme baseStyles darkStyles academicStyles minimalStyles
              (opt_theme options)).

(** C6: the assembled document holds the title of the document, the
    fields of the cover page and the titles of the table of contents in
    escaped form and nowhere else: it is the rendering of its segments, in
    which these texts are the escaped ones.  Escaping replaces each of the
    five reserved characters by its entity and leaves every other
    character as it is, so escaped text holds no angle bracket and no
    quote; and un-escaping the escaped text gives exactly the text back,
    for every text. *)
Theorem escaped_text_recovered parsed options :
  assemble parsed options
  = render_segments
      (document_segments toLocaleDateString (themeCss options) parsed options)
  /\ (exists rest,
        assemble parsed options
        = DOCUMENT_OPEN ++ escapeHtml (document_title (pm_frontMatter parsed))
            ++ lit "</title>" ++ rest)
  /\ map escape_char [38; 60; 62; 34; 39]%N
     = [lit "&amp;"; lit "&lt;"; lit "&gt;"; lit "&quot;"; lit "&#39;"]
  /\ (forall c, is_reserved c = false -> escape_char c = [c])
  /\ (forall text,
        escapeHtml text = flat_map escape_char text
        /\ forallb markup_free (escapeHtml text) = true
        /\ unescapeHtml (escapeHtml text) = text).
Proof.
  split; [|split; [|split; [reflexivity|split]]].
  - unfold assemble.
    rewrite (generateHtml_layout toLocaleDateString baseStyles darkStyles
               academicStyles minimalStyles parsed options).
    rewrite (generateCoverPage_segments toLocaleDateString).
    unfold document_segments, document_body. cbv zeta.
    rewrite !render_segments_app.
    change (render_segments [Lit DOCUMENT_OPEN;
                             Esc (document_title (pm_frontMatter parsed));
                             Lit (document_styles (themeCss options) (opt_css options))])
      with (DOCUMENT_OPEN ++ escapeHtml (document_title (pm_frontMatter parsed))
              ++ document_styles (themeCss options) (opt_css options) ++ []).
    rewrite app_nil_r.
    change (render_segments [Lit (nl :: lit "  ")]) with ((nl :: lit "  ") ++ []).
    change (render_segments
              [Lit (document_content (wrapContentSections (pm_html parsed)))])
      with (document_content (wrapContentSections (pm_html parsed)) ++ []).
    rewrite !app_nil_r.
    replace (render_segments
               (if opt_toc options then toc_segments (pm_toc parsed) else []))
      with (if opt_toc options then generateToc (pm_toc parsed) else [])
      by (destruct (opt_toc options); [apply generateToc_segments | reflexivity]).
    replace (render_segments
               (if cover_built (pm_frontMatter parsed)
                then cover_segments toLocaleDateString (pm_frontMatter parsed)
                else []))
      with (if cover_built (pm_frontMatter parsed)
            then render_segments
                   (cover_segments toLocaleDateString (pm_frontMatter parsed))
            else [])
      by (now destruct (cover_built (pm_frontMatter parsed))).
    unfold themeCss.
    repeat first [rewrite <- app_assoc | rewrite <- app_comm_cons].
    reflexivity.
  - unfold assemble.
    rewrite (generateHtml_layout toLocaleDateString baseStyles darkStyles
               academicStyles minimalStyles parsed options).
    unfold document_styles. eexists.
    repeat first [rewrite <- app_assoc | rewrite <- app_comm_cons].
    reflexivity.
  - intros c Hc. unfold escape_char. now rewrite Hc.
  - intros text. split; [apply escapeHtml_flat_map|]. split.
    + apply forallb_forall. intros c Hc.
      apply escapeHtml_no_markup in Hc as (H1 & H2 & H3 & H4).
      unfold markup_free. apply negb_true_iff.
      repeat (apply orb_false_iff; split); now apply N.eqb_neq.
    + apply unescapeHtml_escapeHtml.
Qed.
End Escaping.

(** ** The size that is validated *)

Lemma utf8_size_repeat c n :
  utf8_size (repeat c n) = (utf8_bytes c * Z.of_nat n)%Z.
Proof.
  induction n as [|n IH]; [cbn; lia|].
  cbn [repeat utf8_size fold_right]. fold (utf8_size (repeat c n)).
  rewrite IH. lia.
Qed.

Lemma validateMarkdown_repeat c n :
  is_space c = false -> (0 < n)%nat -> (Z.of_nat n <= MAX_LENGTH)%Z ->
  valid (validateMarkdown (repeat c n)) = true.
Proof.
  intros Hc Hn Hmax.
  rewrite validateMarkdown_accepts; [reflexivity| |now rewrite repeat_length].
  rewrite trim_no_space.
  - destruct n; [lia | discriminate].
  - apply Forall_forall. intros d Hd. now rewrite (repeat_spec _ _ _ Hd).
Qed.

Section ConverterParses.
Variable stat : jsstring -> StatOutcome.
Variable readFile : jsstring -> Outcome jsstring.
Variable parseMarkdown_ : jsstring -> Outcome ParsedMarkdown.
Variable processCodeBlocks : jsstring -> Lookup jsstring -> Outcome jsstring.
Variable generateHtml_ : ParsedMarkdown -> PdfOptions -> jsstring.
Variable mkdir : jsstring -> Outcome unit.
Variable generatePdf : jsstring -> jsstring -> PdfOptions -> option jsstring -> Outcome unit.
Variable addMetadata : jsstring -> FrontMatter -> Outcome unit.
Variable getPdfStats : jsstring -> Outcome PdfStats.
Variables path_dirname path_dir path_name : jsstring -> jsstring.
Variable path_join : jsstring -> jsstring -> jsstring.
Variables startTime endTime : Z.

(** Content that passes the validation is given to the parser. *)
Lemma convert_parses_valid options content :
  stat (opt_input options) = IsFile ->
  readFile (opt_input options) = Return content ->
  valid (validateMarkdown content) = true ->
  exists result log,
    convertMarkdownToPdf stat readFile parseMarkdown_ processCodeBlocks
      generateHtml_ mkdir generatePdf addMetadata getPdfStats
      path_dirname path_dir path_name path_join startTime endTime options []
    = (Return result, log)
    /\ In CallParseMarkdown log.
Proof.
  intros Hstat Hread Hv.
  unfold convertMarkdownToPdf, try_catch, bind, validateInputFile, call, ret.
  rewrite Hstat. cbn [app]. rewrite Hread, Hv. cbn [negb app].
  repeat match goal with
         | |- context [truthy (opt_css ?o)] =>
             destruct (truthy (opt_css o)); cbn [app]
         | |- context [match ?r with Return _ => _ | Throw _ => _ end] =>
             destruct r; cbn [app]
         end;
    (eexists _, _; split; [reflexivity|]; cbn; tauto).
Qed.
End ConverterParses.

(** C9 as stated fails for a size in bytes: the validation counts the
    UTF-16 code units of the text read, not the bytes of the file.  A file
    of 5242881 times the letter e with acute accent has 10485762 bytes,
    which is more than 10 MiB, but its text has 5242881 code units: it
    passes the validation and is given to the parser. *)
Lemma validateMarkdown_counts_code_units :
  let content := repeat 233%N (Z.to_nat 5242881) in
  let options :=
    {| opt_input := lit "accents.md"; opt_output := None; opt_theme := None;
       opt_toc := true; opt_css := None |} in
  let parsed :=
    {| pm_content := content;
       pm_frontMatter := {| fm_title := None; fm_subtitle := None;
                            fm_author := None; fm_date := None |};
       pm_toc := []; pm_html := [] |} in
  utf8_size content = 10485762%Z
  /\ (MAX_LENGTH < utf8_size content)%Z
  /\ Z.of_nat (length content) = 5242881%Z
  /\ valid (validateMarkdown content) = true
  /\ exists result log,
       convertMarkdownToPdf (fun _ => IsFile) (fun _ => Return content)
         (fun _ => Return parsed) (fun html _ => Return html)
         (fun _ _ => []) (fun _ => Return tt)
         (fun _ _ _ _ => Return tt) (fun _ _ => Return tt)
         (fun _ => Return {| pages := 1; size := 10485762 |})
         (fun p => p) (fun p => p) (fun p => p)
         (fun a b => a ++ b) 0%Z 0%Z options []
       = (Return result, log)
       /\ In CallParseMarkdown log.
Proof.
  intros content options parsed.
  assert (Hn : Z.of_nat (Z.to_nat 5242881) = 5242881%Z) by (apply Z2Nat.id; lia).
  assert (Hsize : utf8_size content = 10485762%Z).
  { unfold content. rewrite utf8_size_repeat, Hn. reflexivity. }
  assert (Hvalid : valid (validateMarkdown content) = true).
  { unfold content. apply validateMarkdown_repeat.
    - reflexivity.
    - lia.
    - rewrite Hn. unfold MAX_LENGTH. lia. }
  split; [exact Hsize|].
  split; [rewrite Hsize; unfold MAX_LENGTH; lia|].
  split; [unfold content; now rewrite repeat_length|].
  split; [exact Hvalid|].
  exact (convert_parses_valid (fun _ => IsFile) (fun _ => Return content)
           (fun _ => Return parsed) (fun html _ => Return html)
           (fun _ _ => []) (fun _ => Return tt)
           (fun _ _ _ _ => Return tt) (fun _ _ => Return tt)
           (fun _ => Return {| pages := 1; size := 10485762 |})
           (fun p => p) (fun p => p) (fun p => p)
           (fun a b => a ++ b) 0%Z 0%Z options content eq_refl eq_refl Hvalid).
Qed.
